(** * The RNTuple field engine (ROOT/RField.hxx): a shallow embedding

    The development follows the header [ROOT/RField.hxx]: the trait bits and
    the value/bulk handles of [RFieldBase], the inline [Append], [Read] and
    [ReadBulk] dispatchers, the schema iterator, and the concrete fields whose
    bodies are inline in the header ([RRecordField], [RBitsetField],
    [RCardinalityField], [RField<RNTupleCardinality<SizeT>>]).

    Part I holds the definitions, Part II the theorems. *)

From Stdlib Require Import ZArith Lia List Bool.
From stdpp Require Import base option list strings gmap.

Local Open Scope Z_scope.

(* ===================================================================== *)
(** * Part I: definitions                                                 *)
(* ===================================================================== *)

(** ** Machine integers

    [std::size_t], [NTupleSize_t] and [ClusterSize_t::ValueType] are 64-bit
    unsigned integers; [int] and [unsigned int] are 32 bits wide.  Values are
    kept in [Z] and every arithmetic result is wrapped explicitly. *)

Module Mach.

Definition wrap (bits : Z) (x : Z) : Z := x mod 2 ^ bits.

Definition size_t (x : Z) : Z := wrap 64 x.

Definition uint (x : Z) : Z := wrap 32 x.

Definition size_max : Z := 2 ^ 64 - 1.

End Mach.

(** ** Trait bits of [RFieldBase] *)

Module Traits.

Definition kTraitTriviallyConstructible : Z := 0x01.

Definition kTraitTriviallyDestructible : Z := 0x02.

Definition kTraitMappable : Z := 0x04.

Definition kTraitTrivialType : Z :=
  Z.lor kTraitTriviallyConstructible kTraitTriviallyDestructible.

(** [fTraits & bit], read as a C++ condition. *)
Definition has (fTraits bit : Z) : bool := negb (Z.land fTraits bit =? 0).

(** [~fTraits & bit], read as a C++ condition. *)
Definition lacks (fTraits bit : Z) : bool :=
  negb (Z.land (Z.lnot fTraits) bit =? 0).

End Traits.

(** ** [RBitsetField] *)

Module RBitsetField.

Section Words.

(** [sizeof(Word_t)] for [Word_t = unsigned long]: a platform constant. *)
Variable kWordSize : Z.

Definition kBitsPerWord : Z := Mach.size_t (kWordSize * 8).

Record t := { fN : Z }.

(** [kWordSize * ((fN + kBitsPerWord - 1) / kBitsPerWord)] in [std::size_t]
    arithmetic. *)
Definition GetValueSize (f : t) : Z :=
  Mach.size_t
    (kWordSize *
     (Mach.size_t (Mach.size_t (fN f + kBitsPerWord) - 1) / kBitsPerWord)).

End Words.

(** ⌈a / b⌉ in the integers, not tied to any machine width. *)
Definition ceil_div (a b : Z) : Z := - ((- a) / b).

(** The value size as the documentation gives it:
    ⌈N / bits-per-word⌉ · word-size. *)
Definition ValueSize_documented (kWordSize N : Z) : Z :=
  ceil_div N (kWordSize * 8) * kWordSize.

End RBitsetField.

(** ** Cluster-local indices ([RClusterIndex]) *)

Module RClusterIndex.

Record t := mk { GetClusterId : Z; GetIndex : Z }.

(** [operator+(ClusterSize_t::ValueType)]: the cluster is kept, the index
    advances in 64-bit arithmetic. *)
Definition add (c : t) (off : Z) : t :=
  mk (GetClusterId c) (Mach.size_t (GetIndex c + off)).

End RClusterIndex.

(** ** The columns a field talks to

    [RColumn] belongs to the page-storage side.  The field code only calls
    it, so the store that backs the columns and the object memory is an
    interface: each operation either yields the next store or fails, which
    stands for an error propagated from the page sink or source. *)

Class ColumnStore (Store : Type) := {
  (** [RColumn::Append(from)] on column [col] *)
  column_Append : nat -> Z -> Store -> option Store;
  (** [RColumn::Read(globalIndex, to)] *)
  column_Read : nat -> Z -> Z -> Store -> option Store;
  (** [RColumn::Read(clusterIndex, to)] *)
  column_ReadInCluster : nat -> RClusterIndex.t -> Z -> Store -> option Store;
  (** [RColumn::ReadV(clusterIndex, count, to)] *)
  column_ReadV : nat -> RClusterIndex.t -> Z -> Z -> Store -> option Store;
  (** [RColumn::GetElement()->GetPackedSize()] *)
  column_GetPackedSize : nat -> Store -> Z;
  (** [RColumn::GetGlobalIndex(clusterIndex)] *)
  column_GetGlobalIndex : nat -> RClusterIndex.t -> Store -> Z;
  (** [malloc(nbytes)]: the address handed out and the next store *)
  store_malloc : Z -> Store -> Z * Store
}.

(** ** Calls observed on a field and its principal column *)

Inductive Event :=
| EvColumnAppend (col : nat) (from : Z)
| EvColumnRead (col : nat) (globalIndex to : Z)
| EvColumnReadInCluster (col : nat) (clusterIndex : RClusterIndex.t) (to : Z)
| EvColumnReadV (col : nat) (first : RClusterIndex.t) (count to : Z)
| EvAppendImpl (from : Z)
| EvReadGlobalImpl (globalIndex to : Z)
| EvReadInClusterImpl (clusterIndex : RClusterIndex.t) (to : Z)
| EvReadBulkImpl (first : RClusterIndex.t) (count : Z)
| EvReadCallback (tag : nat) (target : Z)
| EvReleaseValues (values capacity : Z)
| EvMalloc (nbytes ptr : Z).

(** ** The effect monad of field operations

    A field operation runs on a world (the store and the log of calls made
    so far) and finishes normally, throws, or is undefined (a null principal
    column is dereferenced, a mask is filled past its end). *)

Module Eff.

Section WithStore.

Context {Store : Type}.

Record World := mkWorld { wStore : Store; wTrace : list Event }.

Inductive Outcome (A : Type) :=
| Done (a : A) (w : World)
| Throws (msg : string) (w : World)
| Undefined.

Definition M (A : Type) : Type := World -> Outcome A.

Definition ret {A} (a : A) : M A := fun w => Done A a w.

Definition bind {A B} (m : M A) (k : A -> M B) : M B :=
  fun w =>
    match m w with
    | Done _ a w' => k a w'
    | Throws _ msg w' => Throws B msg w'
    | Undefined _ => Undefined B
    end.

Definition throw {A} (msg : string) : M A := fun w => Throws A msg w.

Definition undefined {A} : M A := fun _ => Undefined A.

Definition emit (e : Event) : M unit :=
  fun w => Done unit tt (mkWorld (wStore w) (wTrace w ++ [e])).

(** A store step that may fail: an error raised by the storage layer (or by
    a user callback) propagates to the caller. *)
Definition on_store (f : Store -> option Store) : M unit :=
  fun w =>
    match f (wStore w) with
    | Some s' => Done unit tt (mkWorld s' (wTrace w))
    | None => Throws unit "error"%string w
    end.

Definition on_store_ret {A} (f : Store -> option (A * Store)) : M A :=
  fun w =>
    match f (wStore w) with
    | Some (a, s') => Done A a (mkWorld s' (wTrace w))
    | None => Throws A "error"%string w
    end.

Definition read_store {A} (f : Store -> A) : M A :=
  fun w => Done A (f (wStore w)) w.

End WithStore.

Arguments World : clear implicits.
Arguments Outcome : clear implicits.
Arguments M : clear implicits.
Arguments Done {Store A}.
Arguments Throws {Store A}.
Arguments Undefined {Store A}.

End Eff.

#[global] Instance Eff_ret {Store} : MRet (Eff.M Store) := @Eff.ret Store.

#[global] Instance Eff_bind {Store} : MBind (Eff.M Store) :=
  fun A B k m => Eff.bind m k.

(** ** [RFieldBase]: traits, callbacks and the inline dispatchers *)

Module RFieldBase.

Definition kAllSet : Z := Mach.size_t (-1).

(** [std::fill(mask + first, mask + first + count, v)] as the loop it is. *)
Fixpoint std_fill (mask : list bool) (first count : nat) (v : bool)
  : list bool :=
  match count with
  | O => mask
  | S n => std_fill (<[first := v]> mask) (S first) n v
  end.

(** [RBulkSpec]: [fMaskAvail] points into the mask array of the bulk handle
    and is kept as the offset of that window; [fValues] is an address. *)
Record RBulkSpec := mkBulkSpec {
  fFirstIndex : RClusterIndex.t;
  fCount : Z;
  fMaskReq : list bool;
  fMaskAvail : nat;
  fValues : Z
}.

(** The arrays of a bulk handle that a bulk read may write: the
    availability mask and the auxiliary bytes. *)
Record BulkBuffers := mkBuffers {
  bMaskAvail : list bool;
  bAuxData : list Z
}.

Section WithStore.

Context {Store : Type} `{ColumnStore Store}.

Abbreviation M := (Eff.M Store).

(** A post-read callback (a [std::function] from the object pointer to
    [void]), with a tag that identifies it in the log. *)
Record ReadCallback_t := mkCallback {
  cbTag : nat;
  cbFun : Z -> Store -> option Store
}.

(** The members of [RFieldBase] that [Append], [Read] and [ReadBulk] look
    at, and the virtual functions they dispatch to. *)
Record t := mk {
  fTraits : Z;
  fIsSimple : bool;
  fPrincipalColumn : option nat;
  fReadCallbacks : list ReadCallback_t;
  GetValueSize : Z;
  AppendImpl : Z -> Store -> option (Z * Store);
  ReadGlobalImpl : Z -> Z -> Store -> option Store;
  ReadInClusterImpl : RClusterIndex.t -> Z -> Store -> option Store;
  ReadBulkImpl :
    RBulkSpec -> BulkBuffers -> Store -> option (Z * BulkBuffers * Store)
}.

(** [fPrincipalColumn->...]: a null pointer has no column behind it. *)
Definition principal (f : t) : M nat :=
  match fPrincipalColumn f with
  | Some col => mret col
  | None => Eff.undefined
  end.

Fixpoint invoke_all (cbs : list ReadCallback_t) (target : Z) : M unit :=
  match cbs with
  | [] => mret tt
  | func :: rest =>
      Eff.emit (EvReadCallback (cbTag func) target);;
      Eff.on_store (cbFun func target);;
      invoke_all rest target
  end.

Definition InvokeReadCallbacks (f : t) (target : Z) : M unit :=
  invoke_all (fReadCallbacks f) target.

Definition Append (f : t) (from : Z) : M Z :=
  if Traits.lacks (fTraits f) Traits.kTraitMappable then
    Eff.emit (EvAppendImpl from);;
    Eff.on_store_ret (AppendImpl f from)
  else
    col ← principal f;
    Eff.emit (EvColumnAppend col from);;
    Eff.on_store (column_Append col from);;
    Eff.read_store (column_GetPackedSize col).

(** [Read(NTupleSize_t globalIndex, void *to)] *)
Definition Read (f : t) (globalIndex to : Z) : M unit :=
  if fIsSimple f then
    col ← principal f;
    Eff.emit (EvColumnRead col globalIndex to);;
    Eff.on_store (column_Read col globalIndex to)
  else
    (if Traits.has (fTraits f) Traits.kTraitMappable then
       col ← principal f;
       Eff.emit (EvColumnRead col globalIndex to);;
       Eff.on_store (column_Read col globalIndex to)
     else
       Eff.emit (EvReadGlobalImpl globalIndex to);;
       Eff.on_store (ReadGlobalImpl f globalIndex to));;
    if negb (bool_decide (fReadCallbacks f = [])) then
      InvokeReadCallbacks f to
    else mret tt.

(** [Read(const RClusterIndex &clusterIndex, void *to)] *)
Definition ReadInCluster (f : t) (clusterIndex : RClusterIndex.t) (to : Z)
  : M unit :=
  if fIsSimple f then
    col ← principal f;
    Eff.emit (EvColumnReadInCluster col clusterIndex to);;
    Eff.on_store (column_ReadInCluster col clusterIndex to)
  else
    (if Traits.has (fTraits f) Traits.kTraitMappable then
       col ← principal f;
       Eff.emit (EvColumnReadInCluster col clusterIndex to);;
       Eff.on_store (column_ReadInCluster col clusterIndex to)
     else
       Eff.emit (EvReadInClusterImpl clusterIndex to);;
       Eff.on_store (ReadInClusterImpl f clusterIndex to));;
    if negb (bool_decide (fReadCallbacks f = [])) then
      InvokeReadCallbacks f to
    else mret tt.

(** [ReadBulk(const RBulkSpec &bulkSpec)] at field level. *)
Definition ReadBulk (f : t) (bulkSpec : RBulkSpec) (buf : BulkBuffers)
  : M (Z * BulkBuffers) :=
  if fIsSimple f then
    col ← principal f;
    Eff.emit (EvColumnReadV col (fFirstIndex bulkSpec) (fCount bulkSpec)
                (fValues bulkSpec));;
    Eff.on_store (column_ReadV col (fFirstIndex bulkSpec) (fCount bulkSpec)
                    (fValues bulkSpec));;
    if decide (fMaskAvail bulkSpec + Z.to_nat (fCount bulkSpec)
               <= length (bMaskAvail buf))%nat then
      mret (kAllSet,
            mkBuffers
              (std_fill (bMaskAvail buf) (fMaskAvail bulkSpec)
                 (Z.to_nat (fCount bulkSpec)) true)
              (bAuxData buf))
    else Eff.undefined
  else
    Eff.emit (EvReadBulkImpl (fFirstIndex bulkSpec) (fCount bulkSpec));;
    Eff.on_store_ret
      (fun s =>
         match ReadBulkImpl f bulkSpec buf s with
         | Some (n, buf', s') => Some ((n, buf'), s')
         | None => None
         end).

Definition with_callbacks (f : t) (cbs : list ReadCallback_t) (simple : bool)
  : t :=
  mk (fTraits f) simple (fPrincipalColumn f) cbs (GetValueSize f)
     (AppendImpl f) (ReadGlobalImpl f) (ReadInClusterImpl f) (ReadBulkImpl f).

(** Modelled from the spec: [AddReadCallback] is only declared in the
    header, its body is not among the sources.  Sections 4.1 and 4.4: the
    callbacks form an ordered list, invoked in registration order;
    registering a callback demotes [simple] to false; the call returns an
    index that can be used to remove the callback. *)
Definition AddReadCallback (f : t) (func : ReadCallback_t) : nat * t :=
  (length (fReadCallbacks f),
   with_callbacks f (fReadCallbacks f ++ [func]) false).

(** Modelled from the spec: [RemoveReadCallback] is only declared in the
    header.  Section 4.4: removal restores [simple] if no callbacks remain
    and the field is mappable. *)
Definition RemoveReadCallback (f : t) (idx : nat) : t :=
  let cbs := delete idx (fReadCallbacks f) in
  with_callbacks f cbs
    (Traits.has (fTraits f) Traits.kTraitMappable && bool_decide (cbs = [])).

(** The outcome of one call [op] on the store, logged as [e]. *)
Definition column_call (e : Event) (op : Store -> option Store)
    (w : Eff.World Store) : Eff.Outcome Store unit :=
  match op (Eff.wStore w) with
  | Some s' => Eff.Done tt (Eff.mkWorld s' (Eff.wTrace w ++ [e]))
  | None =>
      Eff.Throws "error"%string
        (Eff.mkWorld (Eff.wStore w) (Eff.wTrace w ++ [e]))
  end.

(** How the slow path of [Read] populates the value: a read of the principal
    column for a mappable field, a call of [ReadGlobalImpl] otherwise. *)
Definition populate_global (f : t) (globalIndex to : Z)
    (w : Eff.World Store) : Eff.Outcome Store unit :=
  if Traits.has (fTraits f) Traits.kTraitMappable then
    match fPrincipalColumn f with
    | Some col =>
        column_call (EvColumnRead col globalIndex to)
          (column_Read col globalIndex to) w
    | None => Eff.Undefined
    end
  else
    column_call (EvReadGlobalImpl globalIndex to)
      (ReadGlobalImpl f globalIndex to) w.

(** What a list of callbacks leaves in the store when they are applied to
    [target] one after the other, and the log entries they make. *)
Fixpoint callbacks_effect (cbs : list ReadCallback_t) (target : Z) (s : Store)
  : option Store :=
  match cbs with
  | [] => Some s
  | func :: rest =>
      match cbFun func target s with
      | Some s' => callbacks_effect rest target s'
      | None => None
      end
  end.

Definition callback_events (cbs : list ReadCallback_t) (target : Z)
  : list Event :=
  map (fun func => EvReadCallback (cbTag func) target) cbs.

End WithStore.

Arguments t : clear implicits.
Arguments ReadCallback_t : clear implicits.

End RFieldBase.

(** ** [RFieldBase::RBulk]: the bulk handle *)

Module RBulk.

Section WithStore.

Context {Store : Type} `{ColumnStore Store}.

Abbreviation M := (Eff.M Store).

Record t := mk {
  fField : RFieldBase.t Store;
  fValues : Z;
  fValueSize : Z;
  fCapacity : Z;
  fSize : Z;
  fMaskAvail : list bool;
  fNValidValues : Z;
  fFirstIndex : RClusterIndex.t;
  fAuxData : list Z
}.

Definition ContainsRange (b : t) (firstIndex : RClusterIndex.t) (size : Z)
  : bool :=
  if negb (RClusterIndex.GetClusterId firstIndex
           =? RClusterIndex.GetClusterId (fFirstIndex b)) then false
  else
    (RClusterIndex.GetIndex (fFirstIndex b)
     <=? RClusterIndex.GetIndex firstIndex)
    && (Mach.size_t (RClusterIndex.GetIndex firstIndex + size)
        <=? Mach.size_t (RClusterIndex.GetIndex (fFirstIndex b) + fSize b)).

Definition GetValuePtrAt (b : t) (idx : Z) : Z :=
  fValues b + Mach.size_t (idx * fValueSize b).

(** Modelled from the spec: [ReleaseValues] is only declared in the header.
    Section 4.2 has the old contents destroyed before the array is resized;
    the call is logged with the array it releases. *)
Definition ReleaseValues (b : t) : M unit :=
  Eff.emit (EvReleaseValues (fValues b) (fCapacity b)).

Definition malloc (nbytes : Z) : M Z :=
  p ← Eff.on_store_ret (fun s => Some (store_malloc nbytes s));
  Eff.emit (EvMalloc nbytes p);;
  mret p.

(** Modelled from the spec: [Reset] is only declared in the header.  Its
    comment there: a new range is set; with enough capacity the value array
    is reused, otherwise a new array is allocated; after the reset the mask
    is false for all values.  Section 4.2: the value array is resized
    (destroying the old contents first), the mask is cleared and the range is
    adopted. *)
Definition Reset (b : t) (firstIndex : RClusterIndex.t) (size : Z) : M t :=
  b1 ← (if fCapacity b <? size then
          ReleaseValues b;;
          p ← malloc (Mach.size_t (size * fValueSize b));
          mret (mk (fField b) p (fValueSize b) size (fSize b)
                  (replicate (Z.to_nat size) false) (fNValidValues b)
                  (fFirstIndex b) (fAuxData b))
        else mret b);
  mret (mk (fField b1) (fValues b1) (fValueSize b1) (fCapacity b1) size
          (RFieldBase.std_fill (fMaskAvail b1) 0 (Z.to_nat size) false)
          0 firstIndex (fAuxData b1)).

(** Modelled from the spec: [CountValidValues] is only declared in the
    header.  [fNValidValues] is the number of set entries among the first
    [fSize] entries of the mask. *)
Definition CountValidValues (b : t) : t :=
  mk (fField b) (fValues b) (fValueSize b) (fCapacity b) (fSize b)
     (fMaskAvail b)
     (Z.of_nat (length (filter (fun x => x = true)
                          (take (Z.to_nat (fSize b)) (fMaskAvail b)))))
     (fFirstIndex b) (fAuxData b).

Definition with_read (b : t) (buf : RFieldBase.BulkBuffers) (nValid : Z) : t :=
  mk (fField b) (fValues b) (fValueSize b) (fCapacity b) (fSize b)
     (RFieldBase.bMaskAvail buf) nValid (fFirstIndex b)
     (RFieldBase.bAuxData buf).

(** [ReadBulk(firstIndex, maskReq, size)]: the pointer returned and the
    handle as the call leaves it. *)
Definition ReadBulk (b : t) (firstIndex : RClusterIndex.t)
    (maskReq : list bool) (size : Z) : M (Z * t) :=
  b ← (if negb (ContainsRange b firstIndex size)
       then Reset b firstIndex size else mret b);
  let offset :=
    Mach.size_t (RClusterIndex.GetIndex firstIndex
                 - RClusterIndex.GetIndex (fFirstIndex b)) in
  if fNValidValues b =? fSize b then mret (GetValuePtrAt b offset, b)
  else
    let bulkSpec :=
      RFieldBase.mkBulkSpec firstIndex size maskReq (Z.to_nat offset)
        (GetValuePtrAt b offset) in
    r ← RFieldBase.ReadBulk (fField b) bulkSpec
          (RFieldBase.mkBuffers (fMaskAvail b) (fAuxData b));
    let nRead := r.1 in
    let b' :=
      if nRead =? RFieldBase.kAllSet then
        if (offset =? 0) && (size =? fSize b)
        then with_read b r.2 (fSize b)
        else CountValidValues (with_read b r.2 (fNValidValues b))
      else with_read b r.2 (Mach.size_t (fNValidValues b + nRead)) in
    mret (GetValuePtrAt b' offset, b').


End WithStore.

Arguments t : clear implicits.

End RBulk.

(** ** A list-backed store

    One instance of the column interface, used to run the definitions: every
    column is the list of its elements, all in one cluster (id 0) that starts
    at global index 0; the object memory maps an address to the value that
    sits there, one address per value. *)

Module ListStore.

Record t := mk {
  columns : gmap nat (list Z);
  memory : gmap Z Z;
  packedSize : Z;
  brk : Z
}.

Definition append (col : nat) (from : Z) (s : t) : option t :=
  els ← columns s !! col;
  v ← memory s !! from;
  Some (mk (<[col := els ++ [v]]> (columns s)) (memory s) (packedSize s)
          (brk s)).

Definition read (col : nat) (globalIndex to : Z) (s : t) : option t :=
  els ← columns s !! col;
  if globalIndex <? 0 then None
  else
    v ← els !! Z.to_nat globalIndex;
    Some (mk (columns s) (<[to := v]> (memory s)) (packedSize s) (brk s)).

Definition read_in_cluster (col : nat) (ci : RClusterIndex.t) (to : Z) (s : t)
  : option t :=
  if RClusterIndex.GetClusterId ci =? 0
  then read col (RClusterIndex.GetIndex ci) to s
  else None.

Fixpoint write_all (to : Z) (vs : list Z) (m : gmap Z Z) : gmap Z Z :=
  match vs with
  | [] => m
  | v :: rest => write_all (to + 1) rest (<[to := v]> m)
  end.

Definition readv (col : nat) (ci : RClusterIndex.t) (count to : Z) (s : t)
  : option t :=
  els ← columns s !! col;
  if negb (RClusterIndex.GetClusterId ci =? 0) then None
  else
    let vs := take (Z.to_nat count)
                (drop (Z.to_nat (RClusterIndex.GetIndex ci)) els) in
    if Z.of_nat (length vs) =? count
    then Some (mk (columns s) (write_all to vs (memory s)) (packedSize s)
                 (brk s))
    else None.

#[global] Instance store : ColumnStore t := {
  column_Append := append;
  column_Read := read;
  column_ReadInCluster := read_in_cluster;
  column_ReadV := readv;
  column_GetPackedSize := fun _ s => packedSize s;
  column_GetGlobalIndex := fun _ ci _ => RClusterIndex.GetIndex ci;
  store_malloc := fun n s =>
    (brk s, mk (columns s) (memory s) (packedSize s) (brk s + n))
}.

(** A field of a fundamental type on column [col]: no [...Impl] of its own
    (each fails if it is ever entered). *)
Definition leaf (col : nat) (traits : Z) (simple : bool)
    (cbs : list (RFieldBase.ReadCallback_t t)) : RFieldBase.t t :=
  RFieldBase.mk traits simple (Some col) cbs 1
    (fun _ _ => None) (fun _ _ _ => None) (fun _ _ _ => None)
    (fun _ _ _ => None).

(** A callback that adds [d] to the value at the object pointer. *)
Definition bump (tag : nat) (d : Z) : RFieldBase.ReadCallback_t t :=
  RFieldBase.mkCallback tag
    (fun target s =>
       v ← memory s !! target;
       Some (mk (columns s) (<[target := v + d]> (memory s)) (packedSize s)
               (brk s))).

(** A store with one column of three elements and an object at address
    100, and the world that starts on it with an empty log. *)
Definition store0 : t :=
  mk {[ 0%nat := [10; 20; 30] ]} {[ 100 := 7 ]} 4 1000.

Definition world0 : Eff.World t := Eff.mkWorld store0 [].

Definition with_memory (m : gmap Z Z) (s : t) : t :=
  mk (columns s) m (packedSize s) (brk s).

(** A bulk handle of a simple field over the cluster-local range [0, 2)
    whose first slot is available and whose second slot is not. *)
Definition bulk_half_valid : RBulk.t t :=
  RBulk.mk (leaf 0 7 true []) 1000 1 2 2 [true; false] 1
    (RClusterIndex.mk 0 0) [].


End ListStore.

(** ** [RRecordField]: the constructor from an array of item fields *)

Module RRecordField.

(** What the constructor asks of an item field: [GetTraits()],
    [GetAlignment()] and [GetValueSize()]. *)
Record Item := mkItem {
  GetTraits : Z;
  GetAlignment : Z;
  GetValueSize : Z
}.

Record t := mk {
  fTraits : Z;
  fMaxAlignment : Z;
  fSize : Z;
  fOffsets : list Z;
  fSubFields : list Item
}.

Section Ctor.

(** [GetItemPadding(baseOffset, itemAlignment)] is declared in the header;
    its body is not among the sources. *)
Variable GetItemPadding : Z -> Z -> Z.

(** The members right after the base-class constructor ran with
    [isSimple = false] (no trait set) and the default member initialisers. *)
Definition base : t := mk 0 1 0 [] [].

(** One turn of the constructor's loop, for item [i] and [offsets[i]]. *)
Definition attach_item (r : t) (io : Item * Z) : t :=
  let item := io.1 in
  mk (Z.land (fTraits r) (GetTraits item))
     (Z.max (fMaxAlignment r) (GetAlignment item))
     (Mach.size_t
        (fSize r
         + Mach.size_t (GetItemPadding (fSize r) (GetAlignment item)
                        + GetValueSize item)))
     (fOffsets r ++ [io.2])
     (fSubFields r ++ [item]).

(** The constructor: [fTraits |= kTraitTrivialType], then the loop over the
    [N] item fields and their offsets. *)
Definition RRecordField (itemFields : list (Item * Z)) : t :=
  fold_left attach_item itemFields
    (mk (Z.lor (fTraits base) Traits.kTraitTrivialType) (fMaxAlignment base)
       (fSize base) (fOffsets base) (fSubFields base)).

End Ctor.

(** The bitwise AND of the traits of a list of item fields, starting from
    both triviality bits. *)
Definition and_of_traits (items : list Item) : Z :=
  fold_right Z.land Traits.kTraitTrivialType (map GetTraits items).

End RRecordField.

(** ** Connecting a field to a page sink *)

Module Connect.

(** [RFieldBase::EState] *)
Inductive EState := kUnconnected | kConnectedToSink | kConnectedToSource.

(** The outcome of a call that may throw an [RException]. *)
Inductive RResult (A : Type) :=
| Ok (a : A)
| Fail (what : string).

Arguments Ok {A}.
Arguments Fail {A}.

Inductive EColumnType :=
| kIndex64 | kIndex32 | kSplitIndex64 | kSplitIndex32 | kOther (n : nat).

(** [RNTupleWriteOptions], as far as the connection looks at it. *)
Record RNTupleWriteOptions := mkOptions { compressionEnabled : bool }.

(** The connection-related members of a field, with its virtual
    [GenerateColumnsImpl()] for writing. *)
Record Field := mkField {
  fName : string;
  fState : EState;
  fColumns : list EColumnType;
  fPrincipalColumn : option EColumnType;
  GenerateColumnsImpl : RResult (list EColumnType)
}.

(** Every split variant has a plain counterpart. *)
Definition plain (c : EColumnType) : EColumnType :=
  match c with
  | kSplitIndex64 => kIndex64
  | kSplitIndex32 => kIndex32
  | c => c
  end.

(** Modelled from the spec: [ConnectPageSink] is only declared in the
    header.  Section 4.1, connect-to-sink: the field generates its columns
    for writing, the representation is adjusted to the write options (split
    columns become their plain counterparts when compression is off), the
    first column, if any, becomes the principal column.  Section 3: a field
    only ever leaves the unconnected state once.  Section 7: an error aborts
    the connection and leaves the field unconnected and without columns.
    (The recursion into children does not arise for a leaf.) *)
Definition ConnectPageSink (f : Field) (options : RNTupleWriteOptions)
  : RResult Field :=
  match fState f with
  | kUnconnected =>
      match GenerateColumnsImpl f with
      | Fail what => Fail what
      | Ok cols =>
          let cols' :=
            if compressionEnabled options then cols else map plain cols in
          Ok (mkField (fName f) kConnectedToSink cols' (head cols')
                (GenerateColumnsImpl f))
      end
  | _ => Fail "invalid attempt to connect an already connected field"
  end.

End Connect.

(** ** The offset column of a collection, as a cardinality field reads it *)

Module OffsetColumn.

(** Modelled from the spec: [RColumn] is not among the sources.  Section
    4.3: the offset of entry [i] within a cluster is the number of items in
    the cluster up to and including entry [i], and the collection of an
    entry spans two consecutive offsets (or starts at 0 at the cluster
    start).  Section 6: [GetCollectionInfo] yields the cluster, the first
    item index and the size; [MapV] yields a pointer and the number of items
    until the end of the page.  The column holds the offsets of one cluster,
    page by page. *)
Record t := mk {
  fClusterId : Z;
  fPages : list (list Z)
}.

(** The offsets of the cluster, in entry order. *)
Definition offsets (c : t) : list Z := concat (fPages c).

(** The offset of entry [i], 0 where there is none. *)
Definition offset (c : t) (i : nat) : Z := default 0 (offsets c !! i).

Fixpoint map_pages (pages : list (list Z)) (idx : nat) : option (list Z) :=
  match pages with
  | [] => None
  | page :: rest =>
      if decide (idx < length page)%nat then Some (drop idx page)
      else map_pages rest (idx - length page)
  end.

(** Modelled from the spec: [RColumn::MapV] (section 6, a pointer and the
    number of items until the end of the page).  The offsets from
    [clusterIndex] to the end of its page; the length of the list is
    [nItemsUntilPageEnd]. *)
Definition MapV (c : t) (clusterIndex : RClusterIndex.t) : option (list Z) :=
  if (RClusterIndex.GetClusterId clusterIndex =? fClusterId c)
     && (0 <=? RClusterIndex.GetIndex clusterIndex)
  then map_pages (fPages c) (Z.to_nat (RClusterIndex.GetIndex clusterIndex))
  else None.

(** Modelled from the spec: [RColumn::GetCollectionInfo] (sections 4.3 and
    6): the collection of an entry starts at the offset of the entry before
    it, or at 0 for the first entry of the cluster, and ends at its own
    offset. *)
Definition GetCollectionInfo (c : t) (clusterIndex : RClusterIndex.t)
  : option (RClusterIndex.t * Z) :=
  if (RClusterIndex.GetClusterId clusterIndex =? fClusterId c)
     && (0 <=? RClusterIndex.GetIndex clusterIndex)
  then
    let i := Z.to_nat (RClusterIndex.GetIndex clusterIndex) in
    idxEnd ← offsets c !! i;
    let idxStart := match i with O => 0 | S j => offset c j end in
    Some (RClusterIndex.mk (fClusterId c) idxStart,
          Mach.size_t (idxEnd - idxStart))
  else None.

End OffsetColumn.

(** ** [RCardinalityField] *)

Module RCardinalityField.

(** [RField<RNTupleCardinality<SizeT>>] comes in two widths. *)
Inductive SizeT := UInt32 | UInt64.

Definition bits (sz : SizeT) : Z :=
  match sz with UInt32 => 32 | UInt64 => 64 end.

(** [GenerateColumnsImpl()]: the field is only used for reading. *)
Definition GenerateColumnsImpl
  : Connect.RResult (list Connect.EColumnType) :=
  Connect.Fail "Cardinality fields must only be used for reading".

(** A cardinality field as the connection sees it, in any state and with
    any columns. *)
Definition field (name : string) (sz : SizeT) (state : Connect.EState)
    (cols : list Connect.EColumnType) : Connect.Field :=
  Connect.mkField name state cols (head cols) GenerateColumnsImpl.

(** The conversion of a [ClusterSize_t] value into
    [RNTupleCardinality<SizeT>]. *)
Definition as_SizeT (sz : SizeT) (x : Z) : Z :=
  Mach.wrap (bits sz) (Mach.size_t x).

(** [typedValues[i] = v]; writing past the end of the array is undefined. *)
Definition store_at (typedValues : list Z) (i : nat) (v : Z)
  : option (list Z) :=
  if decide (i < length typedValues)%nat
  then Some (<[i := v]> typedValues) else None.

(** The inner [for] loop of [ReadBulkImpl] over the first [nBatch] mapped
    offsets: the values written and the last offset seen. *)
Fixpoint batch (sz : SizeT) (offsets : list Z) (pos : nat) (lastOffset : Z)
    (typedValues : list Z) : option (list Z * Z) :=
  match offsets with
  | [] => Some (typedValues, lastOffset)
  | o :: rest =>
      tv ← store_at typedValues pos (as_SizeT sz (o - lastOffset));
      batch sz rest (S pos) o tv
  end.

(** The [while (nRemainingEntries > 0)] loop, with a bound on the number of
    turns; [None] also when the bound is used up. *)
Fixpoint loop (fuel : nat) (sz : SizeT) (col : OffsetColumn.t)
    (fFirstIndex : RClusterIndex.t)
    (lastOffset nRemainingEntries nEntries : Z) (typedValues : list Z)
  : option (list Z) :=
  if 0 <? nRemainingEntries then
    match fuel with
    | O => None
    | S fuel' =>
        offsets ← OffsetColumn.MapV col
                    (RClusterIndex.add fFirstIndex nEntries);
        let nItemsUntilPageEnd := Z.of_nat (length offsets) in
        let nBatch := Z.min nRemainingEntries nItemsUntilPageEnd in
        r ← batch sz (take (Z.to_nat nBatch) offsets) (Z.to_nat nEntries)
              lastOffset typedValues;
        loop fuel' sz col fFirstIndex r.2
          (Mach.size_t (nRemainingEntries - nBatch))
          (Mach.size_t (nEntries + nBatch)) r.1
    end
  else Some typedValues.

(** [RField<RNTupleCardinality<SizeT>>::ReadBulkImpl(bulkSpec)] on the
    principal column [col], for the range of [fCount] entries from
    [fFirstIndex] and the destination array [typedValues]: the value
    returned and the array as the call leaves it. *)
Definition ReadBulkImpl (fuel : nat) (sz : SizeT) (col : OffsetColumn.t)
    (fFirstIndex : RClusterIndex.t) (fCount : Z) (typedValues : list Z)
  : option (Z * list Z) :=
  info ← OffsetColumn.GetCollectionInfo col fFirstIndex;
  let collectionStart := info.1 in
  let collectionSize := info.2 in
  tv ← store_at typedValues 0 (as_SizeT sz collectionSize);
  let lastOffset :=
    Mach.size_t (RClusterIndex.GetIndex collectionStart + collectionSize) in
  let nRemainingEntries := Mach.size_t (fCount - 1) in
  tv' ← loop fuel sz col fFirstIndex lastOffset nRemainingEntries 1 tv;
  Some (RFieldBase.kAllSet, tv').

(** The offsets of scenario 2 of the documentation, [3, 3, 4, 6], followed
    by two more entries, on pages of two, three and one elements. *)
Definition column0 : OffsetColumn.t :=
  OffsetColumn.mk 0 [[3; 3]; [4; 6; 6]; [9]].

(** Two entries whose collections have [2^32 + 5] and [2^32] items. *)
Definition column_wide : OffsetColumn.t :=
  OffsetColumn.mk 0 [[4294967301; 8589934597]].

End RCardinalityField.

(** ** [RFieldBase::RValue]: the value handle *)

Module RValue.

(** A handle: the field that made it (a field is named by a number), the
    address of the object and the ownership flag. *)
Record t := mk {
  fField : nat;
  fObjPtr : Z;
  fIsOwning : bool
}.

(** A call [fField->DestroyValue(fObjPtr)]: the object is destroyed and its
    memory freed. *)
Record Destroyed := mkDestroyed { dField : nat; dObjPtr : Z }.

#[global] Instance Destroyed_eq_dec : EqDecision Destroyed.
Proof. solve_decision. Defined.

Definition nullptr : Z := 0.

Definition DestroyIfOwning (v : t) : list Destroyed :=
  if fIsOwning v then [mkDestroyed (fField v) (fObjPtr v)] else [].

(** [RValue(RValue &&other)]: the new handle and what is left of [other].
    The new handle starts from [fIsOwning = false] and swaps the flag with
    the one of [other]. *)
Definition move_construct (other : t) : t * t :=
  (mk (fField other) (fObjPtr other) (fIsOwning other),
   mk (fField other) (fObjPtr other) false).

(** [operator=(RValue &&other)]: the handle assigned to, what is left of
    [other], and the destructions made on the way. *)
Definition move_assign (this other : t) : t * t * list Destroyed :=
  let destroyed := DestroyIfOwning this in
  let this1 := mk (fField this) (fObjPtr this) false in
  (mk (fField other) (fObjPtr other) (fIsOwning other),
   mk (fField this1) (fObjPtr this1) (fIsOwning this1),
   destroyed).

(** [~RValue()] *)
Definition destructor (v : t) : list Destroyed := DestroyIfOwning v.

Definition GetNonOwningCopy (v : t) : t := mk (fField v) (fObjPtr v) false.

(** [Release<T>()]: the pointer handed to the caller and the handle left. *)
Definition Release (v : t) : Z * t :=
  (fObjPtr v, mk (fField v) nullptr false).

(** [RFieldBase::BindValue(where)] *)
Definition BindValue (field : nat) (where_ : Z) : t := mk field where_ false.

(** Modelled from the spec: the [GenerateValue()] without argument is only
    declared in the header.  Section 4.1: storage is allocated, the value is
    constructed there and an owning handle is returned; [where_] is the
    address the allocation returned. *)
Definition GenerateValue (field : nat) (where_ : Z) : t := mk field where_ true.

(** *** A program over handles

    Handle variables are named by numbers.  A command declares a handle
    from a field ([CGenerate], [CBind]), from another handle
    ([CMoveConstruct], [CNonOwningCopy]), assigns one handle to another
    ([CMoveAssign]), releases the object of a handle or ends the life of a
    handle ([CDestroy]). *)
Inductive Cmd :=
| CGenerate (h field : nat)
| CBind (h field : nat) (where_ : Z)
| CMoveConstruct (h other : nat)
| CNonOwningCopy (h other : nat)
| CMoveAssign (h other : nat)
| CRelease (h : nat)
| CDestroy (h : nat).

(** The live handles, the first and the next address of the allocator (the
    objects made by [GenerateValue] are the ones in between), and the
    destructions so far, oldest first. *)
Record State := mkState {
  handles : gmap nat t;
  first : Z;
  next : Z;
  destroyed : list Destroyed
}.

Definition initial (first_address : Z) : State :=
  mkState ∅ first_address first_address [].

Definition declare (h : nat) (v : t) (st : State) : option State :=
  match handles st !! h with
  | Some _ => None
  | None =>
      Some (mkState (<[h := v]> (handles st)) (first st) (next st)
              (destroyed st))
  end.

(** One command; [None] when the command names a handle that is not live
    or declares one that is.  In [h = std::move(h)] both references are
    the same handle: its object is destroyed if owned, the flag is cleared
    and the swaps change nothing. *)
Definition step (c : Cmd) (st : State) : option State :=
  match c with
  | CGenerate h field =>
      st' ← declare h (GenerateValue field (next st)) st;
      Some (mkState (handles st') (first st) (next st + 1) (destroyed st'))
  | CBind h field where_ => declare h (BindValue field where_) st
  | CMoveConstruct h other =>
      v ← handles st !! other;
      let r := move_construct v in
      declare h r.1
        (mkState (<[other := r.2]> (handles st)) (first st) (next st)
           (destroyed st))
  | CNonOwningCopy h other =>
      v ← handles st !! other;
      declare h (GetNonOwningCopy v) st
  | CMoveAssign h other =>
      this ← handles st !! h;
      if decide (h = other) then
        Some (mkState
                (<[h := mk (fField this) (fObjPtr this) false]> (handles st))
                (first st) (next st) (destroyed st ++ DestroyIfOwning this))
      else
        v ← handles st !! other;
        let r := move_assign this v in
        Some (mkState (<[h := r.1.1]> (<[other := r.1.2]> (handles st)))
                (first st) (next st) (destroyed st ++ r.2))
  | CRelease h =>
      v ← handles st !! h;
      Some (mkState (<[h := (Release v).2]> (handles st)) (first st)
              (next st) (destroyed st))
  | CDestroy h =>
      v ← handles st !! h;
      Some (mkState (delete h (handles st)) (first st) (next st)
              (destroyed st ++ destructor v))
  end.

Fixpoint run (cs : list Cmd) (st : State) : option State :=
  match cs with
  | [] => Some st
  | c :: rest => st' ← step c st; run rest st'
  end.

(** The handle whose end of life or replacement a command brings about. *)
Definition ends_handle (c : Cmd) : option nat :=
  match c with
  | CDestroy h => Some h
  | CMoveAssign h _ => Some h
  | _ => None
  end.

(** What a command must destroy: the object of the handle it ends, if that
    handle owns it. *)
Definition must_destroy (c : Cmd) (st : State) : list Destroyed :=
  match ends_handle c with
  | Some h =>
      match handles st !! h with
      | Some v =>
          if fIsOwning v then [mkDestroyed (fField v) (fObjPtr v)] else []
      | None => []
      end
  | None => []
  end.

(** The objects are in good order: live owning handles point to distinct
    objects made by [GenerateValue] and not destroyed, and no object was
    destroyed twice. *)
Record well_owned (st : State) : Prop := {
  owners_distinct :
    forall h1 h2 v1 v2,
      handles st !! h1 = Some v1 -> handles st !! h2 = Some v2 ->
      fIsOwning v1 = true -> fIsOwning v2 = true ->
      fObjPtr v1 = fObjPtr v2 -> h1 = h2;
  owned_generated :
    forall h v,
      handles st !! h = Some v -> fIsOwning v = true ->
      first st <= fObjPtr v < next st;
  owned_alive :
    forall h v d,
      handles st !! h = Some v -> fIsOwning v = true ->
      d ∈ destroyed st -> dObjPtr d <> fObjPtr v;
  destroyed_generated :
    forall d, d ∈ destroyed st -> first st <= dObjPtr d < next st;
  destroyed_once : NoDup (dObjPtr <$> destroyed st);
  first_le_next : first st <= next st
}.

(** A program: an object is generated into handle 0 and one is bound to
    handle 1; the owned object moves to handle 2 and then into handle 1;
    all three handles end. *)
Definition program0 : list Cmd :=
  [CGenerate 0 7; CBind 1 7 500; CMoveConstruct 2 0; CMoveAssign 1 2;
   CDestroy 0; CDestroy 2; CDestroy 1].

End RValue.

(** ** [RFieldBase::RSchemaIteratorTemplate]: the schema iterator *)

Module SchemaIterator.

#[local] Unset Elimination Schemes.

(** A field with the subfields it owns. *)
Inductive Field := mkField (fName : string) (fSubFields : list Field).

#[local] Set Elimination Schemes.

Definition fSubFields (u : Field) : list Field :=
  match u with mkField _ cs => cs end.

(** A pointer to a field of the tree under the field on which [begin()] is
    called: the indices of the subfields to step into, innermost first.  The
    empty list points to that field itself; the pointer without its first
    index is the [fParent] of the field pointed to, which is how [Attach]
    sets the back-references. *)
Definition FieldPtr := list nat.

Fixpoint deref (root : Field) (ptr : FieldPtr) : option Field :=
  match ptr with
  | [] => Some root
  | i :: parent => u ← deref root parent; fSubFields u !! i
  end.

(** [fFieldPtr->fParent]; the field [begin()] was called on has no parent
    that the iterator may look at. *)
Definition fParent (ptr : FieldPtr) : option FieldPtr :=
  match ptr with
  | [] => None
  | _ :: parent => Some parent
  end.

Record Position := mkPosition {
  fFieldPtr : FieldPtr;
  fIdxInParent : Z
}.

(** The iterator: its [fStack], the back of the vector first. *)
Definition iterator := list Position.

(** The loop of [Advance] that steps to the next sibling, leaving finished
    levels; [top] is the back of the stack, [rest] what lies under it. *)
Fixpoint climb (root : Field) (top : Position) (rest : list Position)
  : option iterator :=
  let idx := fIdxInParent top + 1 in
  let nextIdxInParent := Mach.uint idx in
  parent ← fParent (fFieldPtr top);
  u ← deref root parent;
  if Z.of_nat (length (fSubFields u)) <=? nextIdxInParent then
    match rest with
    | [] => Some [mkPosition parent (-1)]
    | top' :: rest' => climb root top' rest'
    end
  else
    Some (mkPosition (Z.to_nat nextIdxInParent :: parent) idx :: rest).

Definition Advance (root : Field) (it : iterator) : option iterator :=
  match it with
  | [] => None
  | top :: rest =>
      u ← deref root (fFieldPtr top);
      if negb (bool_decide (fSubFields u = [])) then
        Some (mkPosition (0%nat :: fFieldPtr top) 0 :: top :: rest)
      else climb root top rest
  end.

(** [begin()] and [end()] of the field at the root. *)
Definition begin_ (root : Field) : iterator :=
  if bool_decide (fSubFields root = []) then [mkPosition [] (-1)]
  else [mkPosition [0%nat] 0].

Definition end_ (root : Field) : iterator := [mkPosition [] (-1)].

(** [operator*]: the field the back of the stack points to. *)
Definition current (it : iterator) : option FieldPtr :=
  match it with
  | [] => None
  | top :: _ => Some (fFieldPtr top)
  end.

(** [operator==]: the field pointers at the backs of the stacks agree. *)
Definition iterator_eqb (a b : iterator) : bool :=
  bool_decide (current a = current b).

(** The loop from [begin()] to [end()] that visits the field under the
    iterator and increments it: the fields visited, in order; [None] when
    the bound on the number of turns is used up or a step is undefined. *)
Fixpoint traverse (fuel : nat) (root : Field) (it : iterator)
  : option (list FieldPtr) :=
  if iterator_eqb it (end_ root) then Some []
  else
    match fuel with
    | O => None
    | S fuel' =>
        here ← current it;
        it' ← Advance root it;
        visited ← traverse fuel' root it';
        Some (here :: visited)
    end.

(** The field [u], which sits at [ptr], and the fields under it, in
    depth-first pre-order. *)
Fixpoint preorder (u : Field) (ptr : FieldPtr) : list FieldPtr :=
  match u with
  | mkField _ cs =>
      ptr ::
      (fix forest (cs : list Field) (i : nat) : list FieldPtr :=
         match cs with
         | [] => []
         | c :: cs' => preorder c (i :: ptr) ++ forest cs' (S i)
         end) cs 0%nat
  end.

(** The same for a forest, whose trees are the subfields [i], [i + 1], ...
    of the field at [parent]. *)
Fixpoint preorder_forest (cs : list Field) (parent : FieldPtr) (i : nat)
  : list FieldPtr :=
  match cs with
  | [] => []
  | c :: cs' => preorder c (i :: parent) ++ preorder_forest cs' parent (S i)
  end.

(** The number of fields of a tree and of a forest. *)
Fixpoint size (u : Field) : nat :=
  match u with
  | mkField _ cs =>
      S ((fix sum (cs : list Field) : nat :=
            match cs with
            | [] => O
            | c :: cs' => (size c + sum cs')%nat
            end) cs)
  end.

Fixpoint size_forest (cs : list Field) : nat :=
  match cs with
  | [] => O
  | c :: cs' => (size c + size_forest cs')%nat
  end.

(** Every field of the tree has fewer subfields than an [int] can count. *)
Fixpoint fits_int (u : Field) : Prop :=
  match u with
  | mkField _ cs =>
      Z.of_nat (length cs) < 2 ^ 31
      /\ (fix all (cs : list Field) : Prop :=
            match cs with
            | [] => True
            | c :: cs' => fits_int c /\ all cs'
            end) cs
  end.

(** The statement about one subtree: from the position of the field [u],
    as many turns as [u] has fields visit [u] and everything under it in
    pre-order and leave the iterator where the climb from [u] leads. *)
Definition subtree_traversed (root u : Field) : Prop :=
  fits_int u ->
  forall (ptr : FieldPtr) (idx : Z) (s : list Position) (it' : iterator)
         (fuel : nat),
    deref root ptr = Some u -> ptr <> [] ->
    climb root (mkPosition ptr idx) s = Some it' ->
    traverse (size u + fuel) root (mkPosition ptr idx :: s)
    = (fun v => preorder u ptr ++ v) <$> traverse fuel root it'.

(** The pointers listed for the subtree of [u] at [ptr] are those that lead
    from [ptr] to a field of [u]. *)
Definition preorder_lists_subtree (u : Field) : Prop :=
  forall ptr ptr' : FieldPtr,
    ptr' ∈ preorder u ptr
    <-> exists q : FieldPtr, ptr' = q ++ ptr /\ is_Some (deref u q).

(** A record of three fields, the second a record of two, and a field
    without subfields. *)
Definition tree0 : Field :=
  mkField "" [mkField "a" [];
              mkField "b" [mkField "x" []; mkField "y" []];
              mkField "c" []].

Definition single : Field := mkField "s" [].

End SchemaIterator.

(** ** [RField<ROOT::VecOps::RVec<ItemT>>]: appending and reading a vector *)

Module RRVecField.

(** The conversion of a [std::size_t] into an [int]. *)
Definition to_int (x : Z) : Z := (x + 2 ^ 31) mod 2 ^ 32 - 2 ^ 31.

(** What [AppendImpl] and [ReadGlobalImpl] work on, for an item field of a
    fundamental type (a simple field): the running item count [fNWritten],
    the offset column [fColumns[0]], which is the principal column, and the
    elements of the principal column of the item field [fSubFields[0]]; all
    within one cluster that starts at entry 0.  An [RVec] value is the list
    of its items. *)
Record t := mk {
  fNWritten : Z;
  fOffsetColumn : OffsetColumn.t;
  fItemColumn : list Z;
  fItemPackedSize : Z;
  fOffsetPackedSize : Z
}.

(** Modelled from the spec: [RColumn::Append] on the offset column (section
    2: append of packed elements); the element goes to the end of the
    column. *)
Definition append_offset (c : OffsetColumn.t) (v : Z) : OffsetColumn.t :=
  OffsetColumn.mk (OffsetColumn.fClusterId c) (OffsetColumn.fPages c ++ [[v]]).

(** The loop of [AppendImpl]: [CallAppendOn] of the item field for every
    item, which appends the item to the item column and returns the packed
    size of its element; [nbytes] is an [int]. *)
Fixpoint append_items (itemPackedSize : Z) (items : list Z) (nbytes : Z)
    (column : list Z) : Z * list Z :=
  match items with
  | [] => (nbytes, column)
  | x :: rest =>
      append_items itemPackedSize rest
        (to_int (Mach.size_t (nbytes + itemPackedSize))) (column ++ [x])
  end.

(** [AppendImpl(from)]: the bytes written and the field afterwards.  The
    loop counter is an [unsigned]; with [2^32] items or more it would never
    reach [count], which is [None] here. *)
Definition AppendImpl (f : t) (typedValue : list Z) : option (Z * t) :=
  let count := Z.of_nat (length typedValue) in
  if 2 ^ 32 <=? count then None
  else
    let r := append_items (fItemPackedSize f) typedValue 0 (fItemColumn f) in
    let nWritten := Mach.size_t (fNWritten f + count) in
    Some (Mach.size_t (r.1 + fOffsetPackedSize f),
          mk nWritten (append_offset (fOffsetColumn f) nWritten) r.2
             (fItemPackedSize f) (fOffsetPackedSize f)).

(** The loop of [ReadGlobalImpl]: [CallReadOn] of the item field at
    [collectionStart + i] for [i] from [i] on, [n] times; a read past the
    end of the item column fails. *)
Fixpoint read_items (column : list Z) (collectionStart : Z) (i : Z) (n : nat)
  : option (list Z) :=
  match n with
  | O => Some []
  | S n' =>
      x ← column !! Z.to_nat (Mach.size_t (collectionStart + Mach.uint i));
      rest ← read_items column collectionStart (i + 1) n';
      Some (x :: rest)
  end.

(** [ReadGlobalImpl(globalIndex, to)]: the vector left in [to]. *)
Definition ReadGlobalImpl (f : t) (globalIndex : Z) : option (list Z) :=
  info ← OffsetColumn.GetCollectionInfo (fOffsetColumn f)
            (RClusterIndex.mk (OffsetColumn.fClusterId (fOffsetColumn f))
               globalIndex);
  let collectionStart := info.1 in
  let nItems := info.2 in
  if 2 ^ 32 <=? nItems then None
  else
    read_items (fItemColumn f) (RClusterIndex.GetIndex collectionStart) 0
      (Z.to_nat nItems).

(** [CommitClusterImpl()] of [RRVecField] *)
Definition CommitClusterImpl (f : t) : t :=
  mk 0 (fOffsetColumn f) (fItemColumn f) (fItemPackedSize f)
     (fOffsetPackedSize f).

(** Appending the entries of a list one after the other; the bytes written
    are dropped. *)
Fixpoint append_all (f : t) (entries : list (list Z)) : option t :=
  match entries with
  | [] => Some f
  | v :: rest => r ← AppendImpl f v; append_all r.2 rest
  end.

(** A field connected to empty columns of cluster [cluster]. *)
Definition fresh (cluster itemPackedSize offsetPackedSize : Z) : t :=
  mk 0 (OffsetColumn.mk cluster []) [] itemPackedSize offsetPackedSize.

(** The number of items of the entries of a list, and the running totals
    after each entry, starting from [acc]. *)
Definition total (entries : list (list Z)) : Z :=
  Z.of_nat (length (concat entries)).

Fixpoint running_totals (acc : Z) (entries : list (list Z)) : list Z :=
  match entries with
  | [] => []
  | v :: rest =>
      (acc + Z.of_nat (length v))
      :: running_totals (acc + Z.of_nat (length v)) rest
  end.

End RRVecField.

(** ** Observations on the read dispatchers *)

Module ReadPaths.

Section WithStore.

Context {Store : Type} `{ColumnStore Store}.

(** How the slow path of [Read(clusterIndex, to)] populates the value: a
    cluster-local read of the principal column for a mappable field, a call
    of [ReadInClusterImpl] otherwise. *)
Definition populate_in_cluster (f : RFieldBase.t Store)
    (clusterIndex : RClusterIndex.t) (to : Z) (w : Eff.World Store)
  : Eff.Outcome Store unit :=
  if Traits.has (RFieldBase.fTraits f) Traits.kTraitMappable then
    match RFieldBase.fPrincipalColumn f with
    | Some col =>
        RFieldBase.column_call (EvColumnReadInCluster col clusterIndex to)
          (column_ReadInCluster col clusterIndex to) w
    | None => Eff.Undefined
    end
  else
    RFieldBase.column_call (EvReadInClusterImpl clusterIndex to)
      (RFieldBase.ReadInClusterImpl f clusterIndex to) w.

(** [Read(clusterIndex, to)] with the virtual call of [ReadInClusterImpl]
    bound to [impl], the implementation of the class of the field. *)
Definition ReadInCluster_with
    (impl : RClusterIndex.t -> Z -> Eff.M Store unit)
    (f : RFieldBase.t Store) (clusterIndex : RClusterIndex.t) (to : Z)
  : Eff.M Store unit :=
  if RFieldBase.fIsSimple f then
    col ← RFieldBase.principal f;
    Eff.emit (EvColumnReadInCluster col clusterIndex to);;
    Eff.on_store (column_ReadInCluster col clusterIndex to)
  else
    (if Traits.has (RFieldBase.fTraits f) Traits.kTraitMappable then
       col ← RFieldBase.principal f;
       Eff.emit (EvColumnReadInCluster col clusterIndex to);;
       Eff.on_store (column_ReadInCluster col clusterIndex to)
     else
       Eff.emit (EvReadInClusterImpl clusterIndex to);;
       impl clusterIndex to);;
    if negb (bool_decide (RFieldBase.fReadCallbacks f = [])) then
      RFieldBase.InvokeReadCallbacks f to
    else mret tt.

(** The [ReadInClusterImpl] that [RFieldBase] gives to the classes that do
    not override it:
    [ReadGlobalImpl(fPrincipalColumn->GetGlobalIndex(clusterIndex), to)].
    The principal column of the field is dereferenced, which is undefined
    for a field without columns. *)
Definition ReadInClusterImpl_default (f : RFieldBase.t Store)
    (clusterIndex : RClusterIndex.t) (to : Z) : Eff.M Store unit :=
  col ← RFieldBase.principal f;
  globalIndex ← Eff.read_store (column_GetGlobalIndex col clusterIndex);
  Eff.on_store (RFieldBase.ReadGlobalImpl f globalIndex to).

(** What an outcome leaves behind when the log is not looked at: the store
    after a normal end or a throw, nothing for an undefined run. *)
Inductive Left :=
| LeftDone (s : Store)
| LeftThrown (s : Store)
| LeftUndefined.

Definition left_behind {A : Type} (o : Eff.Outcome Store A) : Left :=
  match o with
  | Eff.Done _ w => LeftDone (Eff.wStore w)
  | Eff.Throws _ w => LeftThrown (Eff.wStore w)
  | Eff.Undefined => LeftUndefined
  end.

End WithStore.

Arguments Left : clear implicits.

End ReadPaths.

(** ** [RProxiedCollectionField::RCollectionIterableOnce] *)

Module RCollectionIterableOnce.

Definition nullptr : Z := 0.

Section WithProxy.

(** The iterator object of the collection proxy that [fIterator] points to,
    for a collection that is not array-backed. *)
Variable IterState : Type.

(** The owner: the stride (0 for a collection that is not array-backed),
    the begin and end pointers set up by [fCreateIterators], and
    [fIFuncs.fNext], which steps the iterator object and returns the element
    or a null pointer. *)
Record t := mk {
  fStride : Z;
  fBegin : Z;
  fEnd : Z;
  fNext : IterState -> Z * IterState
}.

Record RIterator := mkIterator {
  fIterator : Z;
  fIterState : IterState;
  fElementPtr : Z
}.

(** [Advance()]: array-backed collections use the pointer to the iterator
    data as the pointer to the element and move it on by the stride; the
    others ask [fNext]. *)
Definition Advance (fOwner : t) (it : RIterator) : RIterator :=
  if negb (fStride fOwner =? 0) then
    mkIterator (fIterator it + fStride fOwner) (fIterState it) (fIterator it)
  else
    let r := fNext fOwner (fIterState it) in
    mkIterator (fIterator it) r.2 r.1.

(** [begin()]: the iterator built on the owner and [fBegin], which
    advances once. *)
Definition begin_ (fOwner : t) (st : IterState) : RIterator :=
  Advance fOwner (mkIterator (fBegin fOwner) st nullptr).

(** [end()]: the iterator built on the owner and [fEnd] for a stride, the
    iterator without an element otherwise. *)
Definition end_ (fOwner : t) (st : IterState) : RIterator :=
  if negb (fStride fOwner =? 0) then
    Advance fOwner (mkIterator (fEnd fOwner) st nullptr)
  else mkIterator nullptr st nullptr.

(** The range-based [for] over the iterable: the element pointers the body
    sees, in order; [None] when the bound on the number of turns is used
    up.  Iterators compare by [fElementPtr]. *)
Fixpoint elements (fuel : nat) (fOwner : t) (it last : RIterator)
  : option (list Z) :=
  if fElementPtr it =? fElementPtr last then Some []
  else
    match fuel with
    | O => None
    | S fuel' =>
        rest ← elements fuel' fOwner (Advance fOwner it) last;
        Some (fElementPtr it :: rest)
    end.

End WithProxy.

Arguments mk {IterState}.
Arguments fStride {IterState}.
Arguments fBegin {IterState}.
Arguments fEnd {IterState}.
Arguments fNext {IterState}.
Arguments mkIterator {IterState}.
Arguments fIterator {IterState}.
Arguments fIterState {IterState}.
Arguments fElementPtr {IterState}.
Arguments Advance {IterState}.
Arguments begin_ {IterState}.
Arguments end_ {IterState}.
Arguments elements {IterState}.

(** The addresses of [n] elements that lie [stride] apart from [base]
    on. *)
Definition strided (base stride : Z) (n : nat) : list Z :=
  (fun k => base + Z.of_nat k * stride) <$> seq 0 n.

(** What [n] calls of [fNext] in a row return, from the iterator object
    [st] on. *)
Fixpoint next_results {IterState : Type} (fNext : IterState -> Z * IterState)
    (st : IterState) (n : nat) : list Z :=
  match n with
  | O => []
  | S n' => (fNext st).1 :: next_results fNext (fNext st).2 n'
  end.

(** The [fNext] of a proxy whose iterator object is the list of the
    elements still to come. *)
Definition list_next (st : list Z) : Z * list Z :=
  match st with
  | [] => (nullptr, [])
  | e :: rest => (e, rest)
  end.

End RCollectionIterableOnce.

(** ** Fields with an implementation of their own on the list-backed store *)

Module ListFields.

(** A field that is not mappable, with the principal column [col]:
    [ReadGlobalImpl] reads element [globalIndex] of the column into the
    object, and [ReadInClusterImpl] is not overridden, so that it reads at
    the global index that the principal column gives for the cluster
    index. *)
Definition composite (col : nat)
    (cbs : list (RFieldBase.ReadCallback_t ListStore.t))
  : RFieldBase.t ListStore.t :=
  RFieldBase.mk 0 false (Some col) cbs 1
    (fun _ _ => None) (ListStore.read col)
    (fun clusterIndex to s =>
       ListStore.read col (column_GetGlobalIndex col clusterIndex s) to s)
    (fun _ _ _ => None).

(** A field like [REnumField]: no columns, neither simple nor mappable,
    [ReadInClusterImpl] not overridden. *)
Definition columnless (cbs : list (RFieldBase.ReadCallback_t ListStore.t))
  : RFieldBase.t ListStore.t :=
  RFieldBase.mk 0 false None cbs 1
    (fun _ _ => None) (fun _ _ _ => None) (fun _ _ _ => None)
    (fun _ _ _ => None).

(** A callback that throws. *)
Definition failing (tag : nat) : RFieldBase.ReadCallback_t ListStore.t :=
  RFieldBase.mkCallback tag (fun _ _ => None).

End ListFields.

(** ** Where the objects of a program over handles end up *)

Module RValueAccount.

Import RValue.

(** What a [Release] hands to the caller: the pointer that [Release]
    returns, together with the ownership flag of the handle at the call.  A
    handle that owns its object passes the ownership on with the pointer; a
    handle that does not (a copy, a bound or a moved-from handle) hands out
    the pointer of an object that stays with its owner. *)
Definition releases (c : Cmd) (st : State) : list (bool * Z) :=
  match c with
  | CRelease h =>
      match handles st !! h with
      | Some v => [(fIsOwning v, (Release v).1)]
      | None => []
      end
  | _ => []
  end.

(** What the calls of [Release] in the course of a program returned. *)
Fixpoint released (cs : list Cmd) (st : State) : list (bool * Z) :=
  match cs with
  | [] => []
  | c :: rest =>
      match step c st with
      | Some st' => releases c st ++ released rest st'
      | None => []
      end
  end.

(** The pointers among them that came with the ownership of the object. *)
Fixpoint given_up (rs : list (bool * Z)) : list Z :=
  match rs with
  | [] => []
  | (true, p) :: rest => p :: given_up rest
  | (false, _) :: rest => given_up rest
  end.

(** The object at [a] is owned by a live handle. *)
Definition owned (st : State) (a : Z) : Prop :=
  exists h v,
    handles st !! h = Some v /\ fIsOwning v = true /\ fObjPtr v = a.

(** Every object made by [GenerateValue] is accounted for: it is owned by a
    live handle, was destroyed, or was given up to the caller by the handle
    that owned it ([rel]), and the ones given up are neither owned nor
    destroyed. *)
Record accounted (st : State) (rel : list Z) : Prop := {
  released_once : NoDup rel;
  released_generated : forall a, a ∈ rel -> first st <= a < next st;
  released_not_destroyed :
    forall a d, a ∈ rel -> d ∈ destroyed st -> dObjPtr d <> a;
  released_not_owned :
    forall a h v,
      a ∈ rel -> handles st !! h = Some v -> fIsOwning v = true ->
      fObjPtr v <> a;
  all_accounted :
    forall a, first st <= a < next st ->
      owned st a \/ a ∈ (dObjPtr <$> destroyed st) \/ a ∈ rel
}.

(** A program in which two objects are generated; one is released to the
    caller and the other moves to a second handle before all handles
    end. *)
Definition program1 : list Cmd :=
  [CGenerate 0 7; CGenerate 1 7; CRelease 0; CMoveConstruct 2 1;
   CDestroy 1; CDestroy 0; CDestroy 2].

(** A program in which the object moves to a second handle before
    [Release] is called on the first one, which hands out the pointer
    without the ownership. *)
Definition program2 : list Cmd :=
  [CGenerate 0 7; CMoveConstruct 2 0; CRelease 0; CDestroy 2; CDestroy 0].

End RValueAccount.

(** ** Reading one entry of a cardinality field *)

Module RCardinalityEntry.

(** [RField<RNTupleCardinality<SizeT>>::ReadInClusterImpl(clusterIndex, to)]
    on the principal column [col]: the value stored in the object at
    [to]. *)
Definition ReadInClusterImpl (sz : RCardinalityField.SizeT)
    (col : OffsetColumn.t) (clusterIndex : RClusterIndex.t) : option Z :=
  info ← OffsetColumn.GetCollectionInfo col clusterIndex;
  let size := info.2 in
  Some (RCardinalityField.as_SizeT sz size).

End RCardinalityEntry.

(** ** The shape of the stack of a schema iterator *)

Module SchemaStack.

Import SchemaIterator.

(** The stack is the chain of fields from a subfield of the root down to the
    field under the iterator: each position points to subfield
    [fIdxInParent] of the field that the position under it points to, and
    the lowest position to a subfield of the root. *)
Fixpoint well_stacked (it : iterator) : Prop :=
  match it with
  | [] => False
  | top :: rest =>
      exists (i : nat) (parent : FieldPtr),
        fFieldPtr top = i :: parent /\ fIdxInParent top = Z.of_nat i
        /\ match rest with
           | [] => parent = []
           | below :: _ => parent = fFieldPtr below /\ well_stacked rest
           end
  end.

(** The iterator can be dereferenced: the back of its stack points to a
    field of the tree. *)
Definition valid (root : Field) (it : iterator) : Prop :=
  exists ptr : FieldPtr, current it = Some ptr /\ is_Some (deref root ptr).

End SchemaStack.

(* ===================================================================== *)
(** * Part II: theorems                                                   *)
(* ===================================================================== *)

(** ** The bitset field's value size *)

Section BitsetFacts.

Import RBitsetField.

Lemma ceil_div_up (a b : Z) : 0 < b -> ceil_div a b = (a + b - 1) / b.
Proof.
  intros Hb. unfold ceil_div.
  pose proof (Z.mul_div_le (a + b - 1) b Hb) as Hlo.
  pose proof (Z.mul_succ_div_gt (a + b - 1) b Hb) as Hhi.
  assert (E : (- a) / b = - ((a + b - 1) / b)).
  { symmetry.
    apply (Z.div_unique_pos (- a) b _ (b * ((a + b - 1) / b) - a)); lia. }
  lia.
Qed.

Lemma ceil_div_least (a b : Z) :
  0 < b -> a <= ceil_div a b * b /\ (ceil_div a b - 1) * b < a.
Proof.
  intros Hb. rewrite ceil_div_up by assumption.
  pose proof (Z.mul_div_le (a + b - 1) b Hb).
  pose proof (Z.mul_succ_div_gt (a + b - 1) b Hb). lia.
Qed.

(** C9, as amended: for every width [N] with [N + kBitsPerWord - 1]
    representable in [std::size_t], [GetValueSize] is
    ⌈N / bits-per-word⌉ · word-size, the word being [kWordSize] bytes wide
    (at most 8, as [unsigned long] is on the supported platforms). *)
Theorem GetValueSize_is_ceil_words (kWordSize N : Z) :
  0 < kWordSize <= 8 -> 0 <= N -> N + kWordSize * 8 - 1 < 2 ^ 64 ->
  GetValueSize kWordSize {| fN := N |} = ValueSize_documented kWordSize N.
Proof.
  intros Hw HN Hfit.
  unfold GetValueSize, ValueSize_documented, kBitsPerWord, Mach.size_t,
    Mach.wrap. cbn [fN].
  rewrite (Z.mod_small (kWordSize * 8)) by lia.
  rewrite Zminus_mod_idemp_l.
  rewrite (Z.mod_small (N + kWordSize * 8 - 1)) by lia.
  rewrite ceil_div_up by lia.
  set (q := (N + kWordSize * 8 - 1) / (kWordSize * 8)).
  assert (Hq : 0 <= q) by (apply Z.div_pos; lia).
  assert (Hle : kWordSize * 8 * q <= N + kWordSize * 8 - 1)
    by (apply Z.mul_div_le; lia).
  rewrite Z.mod_small by nia.
  lia.
Qed.

Lemma GetValueSize_is_ceil_words_witness :
  GetValueSize 8 {| fN := 65 |} = ValueSize_documented 8 65.
Proof. apply GetValueSize_is_ceil_words; lia. Defined.

(** C9, as stated, fails at the widest bitset a [std::size_t] can name on a
    platform with 8-byte words: [fN + kBitsPerWord - 1] wraps around and the
    value size comes out as 0 instead of 2^61. *)
Lemma GetValueSize_wraps_at_size_max :
  GetValueSize 8 {| fN := Mach.size_max |} = 0
  /\ ValueSize_documented 8 Mach.size_max = 2 ^ 61
  /\ GetValueSize 8 {| fN := Mach.size_max |}
     <> ValueSize_documented 8 Mach.size_max.
Proof. vm_compute. repeat split; discriminate. Qed.

Example GetValueSize_bitset_1 : GetValueSize 8 {| fN := 1 |} = 8.
Proof. reflexivity. Qed.

Example GetValueSize_bitset_64 : GetValueSize 8 {| fN := 64 |} = 8.
Proof. reflexivity. Qed.

Example GetValueSize_bitset_0 : GetValueSize 8 {| fN := 0 |} = 0.
Proof. reflexivity. Qed.

End BitsetFacts.

(** ** Trait bits *)

Section TraitFacts.

Lemma land_pow2 (x k : Z) :
  0 <= k -> Z.land x (2 ^ k) = if Z.testbit x k then 2 ^ k else 0.
Proof.
  intros Hk. apply Z.bits_inj'. intros n Hn.
  rewrite Z.land_spec, Z.pow2_bits_eqb by assumption.
  destruct (k =? n) eqn:E.
  - apply Z.eqb_eq in E. subst n. rewrite andb_true_r.
    destruct (Z.testbit x k); [now rewrite Z.pow2_bits_true | now rewrite Z.bits_0].
  - rewrite andb_false_r.
    destruct (Z.testbit x k); [| now rewrite Z.bits_0].
    rewrite Z.pow2_bits_false; [reflexivity|]. now apply Z.eqb_neq.
Qed.

Lemma has_testbit (x k : Z) :
  0 <= k -> Traits.has x (2 ^ k) = Z.testbit x k.
Proof.
  intros Hk. unfold Traits.has. rewrite land_pow2 by assumption.
  assert (0 < 2 ^ k) by (apply Z.pow_pos_nonneg; lia).
  destruct (Z.testbit x k); [| reflexivity].
  destruct (Z.eqb_spec (2 ^ k) 0); [lia | reflexivity].
Qed.

Lemma lacks_testbit (x k : Z) :
  0 <= k -> Traits.lacks x (2 ^ k) = negb (Z.testbit x k).
Proof.
  intros Hk. unfold Traits.lacks.
  change (negb (Z.land (Z.lnot x) (2 ^ k) =? 0))
    with (Traits.has (Z.lnot x) (2 ^ k)).
  rewrite has_testbit by assumption. apply Z.lnot_spec. assumption.
Qed.

Lemma lacks_mappable (x : Z) :
  Traits.lacks x Traits.kTraitMappable
  = negb (Traits.has x Traits.kTraitMappable).
Proof.
  change Traits.kTraitMappable with (2 ^ 2).
  now rewrite lacks_testbit, has_testbit by lia.
Qed.

End TraitFacts.

(** ** [std::fill] on a mask *)

Section FillFacts.

Import RFieldBase.

Lemma std_fill_length (count : nat) :
  forall (mask : list bool) (first : nat) (v : bool),
    length (std_fill mask first count v) = length mask.
Proof.
  induction count as [| n IH]; intros mask first v; cbn; [reflexivity |].
  now rewrite IH, length_insert.
Qed.

Lemma std_fill_lookup_out (count : nat) :
  forall (mask : list bool) (first : nat) (v : bool) (i : nat),
    (i < first \/ first + count <= i)%nat ->
    std_fill mask first count v !! i = mask !! i.
Proof.
  induction count as [| n IH]; intros mask first v i Hi; cbn;
    [reflexivity |].
  rewrite IH by lia. apply list_lookup_insert_ne. lia.
Qed.

Lemma std_fill_lookup_in (count : nat) :
  forall (mask : list bool) (first : nat) (v : bool) (i : nat),
    (first <= i < first + count)%nat -> (i < length mask)%nat ->
    std_fill mask first count v !! i = Some v.
Proof.
  induction count as [| n IH]; intros mask first v i Hi Hlen; cbn; [lia |].
  destruct (decide (i = first)) as [-> | Hne].
  - rewrite std_fill_lookup_out by lia.
    now apply list_lookup_insert_eq.
  - apply IH; [lia | now rewrite length_insert].
Qed.

End FillFacts.

(** ** [Append], [Read] and [ReadBulk] of [RFieldBase] *)

Section FieldFacts.

Context {Store : Type} `{ColumnStore Store}.

Import RFieldBase Eff.

Implicit Types (f : RFieldBase.t Store) (w : World Store).

Lemma emit_on_store (e : Event) (op : Store -> option Store) w :
  (emit e;; on_store op) w = column_call e op w.
Proof.
  unfold column_call, mbind, Eff_bind, bind, emit, on_store. cbn.
  destruct (op (wStore w)); reflexivity.
Qed.

Lemma invoke_all_done (cbs : list (ReadCallback_t Store)) (target : Z) :
  forall (s s' : Store) (tr : list Event),
    callbacks_effect cbs target s = Some s' ->
    invoke_all cbs target (mkWorld s tr)
    = Done tt (mkWorld s' (tr ++ callback_events cbs target)).
Proof.
  induction cbs as [| func rest IH]; intros s s' tr Heff; cbn in *.
  - injection Heff as <-. now rewrite app_nil_r.
  - destruct (cbFun func target s) as [s1 |] eqn:E; [| discriminate].
    unfold mbind, Eff_bind, bind, emit, on_store. cbn. rewrite E.
    rewrite (IH _ _ _ Heff). now rewrite <- app_assoc.
Qed.

(** C2: a field whose traits include [kTraitMappable] appends through its
    principal column: the only call logged is the column append (no
    [AppendImpl]), the store is the one the column leaves, and the value
    returned is the packed size of the column's element. *)
Theorem Append_mappable_uses_principal_column f (from : Z) w (col : nat)
    (s' : Store) :
  Traits.has (fTraits f) Traits.kTraitMappable = true ->
  fPrincipalColumn f = Some col ->
  column_Append col from (wStore w) = Some s' ->
  Append f from w
  = Done (column_GetPackedSize col s')
      (mkWorld s' (wTrace w ++ [EvColumnAppend col from])).
Proof.
  intros Hm Hcol Happ.
  unfold Append. rewrite lacks_mappable, Hm. cbn [negb].
  unfold principal. rewrite Hcol.
  unfold mbind, Eff_bind, bind, mret, Eff_ret, ret, emit, on_store,
    read_store. cbn. now rewrite Happ.
Qed.

Lemma Read_simple f (globalIndex to : Z) w (col : nat) :
  fIsSimple f = true -> fPrincipalColumn f = Some col ->
  Read f globalIndex to w
  = column_call (EvColumnRead col globalIndex to)
      (column_Read col globalIndex to) w.
Proof.
  intros Hs Hcol. unfold Read, principal. rewrite Hs, Hcol.
  apply emit_on_store.
Qed.

Lemma ReadInCluster_simple f (ci : RClusterIndex.t) (to : Z) w (col : nat) :
  fIsSimple f = true -> fPrincipalColumn f = Some col ->
  ReadInCluster f ci to w
  = column_call (EvColumnReadInCluster col ci to)
      (column_ReadInCluster col ci to) w.
Proof.
  intros Hs Hcol. unfold ReadInCluster, principal. rewrite Hs, Hcol.
  apply emit_on_store.
Qed.

Lemma Read_not_simple f (globalIndex to : Z) w w1 (s2 : Store) :
  fIsSimple f = false ->
  populate_global f globalIndex to w = Done tt w1 ->
  callbacks_effect (fReadCallbacks f) to (wStore w1) = Some s2 ->
  Read f globalIndex to w
  = Done tt
      (mkWorld s2 (wTrace w1 ++ callback_events (fReadCallbacks f) to)).
Proof.
  intros Hs Hpop Hcb. unfold Read. rewrite Hs.
  assert (Hfirst :
    (if Traits.has (fTraits f) Traits.kTraitMappable
     then col ← principal f;
          emit (EvColumnRead col globalIndex to);;
          on_store (column_Read col globalIndex to)
     else emit (EvReadGlobalImpl globalIndex to);;
          on_store (ReadGlobalImpl f globalIndex to)) w = Done tt w1).
  { rewrite <- Hpop. unfold populate_global, principal.
    destruct (Traits.has (fTraits f) Traits.kTraitMappable).
    - destruct (fPrincipalColumn f); [apply emit_on_store | reflexivity].
    - apply emit_on_store. }
  unfold mbind at 1. unfold Eff_bind at 1. unfold bind at 1.
  rewrite Hfirst. destruct w1 as [s1 tr1]. cbn [wStore wTrace] in *.
  case_bool_decide as Hnil; cbn [negb].
  - rewrite Hnil in *. cbn in Hcb. injection Hcb as <-.
    cbn. now rewrite app_nil_r.
  - unfold InvokeReadCallbacks. now apply invoke_all_done.
Qed.

Lemma ReadInCluster_not_simple f (ci : RClusterIndex.t) (to : Z) w w1
    (s2 : Store) :
  fIsSimple f = false ->
  ReadPaths.populate_in_cluster f ci to w = Done tt w1 ->
  callbacks_effect (fReadCallbacks f) to (wStore w1) = Some s2 ->
  ReadInCluster f ci to w
  = Done tt
      (mkWorld s2 (wTrace w1 ++ callback_events (fReadCallbacks f) to)).
Proof.
  intros Hs Hpop Hcb. unfold ReadInCluster. rewrite Hs.
  assert (Hfirst :
    (if Traits.has (fTraits f) Traits.kTraitMappable
     then col ← principal f;
          emit (EvColumnReadInCluster col ci to);;
          on_store (column_ReadInCluster col ci to)
     else emit (EvReadInClusterImpl ci to);;
          on_store (ReadInClusterImpl f ci to)) w = Done tt w1).
  { rewrite <- Hpop. unfold ReadPaths.populate_in_cluster, principal.
    destruct (Traits.has (fTraits f) Traits.kTraitMappable).
    - destruct (fPrincipalColumn f); [apply emit_on_store | reflexivity].
    - apply emit_on_store. }
  unfold mbind at 1. unfold Eff_bind at 1. unfold bind at 1.
  rewrite Hfirst. destruct w1 as [s1 tr1]. cbn [wStore wTrace] in *.
  case_bool_decide as Hnil; cbn [negb].
  - rewrite Hnil in *. cbn in Hcb. injection Hcb as <-.
    cbn. now rewrite app_nil_r.
  - unfold InvokeReadCallbacks. now apply invoke_all_done.
Qed.

(** C1: a simple field reads through one call of its principal column and
    logs nothing else (no [ReadGlobalImpl], no callback), for a global and
    for a cluster-local index; a field that is not simple populates the
    value and then runs its callbacks on the destination, first registered
    first, again for a global and for a cluster-local index; registering a
    callback clears [fIsSimple] and puts the callback last. *)
Theorem Read_fast_path_and_callbacks f (globalIndex to : Z) w :
  (forall col : nat,
     fIsSimple f = true -> fPrincipalColumn f = Some col ->
     Read f globalIndex to w
     = column_call (EvColumnRead col globalIndex to)
         (column_Read col globalIndex to) w
     /\ forall ci : RClusterIndex.t,
          ReadInCluster f ci to w
          = column_call (EvColumnReadInCluster col ci to)
              (column_ReadInCluster col ci to) w)
  /\ (forall w1 (s2 : Store),
        fIsSimple f = false ->
        populate_global f globalIndex to w = Done tt w1 ->
        callbacks_effect (fReadCallbacks f) to (wStore w1) = Some s2 ->
        Read f globalIndex to w
        = Done tt
            (mkWorld s2
               (wTrace w1 ++ callback_events (fReadCallbacks f) to)))
  /\ (forall (ci : RClusterIndex.t) w1 (s2 : Store),
        fIsSimple f = false ->
        ReadPaths.populate_in_cluster f ci to w = Done tt w1 ->
        callbacks_effect (fReadCallbacks f) to (wStore w1) = Some s2 ->
        ReadInCluster f ci to w
        = Done tt
            (mkWorld s2
               (wTrace w1 ++ callback_events (fReadCallbacks f) to)))
  /\ (forall func : ReadCallback_t Store,
        fIsSimple (AddReadCallback f func).2 = false
        /\ fReadCallbacks (AddReadCallback f func).2
           = fReadCallbacks f ++ [func]
        /\ (AddReadCallback f func).1 = length (fReadCallbacks f)).
Proof.
  split; [| split; [| split]].
  - intros col Hs Hcol. split.
    + now apply Read_simple.
    + intros ci. now apply ReadInCluster_simple.
  - intros w1 s2 Hs Hpop Hcb. now apply Read_not_simple.
  - intros ci w1 s2 Hs Hpop Hcb. now apply ReadInCluster_not_simple.
  - intros func. repeat split.
Qed.

(** C4: the bulk read of a simple field makes one [ReadV] call on the
    principal column, for [fCount] values starting at [fFirstIndex] into
    [fValues]; the required-slots mask plays no part; every entry of the
    availability window becomes true (the rest of the mask array is left
    alone) and the value returned is [kAllSet], the largest [std::size_t]. *)
Theorem ReadBulk_simple_reads_whole_range f (bulkSpec : RBulkSpec)
    (buf : BulkBuffers) w (col : nat) (s' : Store) :
  fIsSimple f = true ->
  fPrincipalColumn f = Some col ->
  column_ReadV col (fFirstIndex bulkSpec) (fCount bulkSpec)
    (fValues bulkSpec) (wStore w) = Some s' ->
  (fMaskAvail bulkSpec + Z.to_nat (fCount bulkSpec)
   <= length (bMaskAvail buf))%nat ->
  exists mask' : list bool,
    ReadBulk f bulkSpec buf w
    = Done (kAllSet, mkBuffers mask' (bAuxData buf))
        (mkWorld s'
           (wTrace w ++ [EvColumnReadV col (fFirstIndex bulkSpec)
                           (fCount bulkSpec) (fValues bulkSpec)]))
    /\ kAllSet = 2 ^ 64 - 1
    /\ length mask' = length (bMaskAvail buf)
    /\ (forall k : nat, (k < Z.to_nat (fCount bulkSpec))%nat ->
          mask' !! (fMaskAvail bulkSpec + k)%nat = Some true)
    /\ (forall i : nat,
          (i < fMaskAvail bulkSpec
           \/ fMaskAvail bulkSpec + Z.to_nat (fCount bulkSpec) <= i)%nat ->
          mask' !! i = bMaskAvail buf !! i)
    /\ (forall maskReq' : list bool,
          ReadBulk f
            (mkBulkSpec (fFirstIndex bulkSpec) (fCount bulkSpec) maskReq'
               (fMaskAvail bulkSpec) (fValues bulkSpec)) buf w
          = ReadBulk f bulkSpec buf w).
Proof.
  intros Hs Hcol Hread Hfit.
  exists (std_fill (bMaskAvail buf) (fMaskAvail bulkSpec)
            (Z.to_nat (fCount bulkSpec)) true).
  repeat split.
  - unfold ReadBulk, principal. rewrite Hs, Hcol.
    unfold mbind, Eff_bind, bind, mret, Eff_ret, ret, emit, on_store. cbn.
    rewrite Hread. now rewrite decide_True by assumption.
  - apply std_fill_length.
  - intros k Hk. apply std_fill_lookup_in; lia.
  - intros i Hi. now apply std_fill_lookup_out.
  - intros maskReq'. unfold ReadBulk. now rewrite Hs.
Qed.

End FieldFacts.

(** ** The dispatchers on the list-backed store *)

Section FieldExamples.

Import RFieldBase Eff ListStore.

Example Read_simple_runs :
  Read (leaf 0 7 true []) 1 100 world0
  = Done tt (mkWorld (with_memory {[ 100 := 20 ]} store0)
               [EvColumnRead 0 1 100]).
Proof. vm_compute. reflexivity. Qed.

Lemma Read_fast_path_and_callbacks_witness :
  Read (leaf 0 7 true []) 1 100 world0
  = Done tt (mkWorld (with_memory {[ 100 := 20 ]} store0)
               [EvColumnRead 0 1 100])
  /\ Read (AddReadCallback (AddReadCallback (leaf 0 7 true []) (bump 1 5)).2
             (bump 2 100)).2 1 100 world0
     = Done tt (mkWorld (with_memory {[ 100 := 125 ]} store0)
                  [EvColumnRead 0 1 100; EvReadCallback 1 100;
                   EvReadCallback 2 100])
  /\ ReadInCluster
       (AddReadCallback (AddReadCallback (leaf 0 7 true []) (bump 1 5)).2
          (bump 2 100)).2 (RClusterIndex.mk 0 2) 100 world0
     = Done tt (mkWorld (with_memory {[ 100 := 135 ]} store0)
                  [EvColumnReadInCluster 0 (RClusterIndex.mk 0 2) 100;
                   EvReadCallback 1 100; EvReadCallback 2 100])
  /\ fIsSimple (AddReadCallback (leaf 0 7 true []) (bump 1 5)).2 = false.
Proof.
  split; [| split; [| split]].
  - rewrite (proj1 (proj1 (Read_fast_path_and_callbacks
                             (leaf 0 7 true []) 1 100 world0)
                      0%nat eq_refl eq_refl)).
    vm_compute. reflexivity.
  - rewrite (proj1 (proj2 (Read_fast_path_and_callbacks
                             (AddReadCallback
                                (AddReadCallback (leaf 0 7 true [])
                                   (bump 1 5)).2 (bump 2 100)).2
                             1 100 world0))
               (mkWorld (with_memory {[ 100 := 20 ]} store0)
                  [EvColumnRead 0 1 100])
               (with_memory {[ 100 := 125 ]} store0)).
    + vm_compute. reflexivity.
    + reflexivity.
    + vm_compute. reflexivity.
    + vm_compute. reflexivity.
  - rewrite (proj1 (proj2 (proj2 (Read_fast_path_and_callbacks
                             (AddReadCallback
                                (AddReadCallback (leaf 0 7 true [])
                                   (bump 1 5)).2 (bump 2 100)).2
                             1 100 world0)))
               (RClusterIndex.mk 0 2)
               (mkWorld (with_memory {[ 100 := 30 ]} store0)
                  [EvColumnReadInCluster 0 (RClusterIndex.mk 0 2) 100])
               (with_memory {[ 100 := 135 ]} store0)).
    + vm_compute. reflexivity.
    + reflexivity.
    + vm_compute. reflexivity.
    + vm_compute. reflexivity.
  - apply (proj2 (proj2 (proj2 (Read_fast_path_and_callbacks
                                  (leaf 0 7 true []) 1 100 world0)))
             (bump 1 5)).
Defined.

Example RemoveReadCallback_restores_simple :
  fIsSimple
    (RemoveReadCallback (AddReadCallback (leaf 0 7 true []) (bump 1 5)).2
       (AddReadCallback (leaf 0 7 true []) (bump 1 5)).1)
  = true.
Proof. reflexivity. Qed.

Example Append_runs :
  Append (leaf 0 7 true []) 100 world0
  = Done 4 (mkWorld (mk {[ 0%nat := [10; 20; 30; 7] ]} {[ 100 := 7 ]} 4 1000)
              [EvColumnAppend 0 100]).
Proof. vm_compute. reflexivity. Qed.

Lemma Append_mappable_uses_principal_column_witness :
  Append (leaf 0 7 false [bump 1 5]) 100 world0
  = Done 4 (mkWorld (mk {[ 0%nat := [10; 20; 30; 7] ]} {[ 100 := 7 ]} 4 1000)
              [EvColumnAppend 0 100]).
Proof.
  rewrite (Append_mappable_uses_principal_column
             (leaf 0 7 false [bump 1 5]) 100 world0 0%nat
             (mk {[ 0%nat := [10; 20; 30; 7] ]} {[ 100 := 7 ]} 4 1000)).
  - reflexivity.
  - reflexivity.
  - reflexivity.
  - vm_compute. reflexivity.
Defined.

Example ReadBulk_simple_runs :
  ReadBulk (leaf 0 7 true [])
    (mkBulkSpec (RClusterIndex.mk 0 1) 2 [false; true] 1 200)
    (mkBuffers [false; false; false; false] []) world0
  = Done (18446744073709551615,
          mkBuffers [false; true; true; false] [])
      (mkWorld (with_memory {[ 100 := 7; 200 := 20; 201 := 30 ]} store0)
         [EvColumnReadV 0 (RClusterIndex.mk 0 1) 2 200]).
Proof. vm_compute. reflexivity. Qed.

Lemma ReadBulk_simple_reads_whole_range_witness :
  exists mask' : list bool,
    ReadBulk (leaf 0 7 true [])
      (mkBulkSpec (RClusterIndex.mk 0 1) 2 [false; true] 1 200)
      (mkBuffers [false; false; false; false] []) world0
    = Done (kAllSet, mkBuffers mask' [])
        (mkWorld (with_memory {[ 100 := 7; 200 := 20; 201 := 30 ]} store0)
           [EvColumnReadV 0 (RClusterIndex.mk 0 1) 2 200])
    /\ mask' !! 1%nat = Some true /\ mask' !! 2%nat = Some true
    /\ mask' !! 0%nat = Some false.
Proof.
  destruct (ReadBulk_simple_reads_whole_range (leaf 0 7 true [])
              (mkBulkSpec (RClusterIndex.mk 0 1) 2 [false; true] 1 200)
              (mkBuffers [false; false; false; false] []) world0 0%nat
              (with_memory {[ 100 := 7; 200 := 20; 201 := 30 ]} store0))
    as (mask' & Hrun & _ & _ & Hin & Hout & _).
  - reflexivity.
  - reflexivity.
  - vm_compute. reflexivity.
  - cbn. lia.
  - exists mask'. split; [exact Hrun |].
    split; [exact (Hin 0%nat ltac:(cbn; lia)) |].
    split; [exact (Hin 1%nat ltac:(cbn; lia)) |].
    rewrite (Hout 0%nat) by (cbn; lia). reflexivity.
Defined.

End FieldExamples.

(** ** The bulk handle *)

Section BulkFacts.

Context {Store : Type} `{ColumnStore Store}.

Import Eff RBulk.

Implicit Types (b : RBulk.t Store) (w : World Store).


Lemma ContainsRange_same b (firstIndex : RClusterIndex.t) (size : Z) :
  fFirstIndex b = firstIndex -> fSize b = size ->
  ContainsRange b firstIndex size = true.
Proof.
  intros <- <-. unfold ContainsRange.
  rewrite Z.eqb_refl. cbn. rewrite !Z.leb_refl. reflexivity.
Qed.


End BulkFacts.

Section BulkExamples.

Import Eff RBulk ListStore.


Example Reset_reuses_array_with_enough_capacity :
  Reset bulk_half_valid (RClusterIndex.mk 5 0) 1 world0
  = Done (RBulk.mk (leaf 0 7 true []) 1000 1 2 1 [false; false] 0
            (RClusterIndex.mk 5 0) [])
      world0.
Proof. reflexivity. Qed.


End BulkExamples.

(** ** Traits of a record field *)

Section RecordFacts.

Import RRecordField.

Variable GetItemPadding : Z -> Z -> Z.

Lemma testbit_fold_left_land (l : list Z) :
  forall (a k : Z),
    Z.testbit (fold_left Z.land l a) k
    = Z.testbit a k && forallb (fun x => Z.testbit x k) l.
Proof.
  induction l as [| x l IH]; intros a k; cbn.
  - now rewrite andb_true_r.
  - rewrite IH, Z.land_spec. now rewrite andb_assoc.
Qed.

Lemma testbit_fold_right_land (l : list Z) (a k : Z) :
  Z.testbit (fold_right Z.land a l) k
  = Z.testbit a k && forallb (fun x => Z.testbit x k) l.
Proof.
  induction l as [| x l IH]; cbn.
  - now rewrite andb_true_r.
  - rewrite Z.land_spec, IH.
    destruct (Z.testbit x k), (Z.testbit a k); reflexivity.
Qed.

Lemma fTraits_fold (items : list (Item * Z)) :
  forall r : t,
    fTraits (fold_left (attach_item GetItemPadding) items r)
    = fold_left Z.land (map (fun io => GetTraits io.1) items) (fTraits r).
Proof.
  induction items as [| io items IH]; intros r; cbn; [reflexivity |].
  now rewrite IH.
Qed.

Lemma fSubFields_fold (items : list (Item * Z)) :
  forall r : t,
    fSubFields (fold_left (attach_item GetItemPadding) items r)
    = fSubFields r ++ map fst items.
Proof.
  induction items as [| io items IH]; intros r; cbn.
  - now rewrite app_nil_r.
  - rewrite IH. cbn. now rewrite <- app_assoc.
Qed.

Lemma forallb_testbit_traits (items : list (Item * Z)) (k : Z) :
  0 <= k ->
  forallb (fun x => Z.testbit x k) (map (fun io => GetTraits io.1) items)
  = true
  <-> Forall (fun item => Traits.has (GetTraits item) (2 ^ k) = true)
        (map fst items).
Proof.
  intros Hk. rewrite forallb_forall, Forall_forall. split.
  - intros Hall item Hin. apply list_elem_of_In in Hin.
    apply in_map_iff in Hin.
    destruct Hin as (io & <- & Hio). rewrite has_testbit by assumption.
    apply Hall. apply in_map_iff. now exists io.
  - intros Hall x Hin. apply in_map_iff in Hin.
    destruct Hin as (io & <- & Hio). rewrite <- has_testbit by assumption.
    apply Hall. apply list_elem_of_In. apply in_map_iff. now exists io.
Qed.

(** C10: the traits of a record field built from item fields are the
    bitwise AND of both triviality bits with the traits of all items, the
    items are its subfields, and so the record is trivially constructible
    (trivially destructible) if and only if every item field is. *)
Theorem RRecordField_traits_are_and_of_items (itemFields : list (Item * Z)) :
  let r := RRecordField GetItemPadding itemFields in
  fTraits r = and_of_traits (map fst itemFields)
  /\ fSubFields r = map fst itemFields
  /\ (Traits.has (fTraits r) Traits.kTraitTriviallyConstructible = true
      <-> Forall (fun item =>
                    Traits.has (GetTraits item)
                      Traits.kTraitTriviallyConstructible = true)
            (fSubFields r))
  /\ (Traits.has (fTraits r) Traits.kTraitTriviallyDestructible = true
      <-> Forall (fun item =>
                    Traits.has (GetTraits item)
                      Traits.kTraitTriviallyDestructible = true)
            (fSubFields r)).
Proof.
  cbv zeta. unfold RRecordField.
  rewrite fTraits_fold, fSubFields_fold. cbn [fTraits fSubFields base app].
  split; [| split; [reflexivity | split]].
  - unfold and_of_traits. apply Z.bits_inj'. intros k Hk.
    rewrite testbit_fold_left_land, testbit_fold_right_land.
    now rewrite map_map.
  - change Traits.kTraitTriviallyConstructible with (2 ^ 0).
    rewrite <- forallb_testbit_traits by lia.
    rewrite has_testbit, testbit_fold_left_land by lia. reflexivity.
  - change Traits.kTraitTriviallyDestructible with (2 ^ 1).
    rewrite <- forallb_testbit_traits by lia.
    rewrite has_testbit, testbit_fold_left_land by lia. reflexivity.
Qed.

Example RRecordField_traits_mixed :
  fTraits (RRecordField (fun _ _ => 0)
             [(mkItem 7 4 4, 0); (mkItem 1 8 24, 8); (mkItem 3 1 1, 32)])
  = 1.
Proof. reflexivity. Qed.

Example RRecordField_traits_empty :
  fTraits (RRecordField (fun _ _ => 0) []) = 3.
Proof. reflexivity. Qed.

End RecordFacts.

(** ** Cardinality fields are read-only *)

Section CardinalityWriteFacts.

Import Connect.

(** C7: the write-path column generation of a cardinality field throws,
    whatever the field's name, width and state; hence connecting it to a
    page sink never succeeds and never yields a field connected to a
    sink. *)
Theorem RCardinalityField_never_connects_for_writing
    (name : string) (sz : RCardinalityField.SizeT) (state : EState)
    (cols : list EColumnType) (options : RNTupleWriteOptions) :
  GenerateColumnsImpl (RCardinalityField.field name sz state cols)
  = Fail "Cardinality fields must only be used for reading"
  /\ (exists what : string,
        ConnectPageSink (RCardinalityField.field name sz state cols) options
        = Fail what)
  /\ (forall f' : Field,
        ConnectPageSink (RCardinalityField.field name sz state cols) options
        <> Ok f').
Proof.
  split; [reflexivity |].
  unfold ConnectPageSink. cbn.
  destruct state; split; try (eexists; reflexivity);
    intros f' Hok; discriminate Hok.
Qed.

Example ConnectPageSink_of_an_index_leaf :
  ConnectPageSink
    (mkField "n" kUnconnected [] None (Ok [kSplitIndex64]))
    (mkOptions false)
  = Ok (mkField "n" kConnectedToSink [kIndex64] (Some kIndex64)
          (Ok [kSplitIndex64])).
Proof. reflexivity. Qed.

End CardinalityWriteFacts.

(** ** Value handles and ownership *)

Section ValueFacts.

Import RValue.

Lemma DestroyIfOwning_elem (v : t) (d : Destroyed) :
  d ∈ DestroyIfOwning v ->
  fIsOwning v = true /\ d = mkDestroyed (fField v) (fObjPtr v).
Proof.
  unfold DestroyIfOwning. destruct (fIsOwning v).
  - intros Hd. apply list_elem_of_singleton in Hd. auto.
  - intros Hd. inversion Hd.
Qed.

Lemma destroyed_once_snoc (st : State) (h : nat) (v : t) :
  well_owned st -> handles st !! h = Some v ->
  NoDup (dObjPtr <$> (destroyed st ++ DestroyIfOwning v)).
Proof.
  intros Hwo Hh. rewrite fmap_app. apply NoDup_app.
  split; [apply (destroyed_once _ Hwo) |]. split.
  - intros x Hx Hx'.
    apply list_elem_of_fmap in Hx as (d & -> & Hd).
    apply list_elem_of_fmap in Hx' as (d' & Heq & Hd').
    apply DestroyIfOwning_elem in Hd' as [Hown ->]. cbn in Heq.
    exact (owned_alive _ Hwo h v d Hh Hown Hd Heq).
  - unfold DestroyIfOwning. destruct (fIsOwning v); cbn.
    + apply NoDup_singleton.
    + apply NoDup_nil_2.
Qed.

Lemma initial_well_owned (a : Z) : well_owned (initial a).
Proof.
  split; cbn.
  - intros h1 h2 v1 v2 H1. rewrite lookup_empty in H1. discriminate.
  - intros h v H1. rewrite lookup_empty in H1. discriminate.
  - intros h v d H1. rewrite lookup_empty in H1. discriminate.
  - intros d Hd. inversion Hd.
  - apply NoDup_nil_2.
  - lia.
Qed.

Ltac learn pf :=
  let T := type of pf in
  lazymatch goal with
  | _ : T |- _ => fail
  | _ => pose proof pf
  end.

(** Case analysis on lookups in updated maps and on membership in an
    extended list of destructions. *)
Ltac owned_cases :=
  repeat match goal with
  | H : <[_ := _]> _ !! _ = Some _ |- _ =>
      apply lookup_insert_Some in H as [[<- <-] | [? H]]
  | H : delete _ _ !! _ = Some _ |- _ =>
      apply lookup_delete_Some in H as [? H]
  | H : _ ∈ _ ++ _ |- _ => apply elem_of_app in H as [H | H]
  | H : _ ∈ destructor _ |- _ => unfold destructor in H
  | H : _ ∈ DestroyIfOwning _ |- _ =>
      apply DestroyIfOwning_elem in H as [? ->]
  end.

(** Everything the invariant of [st] says about the handles and
    destructions at hand. *)
Ltac owned_facts Hwo :=
  repeat match goal with
  | H : handles ?st !! ?h = Some ?v, O : fIsOwning ?v = true |- _ =>
      progress (learn (owned_generated st Hwo h v H O))
  | H : handles ?st !! ?h = Some ?v, O : fIsOwning ?v = true,
    D : ?d ∈ destroyed ?st |- _ =>
      progress (learn (owned_alive st Hwo h v d H O D))
  | D : ?d ∈ destroyed ?st |- _ =>
      progress (learn (destroyed_generated st Hwo d D))
  | H1 : handles ?st !! ?h1 = Some ?v1, O1 : fIsOwning ?v1 = true,
    H2 : handles ?st !! ?h2 = Some ?v2, O2 : fIsOwning ?v2 = true,
    P : fObjPtr ?v1 = fObjPtr ?v2 |- _ =>
      progress (learn (owners_distinct st Hwo h1 h2 v1 v2 H1 H2 O1 O2 P))
  end.

Ltac owned_solve Hwo :=
  intros; owned_cases; cbn in *; try discriminate;
  try (let Hp := fresh "Hp" in intros Hp; cbn in Hp);
  owned_facts Hwo;
  first [ lia | congruence | eauto; fail ].

Lemma step_well_owned (c : Cmd) (st st' : State) :
  well_owned st -> step c st = Some st' -> well_owned st'.
Proof.
  intros Hwo Hstep.
  pose proof (destroyed_once _ Hwo) as Honce.
  pose proof (first_le_next _ Hwo) as Hle.
  destruct c as [h field | h field where_ | h other | h other | h other
                | h | h]; cbn in Hstep.
  - (* CGenerate *)
    unfold declare in Hstep. destruct (handles st !! h) eqn:Hh;
      [discriminate |]. cbn in Hstep. injection Hstep as <-.
    split; cbn; try assumption; try lia; owned_solve Hwo.
  - (* CBind *)
    unfold declare in Hstep. destruct (handles st !! h) eqn:Hh;
      [discriminate |]. injection Hstep as <-.
    split; cbn; try assumption; owned_solve Hwo.
  - (* CMoveConstruct *)
    destruct (handles st !! other) as [v |] eqn:Hother; [| discriminate].
    cbn in Hstep. unfold declare in Hstep. cbn in Hstep.
    destruct (<[other := _]> (handles st) !! h) eqn:Hh; [discriminate |].
    injection Hstep as <-.
    split; cbn; try assumption; owned_solve Hwo.
  - (* CNonOwningCopy *)
    destruct (handles st !! other) as [v |] eqn:Hother; [| discriminate].
    cbn in Hstep. unfold declare in Hstep.
    destruct (handles st !! h) eqn:Hh; [discriminate |].
    injection Hstep as <-.
    split; cbn; try assumption; owned_solve Hwo.
  - (* CMoveAssign *)
    destruct (handles st !! h) as [this |] eqn:Hthis; [| discriminate].
    cbn in Hstep. destruct (decide (h = other)) as [-> | Hne].
    + injection Hstep as <-.
      split; cbn; try assumption;
        try (eapply destroyed_once_snoc; eassumption); owned_solve Hwo.
    + destruct (handles st !! other) as [v |] eqn:Hother; [| discriminate].
      cbn in Hstep. injection Hstep as <-.
      split; cbn; try assumption;
        try (eapply destroyed_once_snoc; eassumption); owned_solve Hwo.
  - (* CRelease *)
    destruct (handles st !! h) as [v |] eqn:Hh; [| discriminate].
    cbn in Hstep. injection Hstep as <-.
    split; cbn; try assumption; owned_solve Hwo.
  - (* CDestroy *)
    destruct (handles st !! h) as [v |] eqn:Hh; [| discriminate].
    cbn in Hstep. injection Hstep as <-.
    split; cbn; try assumption;
      try (eapply destroyed_once_snoc; eassumption); owned_solve Hwo.
Qed.

Lemma step_destroys (c : Cmd) (st st' : State) :
  step c st = Some st' -> destroyed st' = destroyed st ++ must_destroy c st.
Proof.
  intros Hstep. unfold must_destroy.
  destruct c as [h field | h field where_ | h other | h other | h other
                | h | h]; cbn in *.
  - unfold declare in Hstep. destruct (handles st !! h); [discriminate |].
    cbn in Hstep. injection Hstep as <-. cbn. now rewrite app_nil_r.
  - unfold declare in Hstep. destruct (handles st !! h); [discriminate |].
    injection Hstep as <-. cbn. now rewrite app_nil_r.
  - destruct (handles st !! other); [| discriminate]. cbn in Hstep.
    unfold declare in Hstep. cbn in Hstep.
    destruct (<[other := _]> (handles st) !! h); [discriminate |].
    injection Hstep as <-. cbn. now rewrite app_nil_r.
  - destruct (handles st !! other); [| discriminate]. cbn in Hstep.
    unfold declare in Hstep. destruct (handles st !! h); [discriminate |].
    injection Hstep as <-. cbn. now rewrite app_nil_r.
  - destruct (handles st !! h) as [this |]; [| discriminate]. cbn in Hstep.
    destruct (decide (h = other)).
    + injection Hstep as <-. reflexivity.
    + destruct (handles st !! other); [| discriminate]. cbn in Hstep.
      injection Hstep as <-. reflexivity.
  - destruct (handles st !! h); [| discriminate]. cbn in Hstep.
    injection Hstep as <-. cbn. now rewrite app_nil_r.
  - destruct (handles st !! h); [| discriminate]. cbn in Hstep.
    injection Hstep as <-. reflexivity.
Qed.

Lemma run_well_owned (cs : list Cmd) :
  forall st st' : State,
    well_owned st -> run cs st = Some st' -> well_owned st'.
Proof.
  induction cs as [| c cs IH]; intros st st' Hwo Hrun; cbn in Hrun.
  - now injection Hrun as <-.
  - destruct (step c st) as [st1 |] eqn:Hstep; [| discriminate].
    cbn in Hrun. eapply IH; [| exact Hrun].
    eapply step_well_owned; eassumption.
Qed.

(** C8: [BindValue] makes a non-owning handle and [GenerateValue] an owning
    one; copies are non-owning and a move hands the flag over; the
    destructor destroys the object exactly if the handle owns it, and so
    does a move assignment for the handle it replaces; in a program over
    handles a command destroys an object exactly if it ends (or replaces) a
    handle that owns it, every owned object comes from [GenerateValue], and
    no object is destroyed twice. *)
Theorem RValue_owned_object_dies_with_its_handle :
  (forall (field : nat) (where_ : Z),
     fIsOwning (BindValue field where_) = false
     /\ fIsOwning (GenerateValue field where_) = true)
  /\ (forall v : t,
        fIsOwning (GetNonOwningCopy v) = false
        /\ fIsOwning (move_construct v).1 = fIsOwning v
        /\ fIsOwning (move_construct v).2 = false
        /\ fIsOwning (Release v).2 = false)
  /\ (forall v : t,
        destructor v
        = if fIsOwning v then [mkDestroyed (fField v) (fObjPtr v)] else [])
  /\ (forall this other : t,
        (move_assign this other).2 = destructor this
        /\ (move_assign this other).1.1 = other
        /\ fIsOwning (move_assign this other).1.2 = false)
  /\ (forall (c : Cmd) (st st' : State),
        well_owned st -> step c st = Some st' ->
        destroyed st' = destroyed st ++ must_destroy c st
        /\ well_owned st')
  /\ (forall (a : Z) (cs : list Cmd) (st : State),
        run cs (initial a) = Some st -> well_owned st).
Proof.
  split; [intros; split; reflexivity |].
  split; [intros v; repeat split |].
  split; [intros v; reflexivity |].
  split; [intros this [f p o]; repeat split |].
  split.
  - intros c st st' Hwo Hstep. split.
    + now apply step_destroys.
    + eapply step_well_owned; eassumption.
  - intros a cs st Hrun. eapply run_well_owned; [| exact Hrun].
    apply initial_well_owned.
Qed.

Example program0_runs :
  destroyed <$> run program0 (initial 1000) = Some [mkDestroyed 7 1000].
Proof. vm_compute. reflexivity. Qed.

Lemma RValue_owned_object_dies_with_its_handle_witness :
  (exists st : State,
     run program0 (initial 1000) = Some st
     /\ destroyed st = [mkDestroyed 7 1000] /\ well_owned st)
  /\ (exists st st' : State,
        run [CGenerate 0 7] (initial 1000) = Some st
        /\ step (CDestroy 0) st = Some st'
        /\ destroyed st' = destroyed st ++ [mkDestroyed 7 1000]
        /\ well_owned st').
Proof.
  split.
  - eexists. split; [vm_compute; reflexivity |].
    split; [reflexivity |].
    apply (proj2 (proj2 (proj2 (proj2 (proj2
             RValue_owned_object_dies_with_its_handle)))) 1000 program0).
    vm_compute. reflexivity.
  - eexists _, _. split; [vm_compute; reflexivity |].
    split; [vm_compute; reflexivity |].
    apply (proj1 (proj2 (proj2 (proj2 (proj2
             RValue_owned_object_dies_with_its_handle)))) (CDestroy 0)).
    + apply (proj2 (proj2 (proj2 (proj2 (proj2
               RValue_owned_object_dies_with_its_handle)))) 1000
               [CGenerate 0 7]).
      vm_compute. reflexivity.
    + vm_compute. reflexivity.
Defined.

End ValueFacts.

(** ** The bulk read of a cardinality field *)

Section CardinalityReadFacts.

Import RCardinalityField.

Lemma size_t_small (x : Z) : 0 <= x < 2 ^ 64 -> Mach.size_t x = x.
Proof. intros Hx. unfold Mach.size_t, Mach.wrap. now apply Z.mod_small. Qed.

Lemma as_SizeT_small (sz : SizeT) (x : Z) :
  0 <= x < 2 ^ bits sz -> as_SizeT sz x = x.
Proof.
  intros Hx. unfold as_SizeT, Mach.size_t, Mach.wrap.
  assert (2 ^ bits sz <= 2 ^ 64) by (destruct sz; cbn; lia).
  rewrite (Z.mod_small x (2 ^ 64)) by lia. now apply Z.mod_small.
Qed.

Lemma map_pages_spec (pages : list (list Z)) :
  forall idx : nat,
    (idx < length (concat pages))%nat ->
    exists l : list Z,
      OffsetColumn.map_pages pages idx = Some l
      /\ (0 < length l)%nat
      /\ (idx + length l <= length (concat pages))%nat
      /\ forall j : nat, (j < length l)%nat ->
           l !! j = concat pages !! (idx + j)%nat.
Proof.
  induction pages as [| page rest IH]; intros idx Hidx; cbn in *; [lia |].
  rewrite length_app in Hidx.
  destruct (decide (idx < length page)%nat) as [Hin | Hout].
  - exists (drop idx page). split; [reflexivity |].
    rewrite length_drop, length_app. split; [lia |]. split; [lia |].
    intros j Hj. rewrite lookup_drop. now rewrite lookup_app_l by lia.
  - destruct (IH (idx - length page)%nat) as (l & Hl & Hpos & Hle & Hlk);
      [lia |].
    exists l. split; [assumption |]. split; [assumption |].
    rewrite length_app. split; [lia |].
    intros j Hj. rewrite lookup_app_r by lia. rewrite Hlk by assumption.
    f_equal. lia.
Qed.

Lemma batch_spec (sz : SizeT) (offs : list Z) :
  forall (pos : nat) (lastOffset : Z) (tv : list Z),
    (pos + length offs <= length tv)%nat ->
    exists tv' : list Z,
      batch sz offs pos lastOffset tv
      = Some (tv', match length offs with
                   | O => lastOffset
                   | S m => default 0 (offs !! m)
                   end)
      /\ length tv' = length tv
      /\ (forall i : nat,
            (i < pos \/ pos + length offs <= i)%nat -> tv' !! i = tv !! i)
      /\ (forall j : nat,
            (j < length offs)%nat ->
            tv' !! (pos + j)%nat
            = Some (as_SizeT sz
                      (default 0 (offs !! j)
                       - match j with
                         | O => lastOffset
                         | S j' => default 0 (offs !! j')
                         end))).
Proof.
  induction offs as [| o rest IH]; intros pos lastOffset tv Hfit; cbn in *.
  - exists tv. split; [reflexivity |]. split; [reflexivity |].
    split; [reflexivity |]. intros j Hj. lia.
  - unfold store_at. rewrite decide_True by lia. cbn.
    destruct (IH (S pos) o (<[pos := as_SizeT sz (o - lastOffset)]> tv))
      as (tv' & Hrun & Hlen & Hout & Hin);
      [rewrite length_insert; lia |].
    exists tv'. split; [| split; [| split]].
    + rewrite Hrun. do 2 f_equal.
      destruct rest as [| o' rest']; cbn; [reflexivity |].
      reflexivity.
    + now rewrite Hlen, length_insert.
    + intros i Hi. rewrite Hout by lia.
      apply list_lookup_insert_ne. lia.
    + intros [| j'] Hj.
      * rewrite Nat.add_0_r, Hout by lia. cbn.
        apply list_lookup_insert_eq. lia.
      * replace (pos + S j')%nat with (S pos + j')%nat by lia.
        rewrite Hin by lia. cbn. destruct j'; reflexivity.
Qed.

Section Loop.

Variables (sz : SizeT) (col : OffsetColumn.t) (fFirstIndex : RClusterIndex.t).
Variable fCount : Z.

Hypothesis Hcluster :
  RClusterIndex.GetClusterId fFirstIndex = OffsetColumn.fClusterId col.
Hypothesis Hfirst : 0 <= RClusterIndex.GetIndex fFirstIndex.
Hypothesis Hrange :
  RClusterIndex.GetIndex fFirstIndex + fCount
  <= Z.of_nat (length (OffsetColumn.offsets col)).
Hypothesis Hindex : RClusterIndex.GetIndex fFirstIndex + fCount < 2 ^ 64.

Lemma MapV_spec (e : Z) :
  1 <= e < fCount ->
  exists l : list Z,
    OffsetColumn.MapV col (RClusterIndex.add fFirstIndex e) = Some l
    /\ (0 < length l)%nat
    /\ Z.of_nat (length l) <= fCount - e
       + (Z.of_nat (length (OffsetColumn.offsets col))
          - (RClusterIndex.GetIndex fFirstIndex + fCount))
    /\ forall j : nat, (j < length l)%nat ->
         default 0 (l !! j)
         = OffsetColumn.offset col
             (Z.to_nat (RClusterIndex.GetIndex fFirstIndex + e) + j).
Proof.
  intros He. unfold OffsetColumn.MapV, RClusterIndex.add. cbn.
  rewrite Hcluster, Z.eqb_refl. rewrite size_t_small by lia.
  destruct (Z.leb_spec 0 (RClusterIndex.GetIndex fFirstIndex + e)); [| lia].
  cbn.
  destruct (map_pages_spec (OffsetColumn.fPages col)
              (Z.to_nat (RClusterIndex.GetIndex fFirstIndex + e)))
    as (l & Hl & Hpos & Hle & Hlk).
  { unfold OffsetColumn.offsets in Hrange. lia. }
  exists l. split; [assumption |]. split; [assumption |].
  split; [unfold OffsetColumn.offsets; lia |].
  intros j Hj. unfold OffsetColumn.offset, OffsetColumn.offsets.
  now rewrite Hlk.
Qed.

Lemma loop_spec (fuel : nat) :
  forall (e r lastOffset : Z) (tv : list Z),
    1 <= e -> 0 <= r -> e + r = fCount -> r <= Z.of_nat fuel ->
    fCount <= Z.of_nat (length tv) ->
    lastOffset
    = OffsetColumn.offset col
        (Z.to_nat (RClusterIndex.GetIndex fFirstIndex + e - 1)) ->
    exists tv' : list Z,
      loop fuel sz col fFirstIndex lastOffset r e tv = Some tv'
      /\ length tv' = length tv
      /\ (forall k : nat,
            Z.of_nat k < e \/ fCount <= Z.of_nat k -> tv' !! k = tv !! k)
      /\ (forall k : nat,
            e <= Z.of_nat k < fCount ->
            tv' !! k
            = Some (as_SizeT sz
                      (OffsetColumn.offset col
                         (Z.to_nat (RClusterIndex.GetIndex fFirstIndex) + k)
                       - OffsetColumn.offset col
                           (Z.to_nat (RClusterIndex.GetIndex fFirstIndex)
                            + k - 1)))).
Proof.
  induction fuel as [| fuel IH]; intros e r lastOffset tv He Hr Hsum Hfuel
    Hlen Hlast; cbn [loop].
  - assert (r = 0) as -> by lia. cbn.
    exists tv. split; [reflexivity |]. split; [reflexivity |].
    split; [reflexivity |]. intros k Hk. lia.
  - destruct (Z.ltb_spec 0 r) as [Hpos | Hzero].
    2:{ exists tv. split; [reflexivity |]. split; [reflexivity |].
        split; [reflexivity |]. intros k Hk. lia. }
    destruct (MapV_spec e) as (l & Hl & Hlpos & Hlle & Hlk); [lia |].
    rewrite Hl. cbn.
    set (nBatch := Z.min r (Z.of_nat (length l))).
    assert (HnBatch : 1 <= nBatch <= r) by lia.
    assert (Htake : length (take (Z.to_nat nBatch) l) = Z.to_nat nBatch).
    { rewrite length_take. lia. }
    destruct (batch_spec sz (take (Z.to_nat nBatch) l) (Z.to_nat e)
                lastOffset tv) as (tv1 & Hrun & Hlen1 & Hout1 & Hin1);
      [lia |].
    rewrite Hrun. cbn. rewrite Htake.
    rewrite !size_t_small by lia.
    destruct (IH (e + nBatch) (r - nBatch)
                (match Z.to_nat nBatch with
                 | O => lastOffset
                 | S m => default 0 (take (Z.to_nat nBatch) l !! m)
                 end) tv1) as (tv' & Hloop & Hlen' & Hout' & Hin');
      try lia.
    { destruct (Z.to_nat nBatch) as [| m] eqn:Hm; [lia |].
      rewrite lookup_take_lt by lia. rewrite Hlk by lia.
      f_equal. lia. }
    exists tv'. split; [assumption |]. split; [lia |]. split.
    + intros k Hk. rewrite Hout' by lia. apply Hout1. lia.
    + intros k Hk.
      destruct (Z.lt_ge_cases (Z.of_nat k) (e + nBatch)) as [Hlow | Hhigh].
      * rewrite Hout' by lia.
        replace k with (Z.to_nat e + (k - Z.to_nat e))%nat at 1 by lia.
        rewrite Hin1 by lia. do 2 f_equal.
        rewrite lookup_take_lt by lia. rewrite Hlk by lia.
        replace (Z.to_nat (RClusterIndex.GetIndex fFirstIndex + e)
                 + (k - Z.to_nat e))%nat
          with (Z.to_nat (RClusterIndex.GetIndex fFirstIndex) + k)%nat
          by lia.
        f_equal.
        destruct (k - Z.to_nat e)%nat as [| j'] eqn:Hj.
        -- rewrite Hlast. f_equal. lia.
        -- rewrite lookup_take_lt by lia. rewrite Hlk by lia.
           f_equal. lia.
      * now apply Hin'.
Qed.

End Loop.

Lemma map_pages_rest (pages : list (list Z)) :
  forall idx : nat,
    (idx < length (concat pages))%nat ->
    exists (pre : list (list Z)) (page : list Z) (post : list (list Z)),
      pages = pre ++ page :: post
      /\ (length (concat pre) <= idx < length (concat pre) + length page)%nat
      /\ OffsetColumn.map_pages pages idx
         = Some (drop (idx - length (concat pre)) page).
Proof.
  induction pages as [| page rest IH]; intros idx Hidx; cbn in *; [lia |].
  rewrite length_app in Hidx.
  destruct (decide (idx < length page)%nat) as [Hin | Hout].
  - exists [], page, rest. cbn. split; [reflexivity |]. split; [lia |].
    now rewrite Nat.sub_0_r.
  - destruct (IH (idx - length page)%nat) as (pre & pg & post & -> & Hpg & Hl);
      [lia |].
    exists (page :: pre), pg, post. cbn. rewrite length_app.
    split; [reflexivity |]. split; [lia |].
    rewrite Hl. do 2 f_equal. lia.
Qed.

(** One turn of the loop at entry [e] of the range. *)
Lemma loop_turn (sz : SizeT) (col : OffsetColumn.t)
    (fFirstIndex : RClusterIndex.t) (fCount e : Z) (l : list Z) :
  1 <= e < fCount -> fCount < 2 ^ 64 ->
  OffsetColumn.MapV col (RClusterIndex.add fFirstIndex e) = Some l ->
  forall (fuel : nat) (lastOffset : Z) (tv : list Z),
    loop (S fuel) sz col fFirstIndex lastOffset (fCount - e) e tv
    = (r ← batch sz
             (take (Z.to_nat (Z.min (fCount - e) (Z.of_nat (length l)))) l)
             (Z.to_nat e) lastOffset tv;
       loop fuel sz col fFirstIndex r.2
         (fCount - e - Z.min (fCount - e) (Z.of_nat (length l)))
         (e + Z.min (fCount - e) (Z.of_nat (length l))) r.1).
Proof.
  intros He Hfit Hmap fuel lastOffset tv. cbn [loop].
  destruct (Z.ltb_spec 0 (fCount - e)); [| lia].
  rewrite Hmap. cbn [mbind option_bind].
  destruct (batch sz _ (Z.to_nat e) lastOffset tv) as [r |];
    [| reflexivity].
  cbn [mbind option_bind]. now rewrite !size_t_small by lia.
Qed.

(** C6, as amended: for a range of [fCount >= 1] entries inside the cluster
    of the column, with a destination of at least [fCount] values, the bulk
    read of a cardinality field returns (a bound of [fCount - 1] turns of
    the page loop is enough), the value it returns is [kAllSet], entry 0 of
    the destination holds the collection size of the entry at
    [fFirstIndex], every entry [0 < k < fCount] holds the offset of entry
    [k] minus the offset of entry [k - 1], both converted to [SizeT] (the
    identity on what [SizeT] can hold, a reduction modulo [2^32] or [2^64]
    otherwise), and the destination beyond [fCount] is untouched; the
    entries after the first are handled page by page: the turn of the loop
    at entry [e] maps the offsets from that entry to the end of its page
    and handles as many of them as the range still wants, then goes on
    behind them. *)
Theorem ReadBulkImpl_cardinality_fills_sizes (fuel : nat) (sz : SizeT)
    (col : OffsetColumn.t) (fFirstIndex : RClusterIndex.t) (fCount : Z)
    (typedValues : list Z) :
  RClusterIndex.GetClusterId fFirstIndex = OffsetColumn.fClusterId col ->
  0 <= RClusterIndex.GetIndex fFirstIndex ->
  1 <= fCount ->
  RClusterIndex.GetIndex fFirstIndex + fCount
  <= Z.of_nat (length (OffsetColumn.offsets col)) ->
  RClusterIndex.GetIndex fFirstIndex + fCount < 2 ^ 64 ->
  Forall (fun o => 0 <= o < 2 ^ 64) (OffsetColumn.offsets col) ->
  fCount <= Z.of_nat (length typedValues) ->
  fCount - 1 <= Z.of_nat fuel ->
  exists (collectionStart : RClusterIndex.t) (collectionSize : Z)
         (typedValues' : list Z),
    OffsetColumn.GetCollectionInfo col fFirstIndex
    = Some (collectionStart, collectionSize)
    /\ ReadBulkImpl fuel sz col fFirstIndex fCount typedValues
       = Some (RFieldBase.kAllSet, typedValues')
    /\ RFieldBase.kAllSet = 2 ^ 64 - 1
    /\ typedValues' !! 0%nat = Some (as_SizeT sz collectionSize)
    /\ (forall k : nat,
          0 < Z.of_nat k < fCount ->
          typedValues' !! k
          = Some (as_SizeT sz
                    (OffsetColumn.offset col
                       (Z.to_nat (RClusterIndex.GetIndex fFirstIndex) + k)
                     - OffsetColumn.offset col
                         (Z.to_nat (RClusterIndex.GetIndex fFirstIndex)
                          + k - 1))))
    /\ (forall k : nat,
          fCount <= Z.of_nat k -> typedValues' !! k = typedValues !! k)
    /\ length typedValues' = length typedValues
    /\ (forall x : Z, 0 <= x < 2 ^ bits sz -> as_SizeT sz x = x)
    /\ (forall e : Z,
          1 <= e < fCount ->
          exists (pre : list (list Z)) (page : list Z)
                 (post : list (list Z)) (rest_of_page : list Z),
            OffsetColumn.fPages col = pre ++ page :: post
            /\ Z.of_nat (length (concat pre))
               <= RClusterIndex.GetIndex fFirstIndex + e
               < Z.of_nat (length (concat pre)) + Z.of_nat (length page)
            /\ rest_of_page
               = drop (Z.to_nat (RClusterIndex.GetIndex fFirstIndex + e)
                       - length (concat pre)) page
            /\ OffsetColumn.MapV col (RClusterIndex.add fFirstIndex e)
               = Some rest_of_page
            /\ forall (fuel' : nat) (lastOffset : Z) (tv : list Z),
                 loop (S fuel') sz col fFirstIndex lastOffset (fCount - e) e
                   tv
                 = (r ← batch sz
                          (take
                             (Z.to_nat
                                (Z.min (fCount - e)
                                   (Z.of_nat (length rest_of_page))))
                             rest_of_page)
                          (Z.to_nat e) lastOffset tv;
                    loop fuel' sz col fFirstIndex r.2
                      (fCount - e
                       - Z.min (fCount - e) (Z.of_nat (length rest_of_page)))
                      (e + Z.min (fCount - e)
                             (Z.of_nat (length rest_of_page)))
                      r.1)).
Proof.
  intros Hcluster Hfirst Hcount Hrange Hindex Hbound Hlen Hfuel.
  assert (Hpages :
    forall e : Z,
      1 <= e < fCount ->
      exists (pre : list (list Z)) (page : list Z) (post : list (list Z))
             (rest_of_page : list Z),
        OffsetColumn.fPages col = pre ++ page :: post
        /\ Z.of_nat (length (concat pre))
           <= RClusterIndex.GetIndex fFirstIndex + e
           < Z.of_nat (length (concat pre)) + Z.of_nat (length page)
        /\ rest_of_page
           = drop (Z.to_nat (RClusterIndex.GetIndex fFirstIndex + e)
                   - length (concat pre)) page
        /\ OffsetColumn.MapV col (RClusterIndex.add fFirstIndex e)
           = Some rest_of_page).
  { intros e He.
    destruct (map_pages_rest (OffsetColumn.fPages col)
                (Z.to_nat (RClusterIndex.GetIndex fFirstIndex + e)))
      as (pre & page & post & Hsplit & Hin & Hmap).
    { unfold OffsetColumn.offsets in Hrange. lia. }
    eexists pre, page, post, _. split; [exact Hsplit |]. split; [lia |].
    split; [reflexivity |].
    unfold OffsetColumn.MapV, RClusterIndex.add.
    cbn [RClusterIndex.GetClusterId RClusterIndex.GetIndex].
    rewrite Hcluster, Z.eqb_refl. rewrite size_t_small by lia.
    destruct (Z.leb_spec 0 (RClusterIndex.GetIndex fFirstIndex + e));
      [| lia].
    exact Hmap. }
  unfold ReadBulkImpl, OffsetColumn.GetCollectionInfo.
  rewrite Hcluster, Z.eqb_refl.
  destruct (Z.leb_spec 0 (RClusterIndex.GetIndex fFirstIndex)); [| lia].
  cbn [andb].
  destruct (OffsetColumn.offsets col
              !! Z.to_nat (RClusterIndex.GetIndex fFirstIndex))
    as [idxEnd |] eqn:Hend.
  2:{ apply lookup_ge_None in Hend. lia. }
  cbn [mbind option_bind fst snd].
  set (idxStart :=
         match Z.to_nat (RClusterIndex.GetIndex fFirstIndex) with
         | O => 0
         | S j => OffsetColumn.offset col j
         end).
  assert (HendB : 0 <= idxEnd < 2 ^ 64).
  { rewrite Forall_forall in Hbound. apply Hbound.
    eapply list_elem_of_lookup_2; eassumption. }
  assert (Hlast :
    Mach.size_t (idxStart + Mach.size_t (idxEnd - idxStart))
    = OffsetColumn.offset col
        (Z.to_nat (RClusterIndex.GetIndex fFirstIndex + 1 - 1))).
  { unfold Mach.size_t, Mach.wrap. rewrite Zplus_mod_idemp_r.
    replace (idxStart + (idxEnd - idxStart)) with idxEnd by lia.
    rewrite Z.mod_small by assumption.
    unfold OffsetColumn.offset.
    replace (RClusterIndex.GetIndex fFirstIndex + 1 - 1)
      with (RClusterIndex.GetIndex fFirstIndex) by lia.
    now rewrite Hend. }
  unfold store_at. rewrite decide_True by lia.
  cbn [mbind option_bind RClusterIndex.GetIndex].
  rewrite (size_t_small (fCount - 1)) by lia.
  destruct (loop_spec sz col fFirstIndex fCount Hcluster Hfirst Hrange
              Hindex fuel 1 (fCount - 1)
              (Mach.size_t (idxStart + Mach.size_t (idxEnd - idxStart)))
              (<[0%nat := as_SizeT sz (Mach.size_t (idxEnd - idxStart))]>
                 typedValues))
    as (tv' & Hloop & Hlen' & Hout & Hin); try lia.
  { rewrite length_insert. lia. }
  rewrite Hloop. cbn [mbind option_bind].
  eexists _, _, tv'. split; [reflexivity |]. split; [reflexivity |].
  split; [reflexivity |]. split; [| split; [| split; [| split; [| split]]]].
  - rewrite Hout by lia. apply list_lookup_insert_eq. lia.
  - intros k Hk. apply Hin. lia.
  - intros k Hk. rewrite Hout by lia.
    apply list_lookup_insert_ne. lia.
  - now rewrite Hlen', length_insert.
  - apply as_SizeT_small.
  - intros e He.
    destruct (Hpages e He) as (pre & page & post & l & Hsplit & Hpage & Hl
                               & Hmap).
    exists pre, page, post, l. split; [exact Hsplit |].
    split; [exact Hpage |]. split; [exact Hl |]. split; [exact Hmap |].
    apply loop_turn; [exact He | lia | exact Hmap].
Qed.

Lemma ReadBulkImpl_cardinality_fills_sizes_witness :
  exists (collectionStart : RClusterIndex.t) (collectionSize : Z)
         (typedValues' : list Z),
    OffsetColumn.GetCollectionInfo column0 (RClusterIndex.mk 0 1)
    = Some (collectionStart, collectionSize)
    /\ ReadBulkImpl 4 UInt32 column0 (RClusterIndex.mk 0 1) 5
         [0; 0; 0; 0; 0; 77]
       = Some (RFieldBase.kAllSet, typedValues')
    /\ typedValues' !! 0%nat = Some (as_SizeT UInt32 collectionSize)
    /\ typedValues' !! 4%nat = Some 3
    /\ typedValues' !! 5%nat = Some 77.
Proof.
  destruct (ReadBulkImpl_cardinality_fills_sizes 4 UInt32 column0
              (RClusterIndex.mk 0 1) 5 [0; 0; 0; 0; 0; 77])
    as (start & size & tv' & Hinfo & Hrun & _ & H0 & Hk & Hrest & _ & _).
  - reflexivity.
  - cbn. lia.
  - lia.
  - cbn. lia.
  - cbn. lia.
  - repeat constructor; lia.
  - cbn. lia.
  - lia.
  - exists start, size, tv'.
    split; [exact Hinfo |]. split; [exact Hrun |]. split; [exact H0 |].
    split.
    + rewrite (Hk 4%nat) by lia. reflexivity.
    + rewrite (Hrest 5%nat) by lia. reflexivity.
Defined.

(** C6, as stated, fails for a 32-bit [SizeT]: the two entries of
    [column_wide] have collections of [2^32 + 5] and [2^32] items, the range
    lies inside the cluster and the destination has room, and the bulk read
    stores 5 and 0, the sizes reduced modulo [2^32]. *)
Lemma ReadBulkImpl_uint32_truncates_sizes :
  OffsetColumn.GetCollectionInfo column_wide (RClusterIndex.mk 0 0)
  = Some (RClusterIndex.mk 0 0, 4294967301)
  /\ OffsetColumn.offset column_wide 1 - OffsetColumn.offset column_wide 0
     = 4294967296
  /\ ReadBulkImpl 1 UInt32 column_wide (RClusterIndex.mk 0 0) 2 [0; 0]
     = Some (RFieldBase.kAllSet, [5; 0])
  /\ ReadBulkImpl 1 UInt32 column_wide (RClusterIndex.mk 0 0) 2 [0; 0]
     <> Some (RFieldBase.kAllSet, [4294967301; 4294967296]).
Proof.
  split; [reflexivity |]. split; [reflexivity |].
  split; [vm_compute; reflexivity |].
  vm_compute. intros Heq. discriminate Heq.
Qed.

Example ReadBulkImpl_runs :
  ReadBulkImpl 5 UInt32 column0 (RClusterIndex.mk 0 1) 5 [0; 0; 0; 0; 0; 77]
  = Some (18446744073709551615, [0; 1; 2; 0; 3; 77]).
Proof. vm_compute. reflexivity. Qed.

(** Four entries after the first are served in two turns of the loop, one
    per page touched; one turn is not enough. *)
Example ReadBulkImpl_two_pages_two_turns :
  ReadBulkImpl 2 UInt32 column0 (RClusterIndex.mk 0 1) 5 [0; 0; 0; 0; 0; 77]
  = Some (18446744073709551615, [0; 1; 2; 0; 3; 77])
  /\ ReadBulkImpl 1 UInt32 column0 (RClusterIndex.mk 0 1) 5
       [0; 0; 0; 0; 0; 77]
     = None.
Proof. split; vm_compute; reflexivity. Qed.

Example ReadBulkImpl_at_cluster_start :
  ReadBulkImpl 6 UInt64 column0 (RClusterIndex.mk 0 0) 6 [0; 0; 0; 0; 0; 0]
  = Some (18446744073709551615, [3; 0; 1; 2; 0; 3]).
Proof. vm_compute. reflexivity. Qed.

End CardinalityReadFacts.

(** ** The schema iterator *)

Section SchemaIteratorFacts.

Import SchemaIterator.

Lemma Field_ind_forall (P : Field -> Prop) :
  (forall (name : string) (cs : list Field),
     Forall P cs -> P (mkField name cs)) ->
  forall u : Field, P u.
Proof.
  intros Hnode. fix IH 1. intros [name cs]. apply Hnode.
  revert cs. fix IHcs 1. intros [| c cs].
  - constructor.
  - constructor; [apply IH | apply IHcs].
Qed.

Lemma preorder_unfold (name : string) (cs : list Field) (ptr : FieldPtr) :
  preorder (mkField name cs) ptr = ptr :: preorder_forest cs ptr 0.
Proof.
  cbn. f_equal. generalize 0%nat.
  induction cs as [| c cs IH]; intros i; cbn; [reflexivity |].
  now rewrite IH.
Qed.

Lemma size_unfold (name : string) (cs : list Field) :
  size (mkField name cs) = S (size_forest cs).
Proof. reflexivity. Qed.

Lemma fits_int_unfold (name : string) (cs : list Field) :
  fits_int (mkField name cs)
  <-> Z.of_nat (length cs) < 2 ^ 31 /\ Forall fits_int cs.
Proof.
  cbn [fits_int].
  assert (Hall :
    (fix all (cs0 : list Field) : Prop :=
       match cs0 with
       | [] => True
       | c :: cs' => fits_int c /\ all cs'
       end) cs <-> Forall fits_int cs).
  { induction cs as [| c cs IH]; cbn.
    - split; [constructor | trivial].
    - rewrite IH. split.
      + intros [Hc Hcs]. now constructor.
      + intros Hall. inversion Hall; subst. now split. }
  now rewrite Hall.
Qed.

Lemma climb_unfold (root : Field) (top : Position) (rest : list Position) :
  climb root top rest
  = (parent ← fParent (fFieldPtr top);
     u ← deref root parent;
     if Z.of_nat (length (fSubFields u))
        <=? Mach.uint (fIdxInParent top + 1)
     then match rest with
          | [] => Some [mkPosition parent (-1)]
          | top' :: rest' => climb root top' rest'
          end
     else Some (mkPosition
                  (Z.to_nat (Mach.uint (fIdxInParent top + 1)) :: parent)
                  (fIdxInParent top + 1) :: rest)).
Proof. destruct rest; reflexivity. Qed.

Lemma uint_small (x : Z) : 0 <= x < 2 ^ 32 -> Mach.uint x = x.
Proof. intros Hx. unfold Mach.uint, Mach.wrap. now apply Z.mod_small. Qed.

(** What is under the iterator once the subfields of the field at [parent]
    are done, [s] being the stack under the position of those subfields. *)
Lemma climb_sibling (root : Field) (parent : FieldPtr) (name : string)
    (cs : list Field) (j : nat) (s : list Position) :
  deref root parent = Some (mkField name cs) ->
  Z.of_nat (length cs) < 2 ^ 31 -> (j < length cs)%nat ->
  climb root (mkPosition (j :: parent) (Z.of_nat j)) s
  = if decide (S j < length cs)%nat
    then Some (mkPosition (S j :: parent) (Z.of_nat (S j)) :: s)
    else match s with
         | [] => Some [mkPosition parent (-1)]
         | top' :: rest' => climb root top' rest'
         end.
Proof.
  intros Hderef Hfit Hj. rewrite climb_unfold.
  cbn [fParent fFieldPtr fIdxInParent mbind option_bind].
  rewrite Hderef. cbn [mbind option_bind fSubFields].
  rewrite uint_small by lia.
  destruct (decide (S j < length cs)%nat) as [Hmore | Hlast].
  - destruct (Z.leb_spec (Z.of_nat (length cs)) (Z.of_nat j + 1)); [lia |].
    replace (Z.to_nat (Z.of_nat j + 1)) with (S j) by lia.
    replace (Z.of_nat j + 1) with (Z.of_nat (S j)) by lia.
    reflexivity.
  - destruct (Z.leb_spec (Z.of_nat (length cs)) (Z.of_nat j + 1)); [| lia].
    reflexivity.
Qed.

Lemma fmap_app_compose (a b : list FieldPtr) (x : option (list FieldPtr)) :
  (fun v => a ++ v) <$> ((fun v => b ++ v) <$> x)
  = (fun v => (a ++ b) ++ v) <$> x.
Proof. destruct x; cbn; [now rewrite app_assoc | reflexivity]. Qed.

Lemma forest_traversed (root : Field) (parent : FieldPtr) (name : string)
    (cs : list Field) (s : list Position) (it' : iterator) :
  deref root parent = Some (mkField name cs) ->
  Z.of_nat (length cs) < 2 ^ 31 ->
  match s with
  | [] => Some [mkPosition parent (-1)]
  | top' :: rest' => climb root top' rest'
  end = Some it' ->
  forall (suffix pre : list Field) (fuel : nat),
    Forall (subtree_traversed root) suffix -> Forall fits_int suffix ->
    cs = pre ++ suffix -> suffix <> [] ->
    traverse (size_forest suffix + fuel) root
      (mkPosition (length pre :: parent) (Z.of_nat (length pre)) :: s)
    = (fun v => preorder_forest suffix parent (length pre) ++ v)
        <$> traverse fuel root it'.
Proof.
  intros Hderef Hfit Hafter suffix.
  induction suffix as [| c suffix IH]; intros pre fuel HP Hfits Hcs Hne;
    [congruence |].
  inversion HP as [| ? ? HPc HPrest]; subst.
  inversion Hfits as [| ? ? Hfc Hfrest]; subst.
  cbn [size_forest preorder_forest].
  assert (Hchild :
    deref root (length pre :: parent) = Some c).
  { cbn. rewrite Hderef. cbn. apply list_lookup_middle. reflexivity. }
  pose proof (climb_sibling root parent name (pre ++ c :: suffix)
                (length pre) s Hderef Hfit) as Hclimb.
  rewrite length_app in Hclimb.
  destruct suffix as [| c' suffix']; cbn [length] in Hclimb;
    specialize (Hclimb ltac:(lia)).
  - rewrite decide_False in Hclimb by lia.
    cbn [size_forest preorder_forest]. rewrite Nat.add_0_r, app_nil_r.
    apply HPc; [assumption | assumption | discriminate |].
    rewrite Hclimb. exact Hafter.
  - rewrite decide_True in Hclimb by lia.
    rewrite <- Nat.add_assoc.
    rewrite (HPc Hfc _ _ _ _ _ Hchild ltac:(discriminate) Hclimb).
    specialize (IH (pre ++ [c]) fuel HPrest Hfrest).
    rewrite length_app in IH. cbn [length] in IH.
    rewrite Nat.add_1_r in IH.
    rewrite IH; [| now rewrite <- app_assoc | discriminate].
    apply fmap_app_compose.
Qed.

Lemma subtree_traversed_all (root : Field) :
  forall u : Field, subtree_traversed root u.
Proof.
  induction u as [name cs HPcs] using Field_ind_forall.
  intros Hfit ptr idx s it' fuel Hderef Hne Hclimb.
  apply fits_int_unfold in Hfit as [Hlen Hfits].
  rewrite size_unfold, preorder_unfold. cbn [Nat.add traverse].
  unfold iterator_eqb, end_. cbn [current fFieldPtr].
  rewrite bool_decide_false by congruence.
  cbn [mbind option_bind Advance fFieldPtr]. rewrite Hderef.
  cbn [mbind option_bind fSubFields].
  destruct cs as [| c cs'].
  - cbn [bool_decide negb size_forest preorder_forest Nat.add].
    rewrite bool_decide_true by reflexivity. cbn [negb].
    rewrite Hclimb. cbn [mbind option_bind].
    destruct (traverse fuel root it'); reflexivity.
  - rewrite bool_decide_false by discriminate. cbn [negb mbind option_bind].
    pose proof (forest_traversed root ptr name (c :: cs')
                  (mkPosition ptr idx :: s) it' Hderef Hlen Hclimb
                  (c :: cs') [] fuel HPcs Hfits eq_refl ltac:(discriminate))
      as Hforest.
    cbn [length] in Hforest. change (Z.of_nat 0) with 0 in Hforest.
    rewrite Hforest.
    destruct (traverse fuel root it'); reflexivity.
Qed.

Lemma deref_app (root : Field) (q ptr : FieldPtr) :
  deref root (q ++ ptr) = deref root ptr ≫= fun u => deref u q.
Proof.
  induction q as [| i q IH]; cbn.
  - destruct (deref root ptr); reflexivity.
  - rewrite IH. destruct (deref root ptr); reflexivity.
Qed.

Lemma preorder_forest_elem (cs : list Field) :
  Forall preorder_lists_subtree cs ->
  forall (parent ptr' : FieldPtr) (i : nat),
    ptr' ∈ preorder_forest cs parent i
    <-> exists (q : FieldPtr) (j : nat) (c : Field),
          cs !! j = Some c /\ ptr' = q ++ (i + j)%nat :: parent
          /\ is_Some (deref c q).
Proof.
  induction 1 as [| c cs Hc Hcs IH]; intros parent ptr' i; cbn.
  - split; [intros Hin; inversion Hin |].
    intros (q & j & c & Hj & _). rewrite lookup_nil in Hj. discriminate.
  - rewrite elem_of_app, IH, (Hc (i :: parent) ptr'). split.
    + intros [(q & -> & Hq) | (q & j & c' & Hj & -> & Hq)].
      * exists q, 0%nat, c. rewrite Nat.add_0_r. auto.
      * exists q, (S j), c'. cbn. repeat split; [assumption | | assumption].
        do 2 f_equal. lia.
    + intros (q & [| j] & c' & Hj & -> & Hq); cbn in Hj.
      * injection Hj as <-. left. exists q. rewrite Nat.add_0_r. auto.
      * right. exists q, j, c'. repeat split; [assumption | | assumption].
        do 2 f_equal. lia.
Qed.

Lemma preorder_elem : forall u : Field, preorder_lists_subtree u.
Proof.
  induction u as [name cs Hcs] using Field_ind_forall.
  intros ptr ptr'. rewrite preorder_unfold, elem_of_cons.
  rewrite (preorder_forest_elem cs Hcs). split.
  - intros [-> | (q & j & c & Hj & -> & Hq)].
    + exists []. split; [reflexivity |]. cbn. eauto.
    + exists (q ++ [j]). split; [now rewrite <- app_assoc |].
      rewrite deref_app. cbn. rewrite Hj. exact Hq.
  - intros (q & -> & Hq).
    destruct q as [| i q _] using rev_ind; [now left |]. right.
    rewrite deref_app in Hq. cbn in Hq.
    destruct (cs !! i) as [c |] eqn:Hi; [| destruct Hq; discriminate].
    exists q, i, c. cbn in Hq. rewrite <- app_assoc. auto.
Qed.

Lemma preorder_forest_NoDup (cs : list Field) :
  Forall (fun c => forall ptr, NoDup (preorder c ptr)) cs ->
  forall (parent : FieldPtr) (i : nat),
    NoDup (preorder_forest cs parent i).
Proof.
  induction 1 as [| c cs Hc Hcs IH]; intros parent i; cbn.
  - apply NoDup_nil_2.
  - apply NoDup_app. split; [apply Hc |]. split; [| apply IH].
    intros ptr' Hin Hin'.
    apply preorder_elem in Hin as (q & -> & _).
    apply preorder_forest_elem in Hin' as (q' & j & c' & _ & Heq & _);
      [| apply Forall_forall; intros; apply preorder_elem].
    change (q ++ i :: parent) with (q ++ [i] ++ parent) in Heq.
    change (q' ++ (S i + j)%nat :: parent)
      with (q' ++ [(S i + j)%nat] ++ parent) in Heq.
    rewrite !app_assoc in Heq. apply app_inv_tail in Heq.
    apply app_inj_tail in Heq as [_ Heq]. lia.
Qed.

Lemma preorder_NoDup : forall (u : Field) (ptr : FieldPtr),
  NoDup (preorder u ptr).
Proof.
  induction u as [name cs Hcs] using Field_ind_forall.
  intros ptr. rewrite preorder_unfold. apply NoDup_cons. split.
  - intros Hin.
    apply preorder_forest_elem in Hin as (q & j & c & _ & Heq & _);
      [| apply Forall_forall; intros; apply preorder_elem].
    apply (f_equal length) in Heq. rewrite length_app in Heq. cbn in Heq.
    lia.
  - now apply preorder_forest_NoDup.
Qed.

(** C5, as amended: on a tree whose fields have fewer subfields than an
    [int] can count, the loop from [begin()] to [end()] ends (as many turns
    as there are fields below the root are enough) and visits the fields
    below the root, and only them, each exactly once, in depth-first
    pre-order: the fields of the tree in pre-order are the root followed by
    the fields visited.  The root itself is never visited; it is what the
    end iterator points to, with [-1] as its index in the parent. *)
Theorem schema_iterator_visits_fields_below_root (root : Field)
    (fuel : nat) :
  fits_int root -> (size root - 1 <= fuel)%nat ->
  exists visited : list FieldPtr,
    traverse fuel root (begin_ root) = Some visited
    /\ preorder root [] = [] :: visited
    /\ NoDup visited
    /\ (forall ptr : FieldPtr,
          ptr ∈ visited <-> ptr <> [] /\ is_Some (deref root ptr))
    /\ end_ root = [mkPosition [] (-1)]
    /\ deref root [] = Some root.
Proof.
  intros Hfit Hfuel. destruct root as [name cs].
  exists (preorder_forest cs [] 0).
  pose proof (preorder_NoDup (mkField name cs) []) as Hnodup.
  rewrite preorder_unfold in Hnodup. apply NoDup_cons in Hnodup as [Hroot Hnd].
  split; [| split; [apply preorder_unfold | split; [exact Hnd | split]]].
  - rewrite size_unfold in Hfuel.
    apply fits_int_unfold in Hfit as [Hlen Hfits].
    destruct cs as [| c cs'].
    + destruct fuel; reflexivity.
    + unfold begin_. cbn [fSubFields].
      rewrite bool_decide_false by discriminate.
      replace fuel
        with (size_forest (c :: cs') + (fuel - size_forest (c :: cs')))%nat
        by lia.
      pose proof (forest_traversed (mkField name (c :: cs')) [] name
                    (c :: cs') [] [mkPosition [] (-1)] eq_refl Hlen eq_refl
                    (c :: cs') [] (fuel - size_forest (c :: cs'))%nat)
        as Hforest.
      cbn [length] in Hforest. change (Z.of_nat 0) with 0 in Hforest.
      rewrite Hforest;
        [| apply Forall_forall; intros; apply subtree_traversed_all
         | assumption | reflexivity | discriminate].
      assert (Hend : traverse (fuel - size_forest (c :: cs'))
                       (mkField name (c :: cs')) [mkPosition [] (-1)]
                     = Some []).
      { destruct (fuel - size_forest (c :: cs'))%nat; cbn [traverse];
          unfold iterator_eqb; now rewrite bool_decide_true by reflexivity. }
      rewrite Hend. cbn. now rewrite app_nil_r.
  - intros ptr. split.
    + intros Hin. split; [intros ->; contradiction |].
      assert (Hin' : ptr ∈ preorder (mkField name cs) []).
      { rewrite preorder_unfold. now apply list_elem_of_further. }
      apply preorder_elem in Hin' as (q & -> & Hq).
      now rewrite app_nil_r.
    + intros [Hne Hvalid].
      assert (Hin : ptr ∈ preorder (mkField name cs) []).
      { apply preorder_elem. exists ptr. now rewrite app_nil_r. }
      rewrite preorder_unfold in Hin. apply elem_of_cons in Hin as [-> | Hin];
        [contradiction | assumption].
  - split; reflexivity.
Qed.

Example traverse_tree0 :
  traverse 5 tree0 (begin_ tree0)
  = Some [[0]; [1]; [0; 1]; [1; 1]; [2]]%nat.
Proof. vm_compute. reflexivity. Qed.

Example preorder_tree0 :
  preorder tree0 [] = [[]; [0]; [1]; [0; 1]; [1; 1]; [2]]%nat.
Proof. reflexivity. Qed.

Example traverse_single :
  traverse 0 single (begin_ single) = Some [].
Proof. reflexivity. Qed.

Lemma schema_iterator_visits_fields_below_root_witness :
  exists visited : list FieldPtr,
    traverse 5 tree0 (begin_ tree0) = Some visited
    /\ preorder tree0 [] = [] :: visited
    /\ NoDup visited.
Proof.
  destruct (schema_iterator_visits_fields_below_root tree0 5)
    as (visited & Hrun & Hpre & Hnd & _).
  - cbn. repeat split; lia.
  - cbn. lia.
  - exists visited. auto.
Defined.

(** C5, as stated, fails: the root is a field of the tree and the loop
    from [begin()] to [end()] never visits it.  On a tree that is a single
    field nothing is visited at all; on [tree0] five of the six fields
    are. *)
Lemma schema_iterator_never_visits_root :
  (deref single [] = Some single
   /\ traverse 1 single (begin_ single) = Some []
   /\ preorder single [] = [[]])
  /\ (traverse 5 tree0 (begin_ tree0)
      = Some [[0]; [1]; [0; 1]; [1; 1]; [2]]%nat
      /\ preorder tree0 [] = [[]; [0]; [1]; [0; 1]; [1; 1]; [2]]%nat
      /\ size tree0 = 6%nat).
Proof. repeat split. Qed.

End SchemaIteratorFacts.

(** ** Vectors: offsets and the round trip *)

Section RVecFacts.

Import RRVecField.

Lemma to_int_small (x : Z) : 0 <= x < 2 ^ 31 -> to_int x = x.
Proof. intros Hx. unfold to_int. rewrite Z.mod_small by lia. lia. Qed.

Lemma append_items_spec (ps : Z) (items : list Z) :
  forall (nbytes : Z) (column : list Z),
    (append_items ps items nbytes column).2 = column ++ items
    /\ (0 <= ps -> 0 <= nbytes ->
        nbytes + Z.of_nat (length items) * ps < 2 ^ 31 ->
        (append_items ps items nbytes column).1
        = nbytes + Z.of_nat (length items) * ps).
Proof.
  induction items as [| x rest IH]; intros nbytes column; cbn [append_items].
  - split; [now rewrite app_nil_r | intros; cbn; lia].
  - destruct (IH (to_int (Mach.size_t (nbytes + ps))) (column ++ [x]))
      as [Hcol Hbytes].
    split; [now rewrite Hcol, <- app_assoc |].
    intros Hps Hnb Hfit. cbn [length] in Hfit.
    assert (Hstep : to_int (Mach.size_t (nbytes + ps)) = nbytes + ps).
    { rewrite size_t_small by nia. apply to_int_small. nia. }
    rewrite Hstep in Hbytes. rewrite Hstep. rewrite Hbytes by nia.
    cbn [length]. lia.
Qed.

Lemma offsets_append_offset (c : OffsetColumn.t) (v : Z) :
  OffsetColumn.offsets (append_offset c v) = OffsetColumn.offsets c ++ [v].
Proof.
  unfold OffsetColumn.offsets, append_offset. cbn.
  rewrite concat_app. cbn. reflexivity.
Qed.

Lemma total_cons (v : list Z) (entries : list (list Z)) :
  total (v :: entries) = Z.of_nat (length v) + total entries.
Proof. unfold total. cbn. rewrite length_app. lia. Qed.

Lemma total_nonneg (entries : list (list Z)) : 0 <= total entries.
Proof. unfold total. lia. Qed.

Lemma append_all_spec (entries : list (list Z)) :
  forall f : t,
    Forall (fun v => Z.of_nat (length v) < 2 ^ 32) entries ->
    0 <= fNWritten f -> fNWritten f + total entries < 2 ^ 64 ->
    exists f' : t,
      append_all f entries = Some f'
      /\ fNWritten f' = fNWritten f + total entries
      /\ OffsetColumn.offsets (fOffsetColumn f')
         = OffsetColumn.offsets (fOffsetColumn f)
           ++ running_totals (fNWritten f) entries
      /\ fItemColumn f' = fItemColumn f ++ concat entries
      /\ OffsetColumn.fClusterId (fOffsetColumn f')
         = OffsetColumn.fClusterId (fOffsetColumn f).
Proof.
  induction entries as [| v rest IH]; intros f Hsmall Hpos Hfit.
  - exists f. cbn. unfold total. cbn. rewrite !app_nil_r.
    repeat split; lia.
  - inversion Hsmall as [| ? ? Hv Hrest]; subst.
    rewrite total_cons in Hfit. pose proof (total_nonneg rest) as Hrestpos.
    cbn [append_all]. unfold AppendImpl.
    destruct (Z.leb_spec (2 ^ 32) (Z.of_nat (length v))); [lia |].
    cbn [mbind option_bind snd].
    rewrite (size_t_small (fNWritten f + Z.of_nat (length v))) by lia.
    destruct (IH (mk (fNWritten f + Z.of_nat (length v))
                    (append_offset (fOffsetColumn f)
                       (fNWritten f + Z.of_nat (length v)))
                    (append_items (fItemPackedSize f) v 0 (fItemColumn f)).2
                    (fItemPackedSize f) (fOffsetPackedSize f)))
      as (f' & Hrun & Hn & Hoff & Hitems & Hcid);
      [assumption | cbn; lia | cbn; lia |].
    exists f'. split; [exact Hrun |].
    cbn [fNWritten fOffsetColumn fItemColumn] in Hn, Hoff, Hitems, Hcid.
    rewrite total_cons. split; [lia |]. split; [| split].
    + rewrite Hoff, offsets_append_offset, <- app_assoc. reflexivity.
    + rewrite Hitems, (proj1 (append_items_spec _ _ _ _)), <- app_assoc.
      reflexivity.
    + rewrite Hcid. reflexivity.
Qed.

Lemma running_totals_lookup (entries : list (list Z)) :
  forall (acc : Z) (i : nat) (v : list Z),
    entries !! i = Some v ->
    running_totals acc entries !! i
    = Some (acc + total (take i entries) + Z.of_nat (length v)).
Proof.
  induction entries as [| w rest IH]; intros acc i v Hi; [discriminate |].
  destruct i as [| i]; cbn in *.
  - injection Hi as ->. unfold total. cbn. f_equal. lia.
  - rewrite (IH _ _ _ Hi). rewrite total_cons. f_equal. lia.
Qed.

Lemma running_totals_length (entries : list (list Z)) :
  forall acc : Z, length (running_totals acc entries) = length entries.
Proof.
  induction entries as [| w rest IH]; intros acc; cbn; [reflexivity |].
  now rewrite IH.
Qed.

Lemma running_totals_ascend (entries : list (list Z)) :
  forall (acc : Z) (i : nat) (a b : Z),
    running_totals acc entries !! i = Some a ->
    running_totals acc entries !! S i = Some b ->
    acc <= a <= b.
Proof.
  induction entries as [| w rest IH]; intros acc i a b Ha Hb;
    [discriminate |].
  destruct i as [| i]; cbn in *.
  - injection Ha as <-. destruct rest as [| w' rest']; [discriminate |].
    cbn in Hb. injection Hb as <-. lia.
  - specialize (IH _ _ _ _ Ha Hb). lia.
Qed.

Lemma read_items_spec (v : list Z) :
  forall (pre post : list Z) (collectionStart i : Z),
    0 <= i -> 0 <= collectionStart ->
    i + Z.of_nat (length v) < 2 ^ 32 ->
    collectionStart + i + Z.of_nat (length v) < 2 ^ 64 ->
    collectionStart + i = Z.of_nat (length pre) ->
    read_items (pre ++ v ++ post) collectionStart i (length v) = Some v.
Proof.
  induction v as [| x rest IH]; intros pre post start i Hi Hs Hsmall Hfit Hpre;
    cbn [read_items length]; [reflexivity |].
  cbn [length] in Hsmall, Hfit.
  rewrite uint_small by lia. rewrite size_t_small by lia.
  rewrite Hpre, Nat2Z.id. rewrite lookup_app_r by lia.
  rewrite Nat.sub_diag. cbn [app lookup list_lookup mbind option_bind].
  change (x :: rest ++ post) with ([x] ++ rest ++ post).
  rewrite app_assoc. rewrite (IH (pre ++ [x]) post start (i + 1));
    [reflexivity | lia | lia | lia | lia |].
  rewrite length_app. cbn. lia.
Qed.

Lemma total_split (entries : list (list Z)) (i : nat) (v : list Z) :
  entries !! i = Some v ->
  concat entries
  = concat (take i entries) ++ v ++ concat (drop (S i) entries)
  /\ total (take (S i) entries)
     = total (take i entries) + Z.of_nat (length v)
  /\ total (take i entries) + Z.of_nat (length v) <= total entries.
Proof.
  intros Hi.
  assert (Hcat : concat entries
                 = concat (take i entries) ++ v
                   ++ concat (drop (S i) entries)).
  { rewrite <- (take_drop_middle entries i v Hi) at 1.
    rewrite concat_app. reflexivity. }
  split; [exact Hcat |]. split.
  - rewrite (take_S_r entries i v Hi). unfold total.
    rewrite concat_app, length_app. cbn. rewrite app_nil_r. lia.
  - unfold total. rewrite Hcat, !length_app. lia.
Qed.

Lemma GetCollectionInfo_after_appends (c : OffsetColumn.t)
    (entries : list (list Z)) (i : nat) (v : list Z) :
  OffsetColumn.offsets c = running_totals 0 entries ->
  total entries < 2 ^ 64 ->
  entries !! i = Some v ->
  OffsetColumn.GetCollectionInfo c
    (RClusterIndex.mk (OffsetColumn.fClusterId c) (Z.of_nat i))
  = Some (RClusterIndex.mk (OffsetColumn.fClusterId c)
            (total (take i entries)),
          Z.of_nat (length v)).
Proof.
  intros Hoff Hfit Hi. unfold OffsetColumn.GetCollectionInfo.
  cbn [RClusterIndex.GetClusterId RClusterIndex.GetIndex].
  rewrite Z.eqb_refl.
  destruct (Z.leb_spec 0 (Z.of_nat i)); [| lia]. cbn [andb].
  rewrite Nat2Z.id, Hoff, (running_totals_lookup _ _ _ _ Hi).
  cbn [mbind option_bind].
  destruct (total_split _ _ _ Hi) as (_ & _ & Hle).
  pose proof (total_nonneg (take i entries)) as Hpos.
  assert (Hstart :
    match i with
    | O => 0
    | S j => OffsetColumn.offset c j
    end = total (take i entries)).
  { destruct i as [| j]; [reflexivity |].
    unfold OffsetColumn.offset. rewrite Hoff.
    assert (Hj : is_Some (entries !! j)).
    { apply lookup_lt_is_Some. apply lookup_lt_Some in Hi. lia. }
    destruct Hj as [w Hw].
    rewrite (running_totals_lookup _ _ _ _ Hw).
    destruct (total_split _ _ _ Hw) as (_ & -> & _).
    unfold default. cbn [from_option id]. lia. }
  rewrite Hstart. do 2 f_equal.
  rewrite size_t_small by lia. lia.
Qed.

(** X1: after the entries of a list are appended to a freshly connected
    vector field, one after the other, the offset column holds the running
    totals of the entry sizes (so it never decreases and ends with the number
    of items written), the item column holds all items in order, and
    [fNWritten] is the number of items. *)
Theorem RVec_offsets_are_running_totals (cluster ips ops : Z)
    (entries : list (list Z)) :
  Forall (fun v => Z.of_nat (length v) < 2 ^ 32) entries ->
  total entries < 2 ^ 64 ->
  exists f : t,
    append_all (fresh cluster ips ops) entries = Some f
    /\ OffsetColumn.offsets (fOffsetColumn f) = running_totals 0 entries
    /\ fItemColumn f = concat entries
    /\ fNWritten f = total entries
    /\ (forall (i : nat) (a b : Z),
          OffsetColumn.offsets (fOffsetColumn f) !! i = Some a ->
          OffsetColumn.offsets (fOffsetColumn f) !! S i = Some b ->
          0 <= a <= b /\ b <= total entries).
Proof.
  intros Hsmall Hfit.
  destruct (append_all_spec entries (fresh cluster ips ops) Hsmall)
    as (f & Hrun & Hn & Hoff & Hitems & _); [cbn; lia | cbn; lia |].
  cbn [fresh fNWritten fOffsetColumn fItemColumn OffsetColumn.offsets
       OffsetColumn.fPages concat app] in Hn, Hoff, Hitems.
  exists f. split; [exact Hrun |]. split; [exact Hoff |].
  split; [exact Hitems |]. split; [lia |].
  intros i a b Ha Hb. rewrite Hoff in Ha, Hb.
  pose proof (running_totals_ascend _ _ _ _ _ Ha Hb) as Hasc.
  split; [lia |].
  assert (Hi : is_Some (entries !! S i)).
  { apply lookup_lt_is_Some. apply lookup_lt_Some in Hb.
    now rewrite running_totals_length in Hb. }
  destruct Hi as [w Hw].
  rewrite (running_totals_lookup _ _ _ _ Hw) in Hb. injection Hb as <-.
  destruct (total_split _ _ _ Hw) as (_ & _ & Hle). lia.
Qed.

Lemma RVec_offsets_are_running_totals_witness :
  exists f : t,
    append_all (fresh 0 4 8) [[1; 2; 3]; []; [4]; [5; 6]] = Some f
    /\ OffsetColumn.offsets (fOffsetColumn f) = [3; 3; 4; 6]
    /\ fItemColumn f = [1; 2; 3; 4; 5; 6].
Proof.
  destruct (RVec_offsets_are_running_totals 0 4 8
              [[1; 2; 3]; []; [4]; [5; 6]])
    as (f & Hrun & Hoff & Hitems & _).
  - repeat constructor.
  - reflexivity.
  - exists f. auto.
Defined.

(** X2: the round trip of a vector field within a cluster: after the
    entries of a list are appended, reading entry [i] yields the [i]-th
    vector that was appended, and reading the entry after the last one
    fails. *)
Theorem RVec_read_returns_what_was_appended (cluster ips ops : Z)
    (entries : list (list Z)) :
  Forall (fun v => Z.of_nat (length v) < 2 ^ 32) entries ->
  total entries < 2 ^ 64 ->
  exists f : t,
    append_all (fresh cluster ips ops) entries = Some f
    /\ (forall (i : nat) (v : list Z),
          entries !! i = Some v -> ReadGlobalImpl f (Z.of_nat i) = Some v)
    /\ ReadGlobalImpl f (Z.of_nat (length entries)) = None.
Proof.
  intros Hsmall Hfit.
  destruct (append_all_spec entries (fresh cluster ips ops) Hsmall)
    as (f & Hrun & Hn & Hoff & Hitems & Hcid); [cbn; lia | cbn; lia |].
  cbn [fresh fNWritten fOffsetColumn fItemColumn OffsetColumn.offsets
       OffsetColumn.fPages concat app] in Hn, Hoff, Hitems.
  exists f. split; [exact Hrun |]. split.
  - intros i v Hi. unfold ReadGlobalImpl.
    rewrite (GetCollectionInfo_after_appends _ entries i v Hoff Hfit Hi).
    cbn [mbind option_bind fst snd RClusterIndex.GetIndex].
    rewrite Forall_forall in Hsmall.
    pose proof (Hsmall v ltac:(eapply list_elem_of_lookup_2; eassumption))
      as Hv.
    destruct (Z.leb_spec (2 ^ 32) (Z.of_nat (length v))); [lia |].
    rewrite Nat2Z.id, Hitems.
    destruct (total_split _ _ _ Hi) as (-> & _ & Hle).
    pose proof (total_nonneg (take i entries)).
    apply read_items_spec; try lia. unfold total. lia.
  - unfold ReadGlobalImpl, OffsetColumn.GetCollectionInfo.
    cbn [RClusterIndex.GetClusterId RClusterIndex.GetIndex].
    rewrite Z.eqb_refl.
    destruct (Z.leb_spec 0 (Z.of_nat (length entries))); [| lia].
    cbn [andb]. rewrite Nat2Z.id, Hoff.
    rewrite lookup_ge_None_2; [reflexivity |].
    now rewrite running_totals_length.
Qed.

Lemma RVec_read_returns_what_was_appended_witness :
  exists f : t,
    append_all (fresh 0 4 8) [[1; 2; 3]; []; [4]; [5; 6]] = Some f
    /\ ReadGlobalImpl f 3 = Some [5; 6]
    /\ ReadGlobalImpl f 1 = Some []
    /\ ReadGlobalImpl f 4 = None.
Proof.
  destruct (RVec_read_returns_what_was_appended 0 4 8
              [[1; 2; 3]; []; [4]; [5; 6]])
    as (f & Hrun & Hread & Hpast).
  - repeat constructor.
  - reflexivity.
  - exists f. split; [exact Hrun |].
    split; [exact (Hread 3%nat [5; 6] eq_refl) |].
    split; [exact (Hread 1%nat [] eq_refl) | exact Hpast].
Defined.

(** X3: [AppendImpl] of a vector field returns the packed size of the items
    plus the packed size of one offset, advances [fNWritten] by the number
    of items and appends the new [fNWritten] to the offset column, as long
    as the item bytes fit the [int] that counts them. *)
Theorem RVec_AppendImpl_bytes_and_offset (f : t) (typedValue : list Z) :
  0 <= fItemPackedSize f -> 0 <= fOffsetPackedSize f < 2 ^ 32 ->
  Z.of_nat (length typedValue) * fItemPackedSize f < 2 ^ 31 ->
  Z.of_nat (length typedValue) < 2 ^ 32 ->
  0 <= fNWritten f ->
  fNWritten f + Z.of_nat (length typedValue) < 2 ^ 64 ->
  exists f' : t,
    AppendImpl f typedValue
    = Some (Z.of_nat (length typedValue) * fItemPackedSize f
            + fOffsetPackedSize f, f')
    /\ fNWritten f' = fNWritten f + Z.of_nat (length typedValue)
    /\ OffsetColumn.offsets (fOffsetColumn f')
       = OffsetColumn.offsets (fOffsetColumn f) ++ [fNWritten f']
    /\ fItemColumn f' = fItemColumn f ++ typedValue.
Proof.
  intros Hips Hops Hint Hcount Hpos Hfit. unfold AppendImpl.
  destruct (Z.leb_spec (2 ^ 32) (Z.of_nat (length typedValue))); [lia |].
  destruct (append_items_spec (fItemPackedSize f) typedValue 0
              (fItemColumn f)) as [Hcol Hbytes].
  rewrite Hbytes by lia. rewrite Hcol.
  rewrite (size_t_small (fNWritten f + _)) by lia.
  rewrite size_t_small by nia.
  eexists. split; [reflexivity |]. cbn [fNWritten fOffsetColumn fItemColumn].
  split; [reflexivity |]. split; [apply offsets_append_offset | reflexivity].
Qed.

Lemma RVec_AppendImpl_bytes_and_offset_witness :
  exists f' : t,
    AppendImpl (fresh 0 4 8) [1; 2; 3] = Some (20, f')
    /\ fNWritten f' = 3.
Proof.
  destruct (RVec_AppendImpl_bytes_and_offset (fresh 0 4 8) [1; 2; 3])
    as (f' & Hrun & Hn & _); cbn; try lia.
  exists f'. split; [exact Hrun | exact Hn].
Defined.

Example scenario_offsets :
  (fun f => OffsetColumn.offsets (fOffsetColumn f))
    <$> append_all (fresh 0 4 8) [[1; 2; 3]; []; [4]; [5; 6]]
  = Some [3; 3; 4; 6].
Proof. vm_compute. reflexivity. Qed.

Example scenario_read :
  (f ← append_all (fresh 0 4 8) [[1; 2; 3]; []; [4]; [5; 6]];
   ReadGlobalImpl f 3)
  = Some [5; 6].
Proof. vm_compute. reflexivity. Qed.

Example AppendImpl_bytes :
  fst <$> AppendImpl (fresh 0 4 8) [1; 2; 3] = Some 20.
Proof. vm_compute. reflexivity. Qed.

End RVecFacts.

(** ** The slow paths of the read dispatchers *)

Section ReadPathFacts.

Context {Store : Type} `{ColumnStore Store}.

Import RFieldBase Eff ReadPaths.

Implicit Types (f : RFieldBase.t Store) (w : World Store).

Lemma guarded_invoke_all (cbs : list (ReadCallback_t Store)) (to : Z) w :
  (if negb (bool_decide (cbs = [])) then invoke_all cbs to else mret tt) w
  = invoke_all cbs to w.
Proof.
  case_bool_decide as Hnil; cbn [negb]; [now rewrite Hnil | reflexivity].
Qed.

Lemma Read_populate f (globalIndex to : Z) w :
  fIsSimple f = false ->
  Read f globalIndex to w
  = match populate_global f globalIndex to w with
    | Done _ w1 => invoke_all (fReadCallbacks f) to w1
    | Throws msg w1 => Throws msg w1
    | Undefined => Undefined
    end.
Proof.
  intros Hs. unfold Read. rewrite Hs.
  unfold mbind at 1. unfold Eff_bind at 1. unfold bind at 1.
  replace ((if Traits.has (fTraits f) Traits.kTraitMappable
            then col ← principal f;
                 emit (EvColumnRead col globalIndex to);;
                 on_store (column_Read col globalIndex to)
            else emit (EvReadGlobalImpl globalIndex to);;
                 on_store (ReadGlobalImpl f globalIndex to)) w)
    with (populate_global f globalIndex to w).
  2:{ unfold populate_global, principal.
      destruct (Traits.has (fTraits f) Traits.kTraitMappable).
      - destruct (fPrincipalColumn f);
          [symmetry; apply emit_on_store | reflexivity].
      - symmetry. apply emit_on_store. }
  destruct (populate_global f globalIndex to w) as [[] w1 | msg w1 |];
    [| reflexivity | reflexivity].
  unfold InvokeReadCallbacks. apply guarded_invoke_all.
Qed.

Lemma ReadInCluster_populate f (ci : RClusterIndex.t) (to : Z) w :
  fIsSimple f = false ->
  ReadInCluster f ci to w
  = match populate_in_cluster f ci to w with
    | Done _ w1 => invoke_all (fReadCallbacks f) to w1
    | Throws msg w1 => Throws msg w1
    | Undefined => Undefined
    end.
Proof.
  intros Hs. unfold ReadInCluster. rewrite Hs.
  unfold mbind at 1. unfold Eff_bind at 1. unfold bind at 1.
  replace ((if Traits.has (fTraits f) Traits.kTraitMappable
            then col ← principal f;
                 emit (EvColumnReadInCluster col ci to);;
                 on_store (column_ReadInCluster col ci to)
            else emit (EvReadInClusterImpl ci to);;
                 on_store (ReadInClusterImpl f ci to)) w)
    with (populate_in_cluster f ci to w).
  2:{ unfold populate_in_cluster, principal.
      destruct (Traits.has (fTraits f) Traits.kTraitMappable).
      - destruct (fPrincipalColumn f);
          [symmetry; apply emit_on_store | reflexivity].
      - symmetry. apply emit_on_store. }
  destruct (populate_in_cluster f ci to w) as [[] w1 | msg w1 |];
    [| reflexivity | reflexivity].
  unfold InvokeReadCallbacks. apply guarded_invoke_all.
Qed.

Lemma invoke_all_stops (pre : list (ReadCallback_t Store))
    (bad : ReadCallback_t Store) (post : list (ReadCallback_t Store))
    (to : Z) :
  forall (s s1 : Store) (tr : list Event),
    callbacks_effect pre to s = Some s1 ->
    cbFun bad to s1 = None ->
    invoke_all (pre ++ bad :: post) to (mkWorld s tr)
    = Throws "error"
        (mkWorld s1
           (tr ++ callback_events pre to ++ [EvReadCallback (cbTag bad) to])).
Proof.
  induction pre as [| func rest IH]; intros s s1 tr Heff Hbad; cbn in *.
  - injection Heff as <-.
    unfold mbind, Eff_bind, bind, emit, on_store. cbn. now rewrite Hbad.
  - destruct (cbFun func to s) as [s' |] eqn:E; [| discriminate].
    unfold mbind, Eff_bind, bind, emit, on_store. cbn. rewrite E.
    rewrite (IH _ _ _ Heff Hbad). now rewrite <- app_assoc.
Qed.

Lemma invoke_all_left (cbs : list (ReadCallback_t Store)) (to : Z) :
  forall (s : Store) (tr tr' : list Event),
    left_behind (invoke_all cbs to (mkWorld s tr))
    = left_behind (invoke_all cbs to (mkWorld s tr')).
Proof.
  induction cbs as [| func rest IH]; intros s tr tr'; cbn.
  - reflexivity.
  - unfold mbind, Eff_bind, bind, emit, on_store. cbn.
    destruct (cbFun func to s) as [s' |]; [apply IH | reflexivity].
Qed.

(** X4: a cluster-local read of a field that is not simple populates the
    value (through the principal column for a mappable field, through
    [ReadInClusterImpl] otherwise) and then runs all read callbacks on the
    destination, first registered first; nothing else is logged. *)
Theorem ReadInCluster_runs_callbacks_in_order f (ci : RClusterIndex.t)
    (to : Z) w w1 (s2 : Store) :
  fIsSimple f = false ->
  populate_in_cluster f ci to w = Done tt w1 ->
  callbacks_effect (fReadCallbacks f) to (wStore w1) = Some s2 ->
  ReadInCluster f ci to w
  = Done tt (mkWorld s2 (wTrace w1 ++ callback_events (fReadCallbacks f) to)).
Proof.
  intros Hs Hpop Hcb. rewrite ReadInCluster_populate by assumption.
  rewrite Hpop. destruct w1 as [s1 tr1]. now apply invoke_all_done.
Qed.

(** X5: a cluster-local read of a field that is neither simple nor
    mappable and whose class keeps the default [ReadInClusterImpl].  With a
    principal column it leaves behind what the global read at
    [fPrincipalColumn->GetGlobalIndex(clusterIndex)] leaves behind: the same
    store after the same kind of end (normal or thrown), read callbacks
    included; it is the cluster-local read of a field whose
    [ReadInClusterImpl] reads at that global index.  Without a principal
    column the default dereferences a null pointer and the read is
    undefined. *)
Theorem ReadInCluster_default_is_Read_at_global_index f
    (ci : RClusterIndex.t) (to : Z) w :
  fIsSimple f = false ->
  Traits.has (fTraits f) Traits.kTraitMappable = false ->
  (forall col : nat,
     fPrincipalColumn f = Some col ->
     left_behind (ReadInCluster_with (ReadInClusterImpl_default f) f ci to w)
     = left_behind (Read f (column_GetGlobalIndex col ci (wStore w)) to w)
     /\ ((forall ci' to' s,
            ReadInClusterImpl f ci' to' s
            = ReadGlobalImpl f (column_GetGlobalIndex col ci' s) to' s) ->
         ReadInCluster f ci to w
         = ReadInCluster_with (ReadInClusterImpl_default f) f ci to w))
  /\ (fPrincipalColumn f = None ->
      ReadInCluster_with (ReadInClusterImpl_default f) f ci to w
      = Undefined).
Proof.
  intros Hs Hm.
  assert (Hwith :
    ReadInCluster_with (ReadInClusterImpl_default f) f ci to w
    = match fPrincipalColumn f with
      | Some col =>
          match ReadGlobalImpl f (column_GetGlobalIndex col ci (wStore w)) to
                  (wStore w) with
          | Some s' =>
              invoke_all (fReadCallbacks f) to
                (mkWorld s' (wTrace w ++ [EvReadInClusterImpl ci to]))
          | None =>
              Throws "error"
                (mkWorld (wStore w) (wTrace w ++ [EvReadInClusterImpl ci to]))
          end
      | None => Undefined
      end).
  { unfold ReadInCluster_with, ReadInClusterImpl_default, principal.
    rewrite Hs, Hm.
    unfold mbind at 1. unfold Eff_bind at 1. unfold bind at 1.
    destruct (fPrincipalColumn f) as [col |].
    - unfold mbind, Eff_bind, bind, mret, Eff_ret, ret, emit, on_store,
        read_store. cbn [wStore wTrace].
      destruct (ReadGlobalImpl f (column_GetGlobalIndex col ci (wStore w)) to
                  (wStore w)) as [s' |]; [| reflexivity].
      unfold InvokeReadCallbacks.
      apply (guarded_invoke_all (fReadCallbacks f) to
               (mkWorld s' (wTrace w ++ [EvReadInClusterImpl ci to]))).
    - reflexivity. }
  split.
  - intros col Hcol. rewrite Hwith, Hcol. split.
    + rewrite Read_populate by assumption.
      unfold populate_global. rewrite Hm. unfold column_call.
      destruct (ReadGlobalImpl f (column_GetGlobalIndex col ci (wStore w)) to
                  (wStore w)) as [s' |]; [| reflexivity].
      apply invoke_all_left.
    + intros Hdef. rewrite ReadInCluster_populate by assumption.
      unfold populate_in_cluster. rewrite Hm. unfold column_call.
      rewrite Hdef.
      destruct (ReadGlobalImpl f (column_GetGlobalIndex col ci (wStore w)) to
                  (wStore w)) as [s' |]; reflexivity.
  - intros Hnone. now rewrite Hwith, Hnone.
Qed.

(** X6: in a read of a field that is not simple, an error while the value is
    populated ends the read before any callback runs; and a callback that
    throws ends it after the callbacks registered before it, which have had
    their effect, and before the ones registered after it. *)
Theorem Read_stops_at_first_error f (globalIndex to : Z) w :
  fIsSimple f = false ->
  (forall (msg : string) w1,
     populate_global f globalIndex to w = Throws msg w1 ->
     Read f globalIndex to w = Throws msg w1)
  /\ (forall w1 (pre : list (ReadCallback_t Store))
             (bad : ReadCallback_t Store)
             (post : list (ReadCallback_t Store)) (s1 : Store),
        populate_global f globalIndex to w = Done tt w1 ->
        fReadCallbacks f = pre ++ bad :: post ->
        callbacks_effect pre to (wStore w1) = Some s1 ->
        cbFun bad to s1 = None ->
        Read f globalIndex to w
        = Throws "error"
            (mkWorld s1
               (wTrace w1 ++ callback_events pre to
                ++ [EvReadCallback (cbTag bad) to]))).
Proof.
  intros Hs. split.
  - intros msg w1 Hpop. rewrite Read_populate by assumption.
    now rewrite Hpop.
  - intros w1 pre bad post s1 Hpop Hcbs Hpre Hbad.
    rewrite Read_populate by assumption. rewrite Hpop, Hcbs.
    destruct w1 as [s tr]. now apply invoke_all_stops.
Qed.

End ReadPathFacts.

Section ReadPathExamples.

Import RFieldBase Eff ReadPaths ListStore ListFields.

Lemma ReadInCluster_runs_callbacks_in_order_witness :
  ReadInCluster (composite 0 [bump 1 5; bump 2 100]) (RClusterIndex.mk 0 2)
    100 world0
  = Done tt (mkWorld (with_memory {[ 100 := 135 ]} store0)
               [EvReadInClusterImpl (RClusterIndex.mk 0 2) 100;
                EvReadCallback 1 100; EvReadCallback 2 100]).
Proof.
  rewrite (ReadInCluster_runs_callbacks_in_order
             (composite 0 [bump 1 5; bump 2 100]) (RClusterIndex.mk 0 2) 100
             world0
             (mkWorld (with_memory {[ 100 := 30 ]} store0)
                [EvReadInClusterImpl (RClusterIndex.mk 0 2) 100])
             (with_memory {[ 100 := 135 ]} store0)).
  - reflexivity.
  - reflexivity.
  - vm_compute. reflexivity.
  - vm_compute. reflexivity.
Defined.

Lemma ReadInCluster_default_is_Read_at_global_index_witness :
  left_behind
    (ReadInCluster_with (ReadInClusterImpl_default (composite 0 [bump 1 5]))
       (composite 0 [bump 1 5]) (RClusterIndex.mk 0 2) 100 world0)
  = left_behind (Read (composite 0 [bump 1 5]) 2 100 world0)
  /\ ReadInCluster (composite 0 [bump 1 5]) (RClusterIndex.mk 0 2) 100 world0
     = ReadInCluster_with (ReadInClusterImpl_default (composite 0 [bump 1 5]))
         (composite 0 [bump 1 5]) (RClusterIndex.mk 0 2) 100 world0
  /\ ReadInCluster_with (ReadInClusterImpl_default (columnless [bump 1 5]))
       (columnless [bump 1 5]) (RClusterIndex.mk 0 2) 100 world0
     = Undefined.
Proof.
  split; [| split].
  - exact (proj1 (proj1 (ReadInCluster_default_is_Read_at_global_index
                           (composite 0 [bump 1 5]) (RClusterIndex.mk 0 2)
                           100 world0 eq_refl eq_refl) 0%nat eq_refl)).
  - exact (proj2 (proj1 (ReadInCluster_default_is_Read_at_global_index
                           (composite 0 [bump 1 5]) (RClusterIndex.mk 0 2)
                           100 world0 eq_refl eq_refl) 0%nat eq_refl)
             (fun _ _ _ => eq_refl)).
  - exact (proj2 (ReadInCluster_default_is_Read_at_global_index
                    (columnless [bump 1 5]) (RClusterIndex.mk 0 2) 100 world0
                    eq_refl eq_refl) eq_refl).
Defined.

Lemma Read_stops_at_first_error_witness :
  Read (composite 0 []) 7 100 world0
  = Throws "error" (mkWorld store0 [EvReadGlobalImpl 7 100])
  /\ Read (composite 0 [bump 1 5; failing 2; bump 3 100]) 1 100 world0
     = Throws "error"
         (mkWorld (with_memory {[ 100 := 25 ]} store0)
            [EvReadGlobalImpl 1 100; EvReadCallback 1 100;
             EvReadCallback 2 100]).
Proof.
  split.
  - apply (proj1 (Read_stops_at_first_error (composite 0 []) 7 100 world0
                    eq_refl)).
    reflexivity.
  - rewrite (proj2 (Read_stops_at_first_error
                      (composite 0 [bump 1 5; failing 2; bump 3 100]) 1 100
                      world0 eq_refl)
               (mkWorld (with_memory {[ 100 := 20 ]} store0)
                  [EvReadGlobalImpl 1 100])
               [bump 1 5] (failing 2) [bump 3 100]
               (with_memory {[ 100 := 25 ]} store0)).
    + reflexivity.
    + vm_compute. reflexivity.
    + reflexivity.
    + vm_compute. reflexivity.
    + reflexivity.
Defined.

End ReadPathExamples.

(** ** Bulk reads on a range the handle covers *)

Section BulkRangeFacts.

Context {Store : Type} `{ColumnStore Store}.

Import Eff RBulk.

Implicit Types (b : RBulk.t Store) (w : World Store).

(** Without wrap-around of the index sums, a covered range lies inside the
    slots of the handle. *)
Lemma ContainsRange_window b (firstIndex : RClusterIndex.t) (size : Z) :
  0 <= RClusterIndex.GetIndex (fFirstIndex b) -> 0 <= fSize b ->
  RClusterIndex.GetIndex (fFirstIndex b) + fSize b < 2 ^ 64 ->
  0 <= size -> RClusterIndex.GetIndex firstIndex + size < 2 ^ 64 ->
  ContainsRange b firstIndex size = true ->
  Mach.size_t (RClusterIndex.GetIndex firstIndex
               - RClusterIndex.GetIndex (fFirstIndex b))
  = RClusterIndex.GetIndex firstIndex
    - RClusterIndex.GetIndex (fFirstIndex b)
  /\ 0 <= RClusterIndex.GetIndex firstIndex
          - RClusterIndex.GetIndex (fFirstIndex b)
  /\ RClusterIndex.GetIndex firstIndex
     - RClusterIndex.GetIndex (fFirstIndex b) + size <= fSize b.
Proof.
  intros Hfirst Hsize Hend Hreq Hreqend. unfold ContainsRange.
  destruct (RClusterIndex.GetClusterId firstIndex
            =? RClusterIndex.GetClusterId (fFirstIndex b)); cbn [negb];
    [| discriminate].
  intros Hin. apply andb_true_iff in Hin as [Hlo Hhi].
  apply Z.leb_le in Hlo. apply Z.leb_le in Hhi.
  rewrite !size_t_small in Hhi by lia.
  rewrite size_t_small by lia. lia.
Qed.

Lemma ReadBulk_covered b (firstIndex : RClusterIndex.t)
    (maskReq : list bool) (size : Z) w :
  ContainsRange b firstIndex size = true ->
  fNValidValues b <> fSize b ->
  ReadBulk b firstIndex maskReq size w
  = let offset :=
      Mach.size_t (RClusterIndex.GetIndex firstIndex
                   - RClusterIndex.GetIndex (fFirstIndex b)) in
    match
      RFieldBase.ReadBulk (fField b)
        (RFieldBase.mkBulkSpec firstIndex size maskReq (Z.to_nat offset)
           (GetValuePtrAt b offset))
        (RFieldBase.mkBuffers (fMaskAvail b) (fAuxData b)) w
    with
    | Done r w' =>
        let b' :=
          if r.1 =? RFieldBase.kAllSet then
            if (offset =? 0) && (size =? fSize b)
            then with_read b r.2 (fSize b)
            else CountValidValues (with_read b r.2 (fNValidValues b))
          else with_read b r.2 (Mach.size_t (fNValidValues b + r.1)) in
        Done (GetValuePtrAt b' offset, b') w'
    | Throws msg w' => Throws msg w'
    | Undefined => Undefined
    end.
Proof.
  intros Hin Hpart. unfold ReadBulk. rewrite Hin. cbn [negb].
  unfold mbind at 1. unfold Eff_bind at 1. unfold bind at 1.
  unfold mret at 1. unfold Eff_ret at 1. unfold ret at 1.
  destruct (Z.eqb_spec (fNValidValues b) (fSize b)) as [Heq | _];
    [contradiction |].
  unfold mbind, Eff_bind, bind.
  destruct (RFieldBase.ReadBulk _ _ _ w) as [r w' | msg w' |]; reflexivity.
Qed.

Lemma ReadBulk_field_simple (f : RFieldBase.t Store)
    (bulkSpec : RFieldBase.RBulkSpec) (buf : RFieldBase.BulkBuffers) w
    (col : nat) (s' : Store) :
  RFieldBase.fIsSimple f = true ->
  RFieldBase.fPrincipalColumn f = Some col ->
  column_ReadV col (RFieldBase.fFirstIndex bulkSpec)
    (RFieldBase.fCount bulkSpec) (RFieldBase.fValues bulkSpec) (wStore w)
  = Some s' ->
  (RFieldBase.fMaskAvail bulkSpec + Z.to_nat (RFieldBase.fCount bulkSpec)
   <= length (RFieldBase.bMaskAvail buf))%nat ->
  RFieldBase.ReadBulk f bulkSpec buf w
  = Done (RFieldBase.kAllSet,
          RFieldBase.mkBuffers
            (RFieldBase.std_fill (RFieldBase.bMaskAvail buf)
               (RFieldBase.fMaskAvail bulkSpec)
               (Z.to_nat (RFieldBase.fCount bulkSpec)) true)
            (RFieldBase.bAuxData buf))
      (mkWorld s'
         (wTrace w
          ++ [EvColumnReadV col (RFieldBase.fFirstIndex bulkSpec)
                (RFieldBase.fCount bulkSpec) (RFieldBase.fValues bulkSpec)])).
Proof.
  intros Hs Hcol Hread Hfit.
  unfold RFieldBase.ReadBulk, RFieldBase.principal. rewrite Hs, Hcol.
  unfold mbind, Eff_bind, bind, mret, Eff_ret, ret, emit, on_store. cbn.
  rewrite Hread. now rewrite decide_True by assumption.
Qed.

(** X7: a bulk read of a simple field on a range that the handle covers (the
    index sums do not wrap, the mask has a slot for each of the [fSize]
    values, and not all values are valid yet) makes one [ReadV] call for the
    [size] values from [firstIndex] into the value array at the offset of the
    range, a window that lies within the handle; it marks exactly the slots
    of that window as available and leaves the range and the array of the
    handle as they were. *)
Theorem ReadBulk_simple_fills_covered_window b
    (firstIndex : RClusterIndex.t) (maskReq : list bool) (size : Z) w
    (col : nat) (s' : Store) :
  let offset :=
    RClusterIndex.GetIndex firstIndex
    - RClusterIndex.GetIndex (fFirstIndex b) in
  RFieldBase.fIsSimple (fField b) = true ->
  RFieldBase.fPrincipalColumn (fField b) = Some col ->
  ContainsRange b firstIndex size = true ->
  0 <= RClusterIndex.GetIndex (fFirstIndex b) -> 0 <= fSize b ->
  RClusterIndex.GetIndex (fFirstIndex b) + fSize b < 2 ^ 64 ->
  0 <= size -> RClusterIndex.GetIndex firstIndex + size < 2 ^ 64 ->
  fNValidValues b <> fSize b ->
  (Z.to_nat (fSize b) <= length (fMaskAvail b))%nat ->
  column_ReadV col firstIndex size (GetValuePtrAt b offset) (wStore w)
  = Some s' ->
  exists b' : RBulk.t Store,
    ReadBulk b firstIndex maskReq size w
    = Done (GetValuePtrAt b offset, b')
        (mkWorld s'
           (wTrace w
            ++ [EvColumnReadV col firstIndex size (GetValuePtrAt b offset)]))
    /\ 0 <= offset /\ offset + size <= fSize b
    /\ (forall k : nat, (k < Z.to_nat size)%nat ->
          fMaskAvail b' !! (Z.to_nat offset + k)%nat = Some true)
    /\ (forall i : nat,
          (i < Z.to_nat offset \/ Z.to_nat offset + Z.to_nat size <= i)%nat ->
          fMaskAvail b' !! i = fMaskAvail b !! i)
    /\ fFirstIndex b' = fFirstIndex b /\ fSize b' = fSize b
    /\ fValues b' = fValues b /\ fCapacity b' = fCapacity b.
Proof.
  intros offset Hs Hcol Hin Hfirst Hsize Hend Hreq Hreqend Hpart Hmask Hread.
  destruct (ContainsRange_window b firstIndex size Hfirst Hsize Hend Hreq
              Hreqend Hin) as (Hoff & Hlo & Hhi).
  subst offset.
  rewrite ReadBulk_covered by assumption. cbv zeta. rewrite Hoff.
  rewrite (ReadBulk_field_simple (fField b) _ _ w col s' Hs Hcol);
    [| exact Hread | cbn; lia].
  cbn [fst snd RFieldBase.fFirstIndex RFieldBase.fCount RFieldBase.fValues
       RFieldBase.fMaskAvail RFieldBase.bMaskAvail RFieldBase.bAuxData].
  rewrite Z.eqb_refl.
  eexists. split.
  - f_equal. f_equal.
    destruct (_ && _); reflexivity.
  - split; [exact Hlo |]. split; [exact Hhi |].
    destruct (_ && _); cbn.
    + split; [intros k Hk; apply std_fill_lookup_in; lia |].
      split; [intros i Hi; now apply std_fill_lookup_out |].
      repeat split.
    + split; [intros k Hk; apply std_fill_lookup_in; lia |].
      split; [intros i Hi; now apply std_fill_lookup_out |].
      repeat split.
Qed.

(** X8: once a simple field has filled a handle over exactly the range of
    the handle, all [fSize] values count as valid, and every later request
    for a range that the handle covers is answered with the address of the
    value at the offset of the range, without a call on the column and
    with the handle, the store and the log unchanged. *)
Theorem ReadBulk_filled_handle_serves_from_memory b
    (firstIndex : RClusterIndex.t) (maskReq : list bool) (size : Z) w
    (col : nat) (s' : Store) :
  RFieldBase.fIsSimple (fField b) = true ->
  RFieldBase.fPrincipalColumn (fField b) = Some col ->
  fFirstIndex b = firstIndex -> fSize b = size ->
  fNValidValues b <> fSize b ->
  (Z.to_nat size <= length (fMaskAvail b))%nat ->
  column_ReadV col firstIndex size (fValues b) (wStore w) = Some s' ->
  exists b' : RBulk.t Store,
    ReadBulk b firstIndex maskReq size w
    = Done (fValues b, b')
        (mkWorld s'
           (wTrace w ++ [EvColumnReadV col firstIndex size (fValues b)]))
    /\ fNValidValues b' = size /\ fSize b' = size
    /\ fFirstIndex b' = firstIndex
    /\ forall (firstIndex2 : RClusterIndex.t) (maskReq2 : list bool)
              (size2 : Z) (w2 : World Store),
         ContainsRange b' firstIndex2 size2 = true ->
         ReadBulk b' firstIndex2 maskReq2 size2 w2
         = Done (GetValuePtrAt b
                   (Mach.size_t (RClusterIndex.GetIndex firstIndex2
                                 - RClusterIndex.GetIndex firstIndex)),
                 b') w2.
Proof.
  intros Hs Hcol Hfirst Hsize Hpart Hmask Hread.
  assert (Hptr : GetValuePtrAt b 0 = fValues b).
  { unfold GetValuePtrAt. cbn. apply Z.add_0_r. }
  rewrite ReadBulk_covered
    by (try apply ContainsRange_same; assumption).
  cbv zeta. rewrite Hfirst, Z.sub_diag. change (Mach.size_t 0) with 0.
  rewrite Hptr.
  rewrite (ReadBulk_field_simple (fField b) _ _ w col s' Hs Hcol);
    [| exact Hread | cbn; lia].
  cbn [fst snd RFieldBase.fFirstIndex RFieldBase.fCount RFieldBase.fValues
       RFieldBase.fMaskAvail RFieldBase.bMaskAvail RFieldBase.bAuxData].
  rewrite Z.eqb_refl. cbn [Z.eqb andb].
  rewrite (proj2 (Z.eqb_eq size (fSize b)) (eq_sym Hsize)).
  eexists. split.
  - unfold GetValuePtrAt. cbn [with_read fValues fValueSize].
    cbn [Z.mul]. change (Mach.size_t 0) with 0. rewrite Z.add_0_r.
    reflexivity.
  - cbn [with_read fNValidValues fSize fFirstIndex].
    split; [exact Hsize |]. split; [exact Hsize |].
    split; [exact Hfirst |].
    intros firstIndex2 maskReq2 size2 w2 Hin2.
    unfold ReadBulk. rewrite Hin2. cbn [negb].
    unfold mbind, Eff_bind, bind, mret, Eff_ret, ret, GetValuePtrAt.
    cbn [with_read fNValidValues fSize fFirstIndex fValues fValueSize].
    rewrite Z.eqb_refl, Hfirst. reflexivity.
Qed.

(** X9: a bulk read on a range that the handle covers, whatever the field
    does, never moves the handle: the range, the value array with its
    capacity and the value size stay, the pointer returned is the address of
    the value at the offset of the range, and the log gains neither a release
    nor an allocation of the value array. *)
Theorem ReadBulk_covered_keeps_range_and_array b
    (firstIndex : RClusterIndex.t) (maskReq : list bool) (size : Z) w
    (ptr : Z) (b' : RBulk.t Store) (w' : World Store) :
  ContainsRange b firstIndex size = true ->
  ReadBulk b firstIndex maskReq size w = Done (ptr, b') w' ->
  fFirstIndex b' = fFirstIndex b /\ fSize b' = fSize b
  /\ fValues b' = fValues b /\ fCapacity b' = fCapacity b
  /\ fValueSize b' = fValueSize b
  /\ ptr = GetValuePtrAt b
             (Mach.size_t (RClusterIndex.GetIndex firstIndex
                           - RClusterIndex.GetIndex (fFirstIndex b)))
  /\ exists evs : list Event,
       wTrace w' = wTrace w ++ evs
       /\ forall e, e ∈ evs ->
            match e with
            | EvReleaseValues _ _ | EvMalloc _ _ => False
            | _ => True
            end.
Proof.
  intros Hin Hrun.
  destruct (Z.eq_dec (fNValidValues b) (fSize b)) as [Hfull | Hpart].
  - unfold ReadBulk in Hrun. rewrite Hin in Hrun. cbn [negb] in Hrun.
    unfold mbind, Eff_bind, bind, mret, Eff_ret, ret in Hrun.
    rewrite Hfull, Z.eqb_refl in Hrun. injection Hrun as <- <- <-.
    repeat split. exists []. split; [now rewrite app_nil_r |].
    intros e He. inversion He.
  - rewrite ReadBulk_covered in Hrun by assumption. cbv zeta in Hrun.
    set (offset := Mach.size_t _) in *.
    set (spec := RFieldBase.mkBulkSpec _ _ _ _ _) in *.
    set (buf := RFieldBase.mkBuffers _ _) in *.
    assert (Hlog :
      forall r w1, RFieldBase.ReadBulk (fField b) spec buf w = Done r w1 ->
        exists evs : list Event,
          wTrace w1 = wTrace w ++ evs
          /\ forall e, e ∈ evs ->
               match e with
               | EvReleaseValues _ _ | EvMalloc _ _ => False
               | _ => True
               end).
    { intros r w1. unfold RFieldBase.ReadBulk, RFieldBase.principal.
      destruct (RFieldBase.fIsSimple (fField b)).
      - destruct (RFieldBase.fPrincipalColumn (fField b)) as [col |];
          [| discriminate].
        unfold mbind, Eff_bind, bind, mret, Eff_ret, ret, emit, on_store.
        cbn.
        destruct (column_ReadV col _ _ _ (wStore w)); [| discriminate].
        destruct (decide _); [| discriminate].
        intros Hd. injection Hd as _ <-. cbn. eexists. split; [reflexivity |].
        intros e He. apply list_elem_of_singleton in He as ->. exact I.
      - unfold mbind, Eff_bind, bind, emit, on_store_ret. cbn.
        destruct (RFieldBase.ReadBulkImpl (fField b) spec buf (wStore w))
          as [[[n buf'] s1] |]; [| discriminate].
        intros Hd. injection Hd as _ <-. cbn. eexists. split; [reflexivity |].
        intros e He. apply list_elem_of_singleton in He as ->. exact I. }
    destruct (RFieldBase.ReadBulk (fField b) spec buf w) as [r w1 | |];
      [| discriminate | discriminate].
    specialize (Hlog r w1 eq_refl).
    injection Hrun as <- <- <-.
    destruct (r.1 =? RFieldBase.kAllSet);
      [destruct ((offset =? 0) && (size =? fSize b)) |];
      (repeat split; exact Hlog).
Qed.

End BulkRangeFacts.

Section BulkRangeExamples.

Import Eff RBulk ListStore.

Lemma ReadBulk_simple_fills_covered_window_witness :
  exists b' : RBulk.t ListStore.t,
    ReadBulk bulk_half_valid (RClusterIndex.mk 0 1) [] 1 world0
    = Done (1001, b')
        (mkWorld (with_memory {[ 100 := 7; 1001 := 20 ]} store0)
           [EvColumnReadV 0 (RClusterIndex.mk 0 1) 1 1001])
    /\ fMaskAvail b' !! 1%nat = Some true
    /\ fMaskAvail b' !! 0%nat = Some true.
Proof.
  destruct (ReadBulk_simple_fills_covered_window bulk_half_valid
              (RClusterIndex.mk 0 1) [] 1 world0 0%nat
              (with_memory {[ 100 := 7; 1001 := 20 ]} store0))
    as (b' & Hrun & _ & _ & Hin & Hout & _).
  - reflexivity.
  - reflexivity.
  - reflexivity.
  - cbn. lia.
  - cbn. lia.
  - cbn. lia.
  - lia.
  - cbn. lia.
  - cbn. lia.
  - cbn. lia.
  - vm_compute. reflexivity.
  - exists b'. split; [exact Hrun |].
    split; [exact (Hin 0%nat ltac:(cbn; lia)) |].
    rewrite (Hout 0%nat) by (cbn; lia). reflexivity.
Defined.

Lemma ReadBulk_filled_handle_serves_from_memory_witness :
  exists b' : RBulk.t ListStore.t,
    ReadBulk bulk_half_valid (RClusterIndex.mk 0 0) [] 2 world0
    = Done (1000, b')
        (mkWorld (with_memory {[ 100 := 7; 1000 := 10; 1001 := 20 ]} store0)
           [EvColumnReadV 0 (RClusterIndex.mk 0 0) 2 1000])
    /\ fNValidValues b' = 2
    /\ ReadBulk b' (RClusterIndex.mk 0 1) [] 1 world0
       = Done (1001, b') world0.
Proof.
  destruct (ReadBulk_filled_handle_serves_from_memory bulk_half_valid
              (RClusterIndex.mk 0 0) [] 2 world0 0%nat
              (with_memory {[ 100 := 7; 1000 := 10; 1001 := 20 ]} store0))
    as (b' & Hrun & Hvalid & Hsize & Hfirst & Hnext).
  - reflexivity.
  - reflexivity.
  - reflexivity.
  - reflexivity.
  - cbn. lia.
  - cbn. lia.
  - vm_compute. reflexivity.
  - exists b'. split; [exact Hrun |]. split; [exact Hvalid |].
    apply (Hnext (RClusterIndex.mk 0 1) [] 1 world0).
    unfold ContainsRange. rewrite Hfirst, Hsize. reflexivity.
Defined.

Lemma ReadBulk_covered_keeps_range_and_array_witness :
  fFirstIndex bulk_half_valid = RClusterIndex.mk 0 0
  /\ fSize bulk_half_valid = 2
  /\ fValues bulk_half_valid = 1000.
Proof.
  destruct (ReadBulk_covered_keeps_range_and_array bulk_half_valid
              (RClusterIndex.mk 0 0) [true] 1 world0 1000 bulk_half_valid
              (mkWorld (with_memory {[ 100 := 7; 1000 := 10 ]} store0)
                 [EvColumnReadV 0 (RClusterIndex.mk 0 0) 1 1000]))
    as (Hfirst & Hsize & Hvalues & _).
  - reflexivity.
  - vm_compute. reflexivity.
  - split; [exact Hfirst |]. split; [exact Hsize | exact Hvalues].
Defined.

End BulkRangeExamples.

(** ** No object of a program over handles is lost *)

Section ValueAccountFacts.

Import RValue RValueAccount.

Lemma initial_accounted (a : Z) : accounted (initial a) [].
Proof.
  split; cbn.
  - apply NoDup_nil_2.
  - intros x Hx. inversion Hx.
  - intros x d Hx. inversion Hx.
  - intros x h v Hx. inversion Hx.
  - intros x Hx. lia.
Qed.

Lemma step_accounted (c : Cmd) (st st' : State) (rel : list Z) :
  well_owned st -> accounted st rel -> step c st = Some st' ->
  accounted st' (rel ++ given_up (releases c st)).
Proof.
  intros Hwo Hacc Hstep.
  pose proof (released_once _ _ Hacc) as Honce.
  pose proof (released_generated _ _ Hacc) as Hgen.
  pose proof (released_not_destroyed _ _ Hacc) as Hnd.
  pose proof (released_not_owned _ _ Hacc) as Hno.
  pose proof (all_accounted _ _ Hacc) as Hall.
  pose proof (first_le_next _ Hwo) as Hle.
  destruct c as [h field | h field where_ | h other | h other | h other
                | h | h]; cbn [releases given_up]; cbn in Hstep.
  - (* CGenerate *)
    rewrite app_nil_r.
    unfold declare in Hstep. destruct (handles st !! h) eqn:Hh;
      [discriminate |]. cbn in Hstep. injection Hstep as <-.
    split; cbn; try assumption.
    + intros a Ha. specialize (Hgen a Ha). lia.
    + intros a h' v' Ha Hl Ho.
      apply lookup_insert_Some in Hl as [[<- <-] | [Hne Hl]].
      * cbn. specialize (Hgen a Ha). lia.
      * eauto.
    + intros a Ha. destruct (decide (a = next st)) as [-> | Hne].
      * left. exists h, (GenerateValue field (next st)). cbn.
        rewrite lookup_insert_eq. auto.
      * destruct (Hall a ltac:(lia)) as [(h' & v' & Hh' & Ho & Hp) | Hrest];
          [| right; exact Hrest].
        left. exists h', v'. cbn.
        rewrite lookup_insert_ne by congruence. auto.
  - (* CBind *)
    rewrite app_nil_r.
    unfold declare in Hstep. destruct (handles st !! h) eqn:Hh;
      [discriminate |]. injection Hstep as <-.
    split; cbn; try assumption.
    + intros a h' v' Ha Hl Ho.
      apply lookup_insert_Some in Hl as [[<- <-] | [Hne Hl]];
        [discriminate | eauto].
    + intros a Ha.
      destruct (Hall a Ha) as [(h' & v' & Hh' & Ho & Hp) | Hrest];
        [| right; exact Hrest].
      left. exists h', v'. cbn.
      rewrite lookup_insert_ne by congruence. auto.
  - (* CMoveConstruct *)
    rewrite app_nil_r.
    destruct (handles st !! other) as [v |] eqn:Hother; [| discriminate].
    cbn in Hstep. unfold declare in Hstep. cbn in Hstep.
    destruct (<[other := _]> (handles st) !! h) eqn:Hh; [discriminate |].
    injection Hstep as <-.
    apply lookup_insert_None in Hh as [Hh Hne].
    split; cbn; try assumption.
    + intros a h' v' Ha Hl Ho.
      apply lookup_insert_Some in Hl as [[<- <-] | [Hne1 Hl]].
      * cbn in *. eauto.
      * apply lookup_insert_Some in Hl as [[<- <-] | [Hne2 Hl]];
          [discriminate | eauto].
    + intros a Ha.
      destruct (Hall a Ha) as [(h' & v' & Hh' & Ho & Hp) | Hrest];
        [| right; exact Hrest].
      left. destruct (decide (h' = other)) as [-> | Hne'].
      * exists h. eexists. cbn. rewrite lookup_insert_eq.
        split; [reflexivity |]. cbn. split; congruence.
      * exists h', v'. cbn.
        rewrite !lookup_insert_ne by congruence. auto.
  - (* CNonOwningCopy *)
    rewrite app_nil_r.
    destruct (handles st !! other) as [v |] eqn:Hother; [| discriminate].
    cbn in Hstep. unfold declare in Hstep.
    destruct (handles st !! h) eqn:Hh; [discriminate |].
    injection Hstep as <-.
    split; cbn; try assumption.
    + intros a h' v' Ha Hl Ho.
      apply lookup_insert_Some in Hl as [[<- <-] | [Hne Hl]];
        [discriminate | eauto].
    + intros a Ha.
      destruct (Hall a Ha) as [(h' & v' & Hh' & Ho & Hp) | Hrest];
        [| right; exact Hrest].
      left. exists h', v'. cbn.
      rewrite lookup_insert_ne by congruence. auto.
  - (* CMoveAssign *)
    rewrite app_nil_r.
    destruct (handles st !! h) as [this |] eqn:Hthis; [| discriminate].
    cbn in Hstep. destruct (decide (h = other)) as [-> | Hne].
    + injection Hstep as <-.
      split; cbn; try assumption.
      * intros a d Ha Hd. apply elem_of_app in Hd as [Hd | Hd];
          [eauto |].
        apply DestroyIfOwning_elem in Hd as [Ho ->]. cbn. eauto.
      * intros a h' v' Ha Hl Ho.
        apply lookup_insert_Some in Hl as [[<- <-] | [Hne Hl]];
          [discriminate | eauto].
      * intros a Ha.
        destruct (Hall a Ha) as [(h' & v' & Hh' & Ho & Hp) | [Hd | Hr]].
        -- destruct (decide (h' = other)) as [-> | Hne'].
           ++ right. left. rewrite fmap_app. apply elem_of_app. right.
              rewrite Hthis in Hh'. injection Hh' as ->.
              unfold DestroyIfOwning. rewrite Ho. cbn.
              rewrite Hp. apply list_elem_of_singleton. reflexivity.
           ++ left. exists h', v'. cbn.
              rewrite lookup_insert_ne by congruence. auto.
        -- right. left. rewrite fmap_app. apply elem_of_app. now left.
        -- right. now right.
    + destruct (handles st !! other) as [v |] eqn:Hother; [| discriminate].
      cbn in Hstep. injection Hstep as <-.
      split; cbn; try assumption.
      * intros a d Ha Hd. apply elem_of_app in Hd as [Hd | Hd];
          [eauto |].
        apply DestroyIfOwning_elem in Hd as [Ho ->]. cbn. eauto.
      * intros a h' v' Ha Hl Ho.
        apply lookup_insert_Some in Hl as [[<- <-] | [Hne1 Hl]].
        -- cbn in *. eauto.
        -- apply lookup_insert_Some in Hl as [[<- <-] | [Hne2 Hl]];
             [discriminate | eauto].
      * intros a Ha.
        destruct (Hall a Ha) as [(h' & v' & Hh' & Ho & Hp) | [Hd | Hr]].
        -- destruct (decide (h' = h)) as [-> | Hne1].
           ++ right. left. rewrite fmap_app. apply elem_of_app. right.
              rewrite Hthis in Hh'. injection Hh' as ->.
              unfold DestroyIfOwning. rewrite Ho. cbn.
              rewrite Hp. apply list_elem_of_singleton. reflexivity.
           ++ left. destruct (decide (h' = other)) as [-> | Hne2].
              ** rewrite Hother in Hh'. injection Hh' as ->.
                 exists h. eexists. cbn. rewrite lookup_insert_eq.
                 split; [reflexivity |]. cbn. auto.
              ** exists h', v'. cbn.
                 rewrite !lookup_insert_ne by congruence. auto.
        -- right. left. rewrite fmap_app. apply elem_of_app. now left.
        -- right. now right.
  - (* CRelease *)
    destruct (handles st !! h) as [v |] eqn:Hh; [| discriminate].
    cbn in Hstep. injection Hstep as <-.
    cbn [given_up Release fst].
    destruct (fIsOwning v) eqn:Hown.
    + split; cbn.
      * apply NoDup_app. split; [assumption |]. split.
        -- intros a Ha Ha'. apply list_elem_of_singleton in Ha' as ->.
           exact (Hno _ _ _ Ha Hh Hown eq_refl).
        -- apply NoDup_singleton.
      * intros a Ha. apply elem_of_app in Ha as [Ha | Ha]; [eauto |].
        apply list_elem_of_singleton in Ha as ->.
        exact (owned_generated _ Hwo h v Hh Hown).
      * intros a d Ha Hd. apply elem_of_app in Ha as [Ha | Ha]; [eauto |].
        apply list_elem_of_singleton in Ha as ->.
        exact (owned_alive _ Hwo h v d Hh Hown Hd).
      * intros a h' v' Ha Hl Ho.
        apply lookup_insert_Some in Hl as [[<- <-] | [Hne Hl]];
          [discriminate |].
        apply elem_of_app in Ha as [Ha | Ha]; [eauto |].
        apply list_elem_of_singleton in Ha as ->.
        intros Heq.
        apply Hne. symmetry.
        exact (owners_distinct _ Hwo h' h v' v Hl Hh Ho Hown Heq).
      * intros a Ha.
        destruct (Hall a Ha) as [(h' & v' & Hh' & Ho & Hp) | [Hd | Hr]].
        -- destruct (decide (h' = h)) as [-> | Hne].
           ++ rewrite Hh in Hh'. injection Hh' as <-.
              right. right. apply elem_of_app. right.
              apply list_elem_of_singleton. congruence.
           ++ left. exists h', v'. cbn.
              rewrite lookup_insert_ne by congruence. auto.
        -- right. now left.
        -- right. right. apply elem_of_app. now left.
    + rewrite app_nil_r. split; cbn; try assumption.
      * intros a h' v' Ha Hl Ho.
        apply lookup_insert_Some in Hl as [[<- <-] | [Hne Hl]];
          [discriminate | eauto].
      * intros a Ha.
        destruct (Hall a Ha) as [(h' & v' & Hh' & Ho & Hp) | Hrest];
          [| right; exact Hrest].
        left. exists h', v'. cbn.
        rewrite lookup_insert_ne by congruence. auto.
  - (* CDestroy *)
    rewrite app_nil_r.
    destruct (handles st !! h) as [v |] eqn:Hh; [| discriminate].
    cbn in Hstep. injection Hstep as <-.
    split; cbn; try assumption.
    + intros a d Ha Hd. apply elem_of_app in Hd as [Hd | Hd]; [eauto |].
      apply DestroyIfOwning_elem in Hd as [Ho ->]. cbn. eauto.
    + intros a h' v' Ha Hl Ho.
      apply lookup_delete_Some in Hl as [Hne Hl]. eauto.
    + intros a Ha.
      destruct (Hall a Ha) as [(h' & v' & Hh' & Ho & Hp) | [Hd | Hr]].
      * destruct (decide (h' = h)) as [-> | Hne].
        -- right. left. rewrite fmap_app. apply elem_of_app. right.
           rewrite Hh in Hh'. injection Hh' as ->.
           unfold destructor, DestroyIfOwning. rewrite Ho. cbn.
           rewrite Hp. apply list_elem_of_singleton. reflexivity.
        -- left. exists h', v'. cbn.
           rewrite lookup_delete_ne by congruence. auto.
      * right. left. rewrite fmap_app. apply elem_of_app. now left.
      * right. now right.
Qed.

Lemma given_up_app (a b : list (bool * Z)) :
  given_up (a ++ b) = given_up a ++ given_up b.
Proof.
  induction a as [| [[] p] a IH]; cbn; [reflexivity | |]; now rewrite IH.
Qed.

Lemma run_accounted (cs : list Cmd) :
  forall (st st' : State) (rel : list Z),
    well_owned st -> accounted st rel -> run cs st = Some st' ->
    well_owned st' /\ accounted st' (rel ++ given_up (released cs st)).
Proof.
  induction cs as [| c cs IH]; intros st st' rel Hwo Hacc Hrun;
    cbn in Hrun; cbn [released].
  - injection Hrun as <-. now rewrite app_nil_r.
  - destruct (step c st) as [st1 |] eqn:Hstep; [| discriminate].
    cbn in Hrun. rewrite given_up_app, app_assoc.
    eapply IH; [| | exact Hrun].
    + eapply step_well_owned; eassumption.
    + eapply step_accounted; eassumption.
Qed.

Lemma released_without_Release (cs : list Cmd) :
  forall st : State,
    (forall h : nat, CRelease h ∉ cs) -> released cs st = [].
Proof.
  induction cs as [| c cs IH]; intros st Hno; cbn; [reflexivity |].
  destruct (step c st) as [st1 |]; [| reflexivity].
  rewrite IH.
  - rewrite app_nil_r. destruct c; try reflexivity.
    exfalso. eapply Hno. apply list_elem_of_here.
  - intros h Hh. eapply Hno. apply list_elem_of_further. exact Hh.
Qed.

(** X10: when a program over handles has run from the start and no handle
    is left alive, the objects destroyed together with the objects given up
    to the caller (the pointers that [Release] returned for a handle that
    owned its object) are exactly the objects that [GenerateValue] made,
    each one once: nothing is leaked and nothing is destroyed twice or after
    its owner gave it up.  A [Release] on a handle that does not own hands
    out the pointer without the ownership and is not counted.  Without
    [Release] the destroyed objects alone are the generated ones. *)
Theorem RValue_objects_destroyed_or_released (a : Z) (cs : list Cmd)
    (st : State) :
  run cs (initial a) = Some st ->
  handles st = ∅ ->
  (dObjPtr <$> destroyed st) ++ given_up (released cs (initial a))
  ≡ₚ seqZ a (next st - a)
  /\ ((forall h : nat, CRelease h ∉ cs) ->
      dObjPtr <$> destroyed st ≡ₚ seqZ a (next st - a)).
Proof.
  intros Hrun Hempty.
  destruct (run_accounted cs (initial a) st [] (initial_well_owned a)
              (initial_accounted a) Hrun) as [Hwo Hacc].
  cbn [app] in Hacc.
  assert (Hfirst : first st = a).
  { clear Hwo Hacc Hempty. revert Hrun.
    change a with (first (initial a)) at 2.
    generalize (initial a). induction cs as [| c cs IH]; intros st0 Hrun;
      cbn in Hrun.
    - now injection Hrun as <-.
    - destruct (step c st0) as [st1 |] eqn:Hstep; [| discriminate].
      cbn in Hrun. rewrite (IH _ Hrun).
      destruct c; cbn in Hstep; unfold declare in Hstep;
        repeat match type of Hstep with
        | context [handles st0 !! ?h] =>
            destruct (handles st0 !! h); cbn in Hstep
        | context [<[?k := ?x]> (handles st0) !! ?h] =>
            destruct (<[k := x]> (handles st0) !! h); cbn in Hstep
        | context [decide ?P] => destruct (decide P); cbn in Hstep
        end; try discriminate; injection Hstep as <-; reflexivity. }
  assert (Hperm :
    (dObjPtr <$> destroyed st) ++ given_up (released cs (initial a))
    ≡ₚ seqZ a (next st - a)).
  { apply NoDup_Permutation.
    - apply NoDup_app. split; [apply (destroyed_once _ Hwo) |]. split.
      + intros x Hx Hx'. apply list_elem_of_fmap in Hx as (d & -> & Hd).
        exact (released_not_destroyed _ _ Hacc _ d Hx' Hd eq_refl).
      + apply (released_once _ _ Hacc).
    - apply NoDup_seqZ.
    - intros x. rewrite elem_of_seqZ, elem_of_app. split.
      + intros [Hx | Hx].
        * apply list_elem_of_fmap in Hx as (d & -> & Hd).
          pose proof (destroyed_generated _ Hwo d Hd). lia.
        * pose proof (released_generated _ _ Hacc x Hx). lia.
      + intros Hx.
        destruct (all_accounted _ _ Hacc x ltac:(lia))
          as [(h & v & Hh & _) | [Hd | Hr]]; [| now left | now right].
        rewrite Hempty, lookup_empty in Hh. discriminate. }
  split; [exact Hperm |].
  intros Hno. rewrite released_without_Release in Hperm by assumption.
  now rewrite app_nil_r in Hperm.
Qed.

Lemma RValue_objects_destroyed_or_released_witness :
  (exists st : State,
     run program1 (initial 1000) = Some st
     /\ (dObjPtr <$> destroyed st)
        ++ given_up (released program1 (initial 1000))
        ≡ₚ seqZ 1000 (next st - 1000)
     /\ released program1 (initial 1000) = [(true, 1000)]
     /\ dObjPtr <$> destroyed st = [1001])
  /\ (exists st : State,
        run program2 (initial 1000) = Some st
        /\ (dObjPtr <$> destroyed st)
           ++ given_up (released program2 (initial 1000))
           ≡ₚ seqZ 1000 (next st - 1000)
        /\ released program2 (initial 1000) = [(false, 1000)]
        /\ dObjPtr <$> destroyed st = [1000]).
Proof.
  split.
  - eexists. split; [vm_compute; reflexivity |].
    split; [| split; vm_compute; reflexivity].
    apply (proj1 (RValue_objects_destroyed_or_released 1000 program1 _
                    ltac:(vm_compute; reflexivity)
                    ltac:(vm_compute; reflexivity))).
  - eexists. split; [vm_compute; reflexivity |].
    split; [| split; vm_compute; reflexivity].
    apply (proj1 (RValue_objects_destroyed_or_released 1000 program2 _
                    ltac:(vm_compute; reflexivity)
                    ltac:(vm_compute; reflexivity))).
Defined.

End ValueAccountFacts.

(** ** Layout members of a record field *)

Section RecordLayoutFacts.

Import RRecordField.

Variable GetItemPadding : Z -> Z -> Z.

Lemma fOffsets_fold (items : list (Item * Z)) :
  forall r : t,
    fOffsets (fold_left (attach_item GetItemPadding) items r)
    = fOffsets r ++ map snd items.
Proof.
  induction items as [| io items IH]; intros r; cbn.
  - now rewrite app_nil_r.
  - rewrite IH. cbn. now rewrite <- app_assoc.
Qed.

Lemma fMaxAlignment_fold (items : list (Item * Z)) :
  forall r : t,
    fMaxAlignment (fold_left (attach_item GetItemPadding) items r)
    = fold_left Z.max (map (fun io => GetAlignment io.1) items)
        (fMaxAlignment r).
Proof.
  induction items as [| io items IH]; intros r; cbn; [reflexivity |].
  now rewrite IH.
Qed.

Lemma fold_left_max_spec (l : list Z) :
  forall m : Z,
    m <= fold_left Z.max l m
    /\ Forall (fun x => x <= fold_left Z.max l m) l
    /\ (fold_left Z.max l m = m \/ fold_left Z.max l m ∈ l).
Proof.
  induction l as [| x l IH]; intros m; cbn.
  - split; [lia |]. split; [constructor | now left].
  - destruct (IH (Z.max m x)) as (Hge & Hall & Hin).
    split; [lia |]. split.
    + constructor; [lia | exact Hall].
    + destruct Hin as [Heq | Hin].
      * destruct (Z.max_spec m x) as [[_ Hmax] | [_ Hmax]];
          rewrite Hmax in *.
        -- right. rewrite Heq. apply list_elem_of_here.
        -- now left.
      * right. now apply list_elem_of_further.
Qed.

Lemma pow2_divide_le (a m : Z) :
  (exists j, 0 <= j /\ a = 2 ^ j) -> (exists k, 0 <= k /\ m = 2 ^ k) ->
  a <= m -> (a | m).
Proof.
  intros (j & Hj & ->) (k & Hk & ->) Hle.
  assert (j <= k) by (apply (Z.pow_le_mono_r_iff 2); lia).
  exists (2 ^ (k - j)). rewrite <- Z.pow_add_r by lia. f_equal. lia.
Qed.

(** X11: the constructor of a record field keeps the offsets it is given,
    in the order of the items, and makes [fMaxAlignment] (the value of
    [GetAlignment()]) the largest of 1 and the alignments of the items: it
    is at least 1 and at least every item's alignment, and when the
    alignments are powers of two it is a multiple of each of them. *)
Theorem RRecordField_offsets_and_alignment (itemFields : list (Item * Z)) :
  let r := RRecordField GetItemPadding itemFields in
  fOffsets r = map snd itemFields
  /\ length (fOffsets r) = length (fSubFields r)
  /\ 1 <= fMaxAlignment r
  /\ Forall (fun item => GetAlignment item <= fMaxAlignment r) (fSubFields r)
  /\ (fMaxAlignment r = 1
      \/ exists item, item ∈ fSubFields r
                      /\ GetAlignment item = fMaxAlignment r)
  /\ (Forall (fun item => exists k, 0 <= k /\ GetAlignment item = 2 ^ k)
        (fSubFields r) ->
      Forall (fun item => (GetAlignment item | fMaxAlignment r))
        (fSubFields r)).
Proof.
  cbv zeta. unfold RRecordField.
  rewrite fOffsets_fold, fSubFields_fold, fMaxAlignment_fold.
  cbn [fOffsets fSubFields fMaxAlignment base app].
  set (aligns := map (fun io : Item * Z => GetAlignment io.1) itemFields).
  destruct (fold_left_max_spec aligns 1) as (Hge & Hall & Hin).
  assert (Hitems :
    Forall (fun item => GetAlignment item <= fold_left Z.max aligns 1)
      (map fst itemFields)).
  { rewrite Forall_forall in Hall. rewrite Forall_forall.
    intros item Hitem. apply Hall.
    apply list_elem_of_In in Hitem. apply in_map_iff in Hitem.
    destruct Hitem as (io & <- & Hio). apply list_elem_of_In.
    unfold aligns. apply in_map_iff. now exists io. }
  assert (Hmax :
    fold_left Z.max aligns 1 = 1
    \/ exists item, item ∈ map fst itemFields
                    /\ GetAlignment item = fold_left Z.max aligns 1).
  { destruct Hin as [Heq | Hin]; [now left | right].
    apply list_elem_of_In in Hin. unfold aligns in Hin at 2.
    apply in_map_iff in Hin.
    destruct Hin as (io & Heq & Hio). exists io.1. split; [| exact Heq].
    apply list_elem_of_In. apply in_map_iff. now exists io. }
  split; [reflexivity |]. split; [now rewrite !length_map |].
  split; [exact Hge |]. split; [exact Hitems |]. split; [exact Hmax |].
  intros Hpow. rewrite Forall_forall in Hpow, Hitems. rewrite Forall_forall.
  intros item Hitem. apply pow2_divide_le.
  - now apply Hpow.
  - destruct Hmax as [-> | (item' & Hitem' & <-)].
    + exists 0. split; [lia | reflexivity].
    + now apply Hpow.
  - now apply Hitems.
Qed.

End RecordLayoutFacts.

Section RecordLayoutExamples.

Import RRecordField.

Lemma RRecordField_offsets_and_alignment_witness :
  fOffsets (RRecordField (fun _ _ => 0)
              [(mkItem 7 4 4, 0); (mkItem 1 8 24, 8); (mkItem 3 1 1, 32)])
  = [0; 8; 32]
  /\ Forall (fun item =>
               (GetAlignment item
                | fMaxAlignment
                    (RRecordField (fun _ _ => 0)
                       [(mkItem 7 4 4, 0); (mkItem 1 8 24, 8);
                        (mkItem 3 1 1, 32)])))
       [mkItem 7 4 4; mkItem 1 8 24; mkItem 3 1 1].
Proof.
  destruct (RRecordField_offsets_and_alignment (fun _ _ => 0)
              [(mkItem 7 4 4, 0); (mkItem 1 8 24, 8); (mkItem 3 1 1, 32)])
    as (Hoff & _ & _ & _ & _ & Hdiv).
  split; [exact Hoff |].
  apply Hdiv. cbn.
  repeat constructor;
    [exists 2 | exists 3 | exists 0]; split; try lia; reflexivity.
Defined.

End RecordLayoutExamples.

(** ** Iterating over a proxied collection *)

Section CollectionIterationFacts.

Import RCollectionIterableOnce.

Context {IterState : Type}.

Implicit Types (fOwner : RCollectionIterableOnce.t IterState)
  (st : IterState).

Lemma elements_strided fOwner st (last : RIterator IterState) (n : nat) :
  0 < fStride fOwner ->
  fElementPtr last = fBegin fOwner + Z.of_nat n * fStride fOwner ->
  forall (m j fuel : nat),
    (j + m = n)%nat -> (m <= fuel)%nat ->
    elements fuel fOwner
      (mkIterator (fBegin fOwner + Z.of_nat (S j) * fStride fOwner) st
         (fBegin fOwner + Z.of_nat j * fStride fOwner)) last
    = Some ((fun k => fBegin fOwner + Z.of_nat k * fStride fOwner)
              <$> seq j m).
Proof.
  intros Hstride Hlast.
  induction m as [| m IH]; intros j fuel Hsum Hfuel.
  - assert (j = n) as -> by lia.
    destruct fuel; cbn [elements fElementPtr]; rewrite Hlast, Z.eqb_refl;
      reflexivity.
  - destruct fuel as [| fuel]; [lia |].
    cbn [elements fElementPtr]. rewrite Hlast.
    destruct (Z.eqb_spec (fBegin fOwner + Z.of_nat j * fStride fOwner)
                (fBegin fOwner + Z.of_nat n * fStride fOwner)) as [Heq | _];
      [nia |].
    unfold Advance. cbn [fIterator fIterState].
    destruct (Z.eqb_spec (fStride fOwner) 0) as [Hz | _]; [lia |].
    cbn [negb].
    replace (fBegin fOwner + Z.of_nat (S j) * fStride fOwner
             + fStride fOwner)
      with (fBegin fOwner + Z.of_nat (S (S j)) * fStride fOwner) by lia.
    rewrite (IH (S j) fuel) by lia. reflexivity.
Qed.

(** X12: over an array-backed collection (a stride greater than 0) whose
    end pointer lies [n] strides after its begin pointer, the range-based
    loop from [begin()] to [end()] ends and sees exactly the [n] element
    addresses [fBegin], [fBegin + stride], ..., in this order, without a
    call of [fNext]. *)
Theorem contiguous_iteration_visits_every_element fOwner st (n fuel : nat) :
  0 < fStride fOwner ->
  fEnd fOwner = fBegin fOwner + Z.of_nat n * fStride fOwner ->
  (n <= fuel)%nat ->
  elements fuel fOwner (begin_ fOwner st) (end_ fOwner st)
  = Some (strided (fBegin fOwner) (fStride fOwner) n)
  /\ forall fNext' : IterState -> Z * IterState,
       elements fuel
         (mk (fStride fOwner) (fBegin fOwner) (fEnd fOwner) fNext')
         (begin_ (mk (fStride fOwner) (fBegin fOwner) (fEnd fOwner) fNext')
            st)
         (end_ (mk (fStride fOwner) (fBegin fOwner) (fEnd fOwner) fNext') st)
       = elements fuel fOwner (begin_ fOwner st) (end_ fOwner st).
Proof.
  intros Hstride Hend Hfuel.
  assert (Hrun : forall fOwner' : RCollectionIterableOnce.t IterState,
    fStride fOwner' = fStride fOwner -> fBegin fOwner' = fBegin fOwner ->
    fEnd fOwner' = fEnd fOwner ->
    elements fuel fOwner' (begin_ fOwner' st) (end_ fOwner' st)
    = Some (strided (fBegin fOwner) (fStride fOwner) n)).
  { intros fOwner' Hs Hb He.
    unfold begin_, end_, Advance. cbn [fIterator fIterState].
    rewrite Hs.
    destruct (Z.eqb_spec (fStride fOwner) 0) as [Hz | _]; [lia |].
    cbn [negb]. unfold strided. rewrite <- Hs, <- Hb.
    replace (fBegin fOwner' + fStride fOwner')
      with (fBegin fOwner' + Z.of_nat 1 * fStride fOwner') by lia.
    replace (fBegin fOwner') with
      (fBegin fOwner' + Z.of_nat 0 * fStride fOwner') at 2 by lia.
    apply (elements_strided fOwner' st _ n); cbn [fElementPtr]; lia. }
  split.
  - now apply Hrun.
  - intros fNext'. rewrite (Hrun fOwner) by reflexivity.
    now apply Hrun.
Qed.

Lemma elements_until_null fOwner (last : RIterator IterState) (p : Z) :
  fStride fOwner = 0 -> fElementPtr last = nullptr ->
  forall (es : list Z) st (fuel : nat),
    next_results (fNext fOwner) st (S (length es)) = es ++ [nullptr] ->
    Forall (fun e => e <> nullptr) es ->
    (length es <= fuel)%nat ->
    elements fuel fOwner
      (mkIterator p (fNext fOwner st).2 (fNext fOwner st).1) last
    = Some es.
Proof.
  intros Hstride Hlast.
  induction es as [| e es IH]; intros st fuel Hres Hnn Hfuel.
  - cbn in Hres. injection Hres as Hnull.
    destruct fuel; cbn [elements fElementPtr];
      rewrite Hlast, Hnull, Z.eqb_refl; reflexivity.
  - destruct fuel as [| fuel]; [cbn in Hfuel; lia |].
    cbn [length next_results] in Hres. cbn [app] in Hres.
    injection Hres as He Hrest.
    apply Forall_cons in Hnn as [Hne Hnn].
    cbn [elements fElementPtr]. rewrite Hlast, He.
    destruct (Z.eqb_spec e nullptr) as [Heq | _]; [contradiction |].
    unfold Advance. cbn [fIterator fIterState]. rewrite Hstride.
    cbn [Z.eqb negb].
    rewrite (IH (fNext fOwner st).2 fuel Hrest Hnn) by (cbn in Hfuel; lia).
    reflexivity.
Qed.

(** X13: over a collection that is not array-backed (stride 0), the loop
    from [begin()] to [end()] sees the elements that [fNext] returns, in
    order, up to the first null pointer, and ends there: elements that
    [fNext] would return after a null pointer are never asked for. *)
Theorem proxied_iteration_stops_at_first_null fOwner st (es : list Z)
    (fuel : nat) :
  fStride fOwner = 0 ->
  next_results (fNext fOwner) st (S (length es)) = es ++ [nullptr] ->
  Forall (fun e => e <> nullptr) es ->
  (length es <= fuel)%nat ->
  elements fuel fOwner (begin_ fOwner st) (end_ fOwner st) = Some es.
Proof.
  intros Hstride Hres Hnn Hfuel.
  unfold begin_, end_, Advance. cbn [fIterator fIterState].
  rewrite Hstride. cbn [Z.eqb negb].
  now apply elements_until_null.
Qed.

End CollectionIterationFacts.

Section CollectionIterationExamples.

Import RCollectionIterableOnce.

Lemma contiguous_iteration_visits_every_element_witness :
  elements 3 (mk 8 1000 1024 list_next) (begin_ (mk 8 1000 1024 list_next) [])
    (end_ (mk 8 1000 1024 list_next) [])
  = Some [1000; 1008; 1016].
Proof.
  apply (proj1 (contiguous_iteration_visits_every_element
                  (mk 8 1000 1024 list_next) [] 3 3
                  ltac:(cbn; lia) ltac:(reflexivity) ltac:(lia))).
Defined.

Lemma proxied_iteration_stops_at_first_null_witness :
  elements 2 (mk 0 500 600 list_next)
    (begin_ (mk 0 500 600 list_next) [7; 9; 0; 11])
    (end_ (mk 0 500 600 list_next) [7; 9; 0; 11])
  = Some [7; 9].
Proof.
  apply (proxied_iteration_stops_at_first_null (mk 0 500 600 list_next)
           [7; 9; 0; 11] [7; 9] 2).
  - reflexivity.
  - reflexivity.
  - repeat constructor; discriminate.
  - cbn. lia.
Defined.

Example contiguous_iteration_needs_all_turns :
  elements 2 (mk 8 1000 1024 list_next) (begin_ (mk 8 1000 1024 list_next) [])
    (end_ (mk 8 1000 1024 list_next) [])
  = None.
Proof. reflexivity. Qed.

End CollectionIterationExamples.

(** ** One entry of a cardinality field and the bulk read *)

Section CardinalityEntryFacts.

Import RCardinalityField.

Lemma as_SizeT_size_t (sz : SizeT) (x : Z) :
  as_SizeT sz (Mach.size_t x) = as_SizeT sz x.
Proof.
  unfold as_SizeT, Mach.size_t, Mach.wrap. now rewrite Z.mod_mod by lia.
Qed.

Lemma ReadInClusterImpl_entry (sz : SizeT) (col : OffsetColumn.t)
    (cluster : Z) (i : nat) :
  cluster = OffsetColumn.fClusterId col ->
  (i < length (OffsetColumn.offsets col))%nat ->
  RCardinalityEntry.ReadInClusterImpl sz col
    (RClusterIndex.mk cluster (Z.of_nat i))
  = Some (as_SizeT sz
            (OffsetColumn.offset col i
             - match i with
               | O => 0
               | S j => OffsetColumn.offset col j
               end)).
Proof.
  intros -> Hi.
  unfold RCardinalityEntry.ReadInClusterImpl, OffsetColumn.GetCollectionInfo.
  cbn [RClusterIndex.GetClusterId RClusterIndex.GetIndex].
  rewrite Z.eqb_refl. destruct (Z.leb_spec 0 (Z.of_nat i)); [| lia].
  cbn [andb]. rewrite Nat2Z.id.
  destruct (OffsetColumn.offsets col !! i) as [idxEnd |] eqn:Hend.
  2:{ apply lookup_ge_None in Hend. lia. }
  cbn [mbind option_bind fst snd]. rewrite as_SizeT_size_t.
  assert (Hoff : OffsetColumn.offset col i = idxEnd)
    by (unfold OffsetColumn.offset; now rewrite Hend).
  rewrite Hoff. reflexivity.
Qed.

Lemma ReadBulkImpl_entries (fuel : nat) (sz : SizeT)
    (col : OffsetColumn.t) (fFirstIndex : RClusterIndex.t) (fCount : Z)
    (typedValues : list Z) :
  RClusterIndex.GetClusterId fFirstIndex = OffsetColumn.fClusterId col ->
  0 <= RClusterIndex.GetIndex fFirstIndex ->
  1 <= fCount ->
  RClusterIndex.GetIndex fFirstIndex + fCount
  <= Z.of_nat (length (OffsetColumn.offsets col)) ->
  RClusterIndex.GetIndex fFirstIndex + fCount < 2 ^ 64 ->
  Forall (fun o => 0 <= o < 2 ^ 64) (OffsetColumn.offsets col) ->
  fCount <= Z.of_nat (length typedValues) ->
  fCount - 1 <= Z.of_nat fuel ->
  exists typedValues' : list Z,
    ReadBulkImpl fuel sz col fFirstIndex fCount typedValues
    = Some (RFieldBase.kAllSet, typedValues')
    /\ forall k : nat,
         Z.of_nat k < fCount ->
         typedValues' !! k
         = Some (as_SizeT sz
                   (OffsetColumn.offset col
                      (Z.to_nat (RClusterIndex.GetIndex fFirstIndex) + k)
                    - match (Z.to_nat (RClusterIndex.GetIndex fFirstIndex)
                             + k)%nat with
                      | O => 0
                      | S j => OffsetColumn.offset col j
                      end)).
Proof.
  intros Hcluster Hfirst Hcount Hrange Hindex Hbound Hlen Hfuel.
  unfold ReadBulkImpl, OffsetColumn.GetCollectionInfo.
  rewrite Hcluster, Z.eqb_refl.
  destruct (Z.leb_spec 0 (RClusterIndex.GetIndex fFirstIndex)); [| lia].
  cbn [andb].
  destruct (OffsetColumn.offsets col
              !! Z.to_nat (RClusterIndex.GetIndex fFirstIndex))
    as [idxEnd |] eqn:Hend.
  2:{ apply lookup_ge_None in Hend. lia. }
  cbn [mbind option_bind fst snd].
  set (idxStart :=
         match Z.to_nat (RClusterIndex.GetIndex fFirstIndex) with
         | O => 0
         | S j => OffsetColumn.offset col j
         end).
  assert (HendB : 0 <= idxEnd < 2 ^ 64).
  { rewrite Forall_forall in Hbound. apply Hbound.
    eapply list_elem_of_lookup_2; eassumption. }
  assert (Hlast :
    Mach.size_t (idxStart + Mach.size_t (idxEnd - idxStart))
    = OffsetColumn.offset col
        (Z.to_nat (RClusterIndex.GetIndex fFirstIndex + 1 - 1))).
  { unfold Mach.size_t, Mach.wrap. rewrite Zplus_mod_idemp_r.
    replace (idxStart + (idxEnd - idxStart)) with idxEnd by lia.
    rewrite Z.mod_small by assumption.
    unfold OffsetColumn.offset.
    replace (RClusterIndex.GetIndex fFirstIndex + 1 - 1)
      with (RClusterIndex.GetIndex fFirstIndex) by lia.
    now rewrite Hend. }
  unfold store_at. rewrite decide_True by lia.
  cbn [mbind option_bind RClusterIndex.GetIndex].
  rewrite (size_t_small (fCount - 1)) by lia.
  destruct (loop_spec sz col fFirstIndex fCount Hcluster Hfirst Hrange
              Hindex fuel 1 (fCount - 1)
              (Mach.size_t (idxStart + Mach.size_t (idxEnd - idxStart)))
              (<[0%nat := as_SizeT sz (Mach.size_t (idxEnd - idxStart))]>
                 typedValues))
    as (tv' & Hloop & Hlen' & Hout & Hin); try lia.
  { rewrite length_insert. lia. }
  rewrite Hloop. cbn [mbind option_bind].
  exists tv'. split; [reflexivity |].
  intros [| k] Hk.
  - rewrite Hout by lia. rewrite list_lookup_insert_eq by lia.
    rewrite as_SizeT_size_t, Nat.add_0_r. fold idxStart.
    assert (Hoff :
      OffsetColumn.offset col
        (Z.to_nat (RClusterIndex.GetIndex fFirstIndex)) = idxEnd)
      by (unfold OffsetColumn.offset; now rewrite Hend).
    rewrite Hoff. reflexivity.
  - rewrite Hin by lia. do 3 f_equal.
    + replace (Z.to_nat (RClusterIndex.GetIndex fFirstIndex) + S k)%nat
        with (S (Z.to_nat (RClusterIndex.GetIndex fFirstIndex) + k)) by lia.
      f_equal. lia.
Qed.

(** X14: the bulk read of a cardinality field and its single reads agree:
    for a range of [fCount >= 1] entries inside the cluster of the column,
    entry [k] of the destination of [ReadBulkImpl] is the value that
    [ReadInClusterImpl] stores for the cluster index [fFirstIndex + k]. *)
Theorem ReadBulkImpl_agrees_with_single_reads (fuel : nat) (sz : SizeT)
    (col : OffsetColumn.t) (fFirstIndex : RClusterIndex.t) (fCount : Z)
    (typedValues : list Z) :
  RClusterIndex.GetClusterId fFirstIndex = OffsetColumn.fClusterId col ->
  0 <= RClusterIndex.GetIndex fFirstIndex ->
  1 <= fCount ->
  RClusterIndex.GetIndex fFirstIndex + fCount
  <= Z.of_nat (length (OffsetColumn.offsets col)) ->
  RClusterIndex.GetIndex fFirstIndex + fCount < 2 ^ 64 ->
  Forall (fun o => 0 <= o < 2 ^ 64) (OffsetColumn.offsets col) ->
  fCount <= Z.of_nat (length typedValues) ->
  fCount - 1 <= Z.of_nat fuel ->
  exists typedValues' : list Z,
    ReadBulkImpl fuel sz col fFirstIndex fCount typedValues
    = Some (RFieldBase.kAllSet, typedValues')
    /\ forall k : nat,
         Z.of_nat k < fCount ->
         is_Some (typedValues' !! k)
         /\ typedValues' !! k
            = RCardinalityEntry.ReadInClusterImpl sz col
                (RClusterIndex.add fFirstIndex (Z.of_nat k)).
Proof.
  intros Hcluster Hfirst Hcount Hrange Hindex Hbound Hlen Hfuel.
  destruct (ReadBulkImpl_entries fuel sz col fFirstIndex fCount typedValues
              Hcluster Hfirst Hcount Hrange Hindex Hbound Hlen Hfuel)
    as (tv' & Hrun & Hk).
  exists tv'. split; [exact Hrun |]. intros k Hlt.
  rewrite (Hk k Hlt). split; [eexists; reflexivity |].
  unfold RClusterIndex.add. rewrite size_t_small by lia.
  replace (RClusterIndex.GetIndex fFirstIndex + Z.of_nat k)
    with (Z.of_nat (Z.to_nat (RClusterIndex.GetIndex fFirstIndex) + k))
    by lia.
  rewrite (ReadInClusterImpl_entry sz col _ _ Hcluster) by lia.
  reflexivity.
Qed.

Lemma ReadBulkImpl_agrees_with_single_reads_witness :
  exists typedValues' : list Z,
    ReadBulkImpl 4 UInt32 column0 (RClusterIndex.mk 0 1) 5 [0; 0; 0; 0; 0; 77]
    = Some (RFieldBase.kAllSet, typedValues')
    /\ typedValues' !! 4%nat
       = RCardinalityEntry.ReadInClusterImpl UInt32 column0
           (RClusterIndex.mk 0 5)
    /\ typedValues' !! 4%nat = Some 3.
Proof.
  destruct (ReadBulkImpl_agrees_with_single_reads 4 UInt32 column0
              (RClusterIndex.mk 0 1) 5 [0; 0; 0; 0; 0; 77])
    as (tv' & Hrun & Hk).
  - reflexivity.
  - cbn. lia.
  - lia.
  - cbn. lia.
  - cbn. lia.
  - repeat constructor; lia.
  - cbn. lia.
  - lia.
  - exists tv'. split; [exact Hrun |].
    destruct (Hk 4%nat ltac:(lia)) as [_ H4].
    split; [exact H4 |]. rewrite H4. reflexivity.
Defined.

(** X15: what a vector field writes, a cardinality field reads: after the
    entries of a list are appended to a freshly connected vector field, a
    cardinality field on the offset column reads, for entry [i], the number
    of items of the [i]-th vector (converted to [SizeT], which changes
    nothing for a number that [SizeT] can hold). *)
Theorem cardinality_reads_sizes_of_appended_vectors (sz : SizeT)
    (cluster ips ops : Z) (entries : list (list Z)) :
  Forall (fun v => Z.of_nat (length v) < 2 ^ 32) entries ->
  RRVecField.total entries < 2 ^ 64 ->
  exists f : RRVecField.t,
    RRVecField.append_all (RRVecField.fresh cluster ips ops) entries = Some f
    /\ forall (i : nat) (v : list Z),
         entries !! i = Some v ->
         RCardinalityEntry.ReadInClusterImpl sz (RRVecField.fOffsetColumn f)
           (RClusterIndex.mk cluster (Z.of_nat i))
         = Some (Z.of_nat (length v)).
Proof.
  intros Hsmall Hfit.
  destruct (append_all_spec entries (RRVecField.fresh cluster ips ops)
              Hsmall) as (f & Hrun & _ & Hoff & _ & Hcid);
    [cbn; lia | cbn; lia |].
  cbn [RRVecField.fresh RRVecField.fNWritten RRVecField.fOffsetColumn
       OffsetColumn.offsets OffsetColumn.fPages OffsetColumn.fClusterId
       concat app] in Hoff, Hcid.
  exists f. split; [exact Hrun |]. intros i v Hi.
  unfold RCardinalityEntry.ReadInClusterImpl. rewrite <- Hcid.
  rewrite (GetCollectionInfo_after_appends _ entries i v Hoff Hfit Hi).
  cbn [mbind option_bind fst snd]. f_equal.
  apply as_SizeT_small.
  rewrite Forall_forall in Hsmall.
  pose proof (Hsmall v ltac:(eapply list_elem_of_lookup_2; eassumption)).
  assert (2 ^ 32 <= 2 ^ bits sz) by (destruct sz; cbn; lia). lia.
Qed.

Lemma cardinality_reads_sizes_of_appended_vectors_witness :
  exists f : RRVecField.t,
    RRVecField.append_all (RRVecField.fresh 0 4 8) [[1; 2; 3]; []; [4]]
    = Some f
    /\ RCardinalityEntry.ReadInClusterImpl UInt32
         (RRVecField.fOffsetColumn f) (RClusterIndex.mk 0 2)
       = Some 1.
Proof.
  destruct (cardinality_reads_sizes_of_appended_vectors UInt32 0 4 8
              [[1; 2; 3]; []; [4]])
    as (f & Hrun & Hread).
  - repeat constructor.
  - reflexivity.
  - exists f. split; [exact Hrun |].
    exact (Hread 2%nat [4] eq_refl).
Defined.

End CardinalityEntryFacts.

(** ** The stack of the schema iterator *)

Section SchemaStackFacts.

Import SchemaIterator SchemaStack.

Lemma fits_int_deref (root : Field) (ptr : FieldPtr) :
  fits_int root -> forall u : Field, deref root ptr = Some u -> fits_int u.
Proof.
  intros Hroot. induction ptr as [| i parent IH]; intros u Hu; cbn in Hu.
  - now injection Hu as <-.
  - destruct (deref root parent) as [[name cs] |]; [| discriminate].
    cbn in Hu. specialize (IH _ eq_refl).
    apply fits_int_unfold in IH as [_ Hall].
    rewrite Forall_forall in Hall. apply Hall.
    eapply list_elem_of_lookup_2. exact Hu.
Qed.

Lemma well_stacked_depth (it : iterator) :
  well_stacked it ->
  forall top rest, it = top :: rest -> length (fFieldPtr top) = length it.
Proof.
  induction it as [| p it IH]; intros Hws top rest Heq; [discriminate |].
  injection Heq as <- <-. cbn in Hws.
  destruct Hws as (i & parent & Hptr & _ & Hrest). rewrite Hptr. cbn.
  f_equal. destruct it as [| below it'].
  - now subst parent.
  - destruct Hrest as [-> Hws']. exact (IH Hws' below it' eq_refl).
Qed.

Lemma climb_keeps_stack (root : Field) :
  fits_int root ->
  forall (rest : list Position) (top : Position),
    well_stacked (top :: rest) ->
    is_Some (deref root (fFieldPtr top)) ->
    exists it' : iterator,
      climb root top rest = Some it'
      /\ (it' = end_ root \/ well_stacked it' /\ valid root it')
      /\ (length it' <= length (top :: rest))%nat.
Proof.
  intros Hroot.
  induction rest as [| below rest IH]; intros [ptr idx] Hws Hvalid.
  - cbn in Hws. destruct Hws as (i & parent & -> & -> & ->).
    cbn in Hvalid. destruct Hvalid as [u Hu].
    destruct root as [name cs]. cbn in Hu.
    pose proof (proj1 (proj1 (fits_int_unfold name cs) Hroot)) as Hfit.
    pose proof (lookup_lt_Some _ _ _ Hu) as Hi.
    rewrite (climb_sibling (mkField name cs) [] name cs i []) by auto.
    destruct (decide (S i < length cs)%nat) as [Hmore | Hlast].
    + eexists. split; [reflexivity |]. split; [| cbn; lia].
      right. split.
      * cbn. exists (S i), []. auto.
      * eexists. split; [reflexivity |]. cbn.
        now apply lookup_lt_is_Some.
    + eexists. split; [reflexivity |]. split; [now left | cbn; lia].
  - cbn [well_stacked] in Hws.
    destruct Hws as (i & parent & Hptr & Hidx & Hparent & Hws').
    cbn [fFieldPtr fIdxInParent] in Hptr, Hidx. subst ptr idx.
    cbn [fFieldPtr] in Hvalid. destruct Hvalid as [u Hu]. cbn in Hu.
    destruct (deref root parent) as [[name cs] |] eqn:Hp; [| discriminate].
    cbn in Hu.
    pose proof (fits_int_deref root parent Hroot _ Hp) as Hfitp.
    pose proof (proj1 (proj1 (fits_int_unfold name cs) Hfitp)) as Hfit.
    pose proof (lookup_lt_Some _ _ _ Hu) as Hi.
    rewrite (climb_sibling root parent name cs i (below :: rest)) by auto.
    destruct (decide (S i < length cs)%nat) as [Hmore | Hlast].
    + eexists. split; [reflexivity |]. split; [| cbn; lia].
      right. split.
      * cbn [well_stacked fFieldPtr fIdxInParent].
        exists (S i), parent. auto.
      * eexists. split; [reflexivity |]. cbn. rewrite Hp. cbn.
        now apply lookup_lt_is_Some.
    + destruct (IH below Hws') as (it' & Hclimb & Hshape & Hlen).
      { rewrite <- Hparent, Hp. eauto. }
      exists it'. split; [exact Hclimb |]. split; [exact Hshape |].
      cbn in *. lia.
Qed.

(** X16: the schema iterator keeps its stack in shape.  On a tree in which
    every field has fewer subfields than an [int] can count, [begin()] is
    the end iterator or a well-formed stack on a field of the tree, and from
    a well-formed stack on a field of the tree [Advance] is defined and
    leads to the end iterator or again to a well-formed stack on a field of
    the tree, at most one entry higher; a well-formed stack has as many
    entries as the field under the iterator lies below the root. *)
Theorem schema_iterator_stack_is_ancestor_chain (root : Field) :
  fits_int root ->
  (begin_ root = end_ root
   \/ well_stacked (begin_ root) /\ valid root (begin_ root))
  /\ (forall it : iterator,
        well_stacked it -> valid root it ->
        exists it' : iterator,
          Advance root it = Some it'
          /\ (it' = end_ root \/ well_stacked it' /\ valid root it')
          /\ (length it' <= S (length it))%nat)
  /\ (forall (it : iterator) (ptr : FieldPtr),
        well_stacked it -> current it = Some ptr ->
        length ptr = length it).
Proof.
  intros Hroot. split; [| split].
  - unfold begin_, end_. case_bool_decide as Hnil; [now left | right].
    split.
    + cbn. exists 0%nat, []. auto.
    + eexists. split; [reflexivity |]. cbn.
      destruct (fSubFields root); [contradiction | cbn; eauto].
  - intros [| top rest] Hws Hvalid; [contradiction |].
    destruct Hvalid as (ptr & Hcur & [u Hu]). cbn in Hcur.
    injection Hcur as <-.
    cbn [Advance]. rewrite Hu. cbn [mbind option_bind].
    case_bool_decide as Hnil; cbn [negb].
    + destruct (climb_keeps_stack root Hroot rest top Hws)
        as (it' & Hclimb & Hshape & Hlen); [eauto |].
      exists it'. split; [exact Hclimb |]. split; [exact Hshape |].
      cbn in *. lia.
    + eexists. split; [reflexivity |]. split; [| cbn; lia].
      right. split.
      * cbn [well_stacked fFieldPtr fIdxInParent].
        exists 0%nat, (fFieldPtr top). auto.
      * eexists. split; [reflexivity |]. cbn. rewrite Hu. cbn.
        destruct (fSubFields u); [contradiction | cbn; eauto].
  - intros [| top rest] ptr Hws Hcur; [contradiction |].
    cbn in Hcur. injection Hcur as <-.
    exact (well_stacked_depth _ Hws top rest eq_refl).
Qed.

Lemma schema_iterator_stack_is_ancestor_chain_witness :
  well_stacked (begin_ tree0)
  /\ exists it' : iterator,
       Advance tree0 [mkPosition [1%nat; 1%nat] 1; mkPosition [1%nat] 1]
       = Some it'
       /\ (it' = end_ tree0 \/ well_stacked it' /\ valid tree0 it').
Proof.
  destruct (schema_iterator_stack_is_ancestor_chain tree0)
    as (Hbegin & Hstep & _).
  - cbn. repeat split; lia.
  - split.
    + destruct Hbegin as [Hend | [Hws _]]; [discriminate Hend | exact Hws].
    + destruct (Hstep [mkPosition [1%nat; 1%nat] 1; mkPosition [1%nat] 1])
        as (it' & Hadv & Hshape & _).
      * cbn. exists 1%nat, [1%nat]. split; [reflexivity |].
        split; [reflexivity |]. split; [reflexivity |].
        exists 1%nat, []. auto.
      * eexists. split; [reflexivity |]. cbn. eauto.
      * exists it'. auto.
Defined.

End SchemaStackFacts.

(** ** Room for the bits of a bitset *)

Section BitsetRoomFacts.

Import RBitsetField.

Lemma GetValueSize_no_wrap (kWordSize N : Z) :
  0 < kWordSize <= 8 -> 0 <= N -> N + kWordSize * 8 - 1 < 2 ^ 64 ->
  GetValueSize kWordSize {| fN := N |}
  = kWordSize * ((N + kWordSize * 8 - 1) / (kWordSize * 8)).
Proof.
  intros Hw HN Hfit.
  unfold GetValueSize, kBitsPerWord, Mach.size_t, Mach.wrap. cbn [fN].
  rewrite (Z.mod_small (kWordSize * 8)) by lia.
  rewrite Zminus_mod_idemp_l.
  rewrite (Z.mod_small (N + kWordSize * 8 - 1)) by lia.
  set (q := (N + kWordSize * 8 - 1) / (kWordSize * 8)).
  assert (Hq : 0 <= q) by (apply Z.div_pos; lia).
  assert (Hle : kWordSize * 8 * q <= N + kWordSize * 8 - 1)
    by (apply Z.mul_div_le; lia).
  apply Z.mod_small. nia.
Qed.

(** X17: the value of a bitset field has room for all its bits and wastes
    less than one word: for [N] bits (with [N + kBitsPerWord - 1]
    representable) [GetValueSize] is a whole number of words, its bits are
    at least [N] and fewer than [N] plus one word, and a wider bitset never
    has a smaller value. *)
Theorem GetValueSize_holds_all_bits (kWordSize N : Z) :
  0 < kWordSize <= 8 -> 0 <= N -> N + kWordSize * 8 - 1 < 2 ^ 64 ->
  (kWordSize | GetValueSize kWordSize {| fN := N |})
  /\ N <= 8 * GetValueSize kWordSize {| fN := N |}
  /\ 8 * GetValueSize kWordSize {| fN := N |} < N + kWordSize * 8
  /\ forall N' : Z,
       N <= N' -> N' + kWordSize * 8 - 1 < 2 ^ 64 ->
       GetValueSize kWordSize {| fN := N |}
       <= GetValueSize kWordSize {| fN := N' |}.
Proof.
  intros Hw HN Hfit. rewrite GetValueSize_no_wrap by assumption.
  pose proof (Z.mul_div_le (N + kWordSize * 8 - 1) (kWordSize * 8)
                ltac:(lia)) as Hlo.
  pose proof (Z.mul_succ_div_gt (N + kWordSize * 8 - 1) (kWordSize * 8)
                ltac:(lia)) as Hhi.
  split; [| split; [lia | split; [lia |]]].
  - exists ((N + kWordSize * 8 - 1) / (kWordSize * 8)). lia.
  - intros N' Hle Hfit'. rewrite GetValueSize_no_wrap by lia.
    apply Z.mul_le_mono_nonneg_l; [lia |].
    apply Z.div_le_mono; lia.
Qed.

Lemma GetValueSize_holds_all_bits_witness :
  65 <= 8 * GetValueSize 8 {| fN := 65 |}
  /\ 8 * GetValueSize 8 {| fN := 65 |} < 65 + 64.
Proof.
  destruct (GetValueSize_holds_all_bits 8 65) as (_ & Hroom & Hwaste & _);
    [lia | lia | lia |].
  split; [exact Hroom | exact Hwaste].
Defined.

End BitsetRoomFacts.

(** ** Offsets of a vector field across clusters *)

Section RVecClusterFacts.

Import RRVecField.

(** X18: the offsets of a vector field are relative to the cluster: after
    [CommitClusterImpl] the entries appended next get the running totals of
    their own sizes, starting again from zero, whatever was written before,
    and [fNWritten] counts the items of the new cluster only. *)
Theorem RVec_offsets_restart_after_commit (cluster ips ops : Z)
    (before after : list (list Z)) :
  Forall (fun v => Z.of_nat (length v) < 2 ^ 32) before ->
  total before < 2 ^ 64 ->
  Forall (fun v => Z.of_nat (length v) < 2 ^ 32) after ->
  total after < 2 ^ 64 ->
  exists f1 f2 : t,
    append_all (fresh cluster ips ops) before = Some f1
    /\ append_all (CommitClusterImpl f1) after = Some f2
    /\ OffsetColumn.offsets (fOffsetColumn f2)
       = running_totals 0 before ++ running_totals 0 after
    /\ fNWritten f2 = total after
    /\ fItemColumn f2 = concat before ++ concat after.
Proof.
  intros Hsmall1 Hfit1 Hsmall2 Hfit2.
  destruct (append_all_spec before (fresh cluster ips ops) Hsmall1)
    as (f1 & Hrun1 & _ & Hoff1 & Hitems1 & _); [cbn; lia | cbn; lia |].
  cbn [fresh fNWritten fOffsetColumn fItemColumn OffsetColumn.offsets
       OffsetColumn.fPages concat app] in Hoff1, Hitems1.
  destruct (append_all_spec after (CommitClusterImpl f1) Hsmall2)
    as (f2 & Hrun2 & Hn2 & Hoff2 & Hitems2 & _); [cbn; lia | cbn; lia |].
  cbn [CommitClusterImpl fNWritten fOffsetColumn fItemColumn] in Hn2, Hoff2,
    Hitems2.
  exists f1, f2. split; [exact Hrun1 |]. split; [exact Hrun2 |].
  split; [now rewrite Hoff2, Hoff1 |]. split; [lia |].
  now rewrite Hitems2, Hitems1.
Qed.

Lemma RVec_offsets_restart_after_commit_witness :
  exists f1 f2 : t,
    append_all (fresh 0 4 8) [[1; 2; 3]; []] = Some f1
    /\ append_all (CommitClusterImpl f1) [[4]; [5; 6]] = Some f2
    /\ OffsetColumn.offsets (fOffsetColumn f2) = [3; 3; 1; 3].
Proof.
  destruct (RVec_offsets_restart_after_commit 0 4 8 [[1; 2; 3]; []]
              [[4]; [5; 6]])
    as (f1 & f2 & Hrun1 & Hrun2 & Hoff & _).
  - repeat constructor.
  - reflexivity.
  - repeat constructor.
  - reflexivity.
  - exists f1, f2. auto.
Defined.

End RVecClusterFacts.

(** ** The bulk read of a cardinality field for an empty range *)

Section CardinalityEmptyRangeFacts.

Import RCardinalityField.

Lemma map_pages_Some (pages : list (list Z)) :
  forall (idx : nat) (l : list Z),
    OffsetColumn.map_pages pages idx = Some l ->
    (0 < length l)%nat /\ (idx + length l <= length (concat pages))%nat.
Proof.
  induction pages as [| page rest IH]; intros idx l Hmap; cbn in Hmap;
    [discriminate |].
  cbn [concat]. rewrite length_app.
  destruct (decide (idx < length page)%nat) as [Hin | Hout].
  - injection Hmap as <-. rewrite length_drop. lia.
  - apply IH in Hmap. lia.
Qed.

Lemma loop_never_ends (sz : SizeT) (col : OffsetColumn.t)
    (fFirstIndex : RClusterIndex.t) :
  Z.of_nat (length (OffsetColumn.offsets col)) < 2 ^ 64 - 1 ->
  0 <= RClusterIndex.GetIndex fFirstIndex ->
  forall (fuel : nat) (e lastOffset : Z) (tv : list Z),
    1 <= e ->
    RClusterIndex.GetIndex fFirstIndex + e
    <= Z.of_nat (length (OffsetColumn.offsets col)) ->
    loop fuel sz col fFirstIndex lastOffset (2 ^ 64 - e) e tv = None.
Proof.
  intros Hlen Hfirst.
  induction fuel as [| fuel IH]; intros e lastOffset tv He Hin; cbn [loop];
    (destruct (Z.ltb_spec 0 (2 ^ 64 - e)) as [_ | Hdone]; [| lia]);
    [reflexivity |].
  destruct (OffsetColumn.MapV col (RClusterIndex.add fFirstIndex e))
    as [l |] eqn:Hmap; [| reflexivity].
  cbn [mbind option_bind].
  unfold OffsetColumn.MapV, RClusterIndex.add in Hmap.
  cbn [RClusterIndex.GetClusterId RClusterIndex.GetIndex] in Hmap.
  rewrite size_t_small in Hmap by lia.
  destruct (_ && _) in Hmap; [| discriminate].
  apply map_pages_Some in Hmap as [Hpos Hfit].
  fold (OffsetColumn.offsets col) in Hfit.
  set (nBatch := Z.min (2 ^ 64 - e) (Z.of_nat (length l))).
  destruct (batch sz (take (Z.to_nat nBatch) l) (Z.to_nat e) lastOffset tv)
    as [r |]; [| reflexivity].
  cbn [mbind option_bind].
  rewrite !size_t_small by lia.
  replace (2 ^ 64 - e - nBatch) with (2 ^ 64 - (e + nBatch)) by lia.
  apply IH; lia.
Qed.

(** X19: the bulk read of a cardinality field needs a range of at least one
    entry: for [fCount = 0] the count of remaining entries wraps around to
    the largest [std::size_t], the loop asks for entries past the end of the
    column, and [ReadBulkImpl] yields no result, whatever the bound on the
    number of turns. *)
Theorem ReadBulkImpl_needs_a_positive_count (fuel : nat) (sz : SizeT)
    (col : OffsetColumn.t) (fFirstIndex : RClusterIndex.t)
    (typedValues : list Z) :
  Z.of_nat (length (OffsetColumn.offsets col)) < 2 ^ 64 - 1 ->
  Mach.size_t (0 - 1) = Mach.size_max
  /\ ReadBulkImpl fuel sz col fFirstIndex 0 typedValues = None.
Proof.
  intros Hlen. split; [reflexivity |].
  unfold ReadBulkImpl.
  destruct (OffsetColumn.GetCollectionInfo col fFirstIndex)
    as [info |] eqn:Hinfo; [| reflexivity].
  cbn [mbind option_bind].
  destruct (store_at typedValues 0 (as_SizeT sz info.2)) as [tv |];
    [| reflexivity].
  cbn [mbind option_bind].
  unfold OffsetColumn.GetCollectionInfo in Hinfo.
  destruct (Z.leb_spec 0 (RClusterIndex.GetIndex fFirstIndex)) as [Hfirst |];
    [| rewrite andb_false_r in Hinfo; discriminate].
  destruct (_ =? _) in Hinfo; [| discriminate]. cbn [andb] in Hinfo.
  destruct (OffsetColumn.offsets col
              !! Z.to_nat (RClusterIndex.GetIndex fFirstIndex))
    as [idxEnd |] eqn:Hend; [| discriminate].
  apply lookup_lt_Some in Hend.
  change (Mach.size_t (0 - 1)) with (2 ^ 64 - 1).
  rewrite (loop_never_ends sz col fFirstIndex Hlen Hfirst fuel 1) by lia.
  reflexivity.
Qed.

Lemma ReadBulkImpl_needs_a_positive_count_witness :
  ReadBulkImpl 100 UInt32 column0 (RClusterIndex.mk 0 1) 0 [0; 0; 0] = None.
Proof.
  apply (ReadBulkImpl_needs_a_positive_count 100 UInt32 column0
           (RClusterIndex.mk 0 1) [0; 0; 0]).
  cbn. lia.
Defined.

End CardinalityEmptyRangeFacts.
